(** * Zero-Music backend: library index and range streaming engine

  A shallow embedding of the Go sources of the Zero-Music backend
  (package [models], package [services] and package [handlers]) together
  with the properties of the library index and of the range streaming
  engine.

  Conventions of the embedding.
  - A Go [string] is a [string] of bytes; [int], [int64] and
    [time.Duration] are [Z], with the 64-bit wrap-around written out
    where the source computes.
  - A pointer [*models.Song] is a location of the store ([nat], [nil] is
    [0]); a slice [[]*models.Song] is a location of a backing array of the
    store.  Methods of [*MusicScanner] take the receiver and the store and
    return both.
  - The file system, the clock and the cancellation context are read
    through explicit environment records.
  - The standard library functions the sources call ([strings],
    [strconv], [encoding/hex], [crypto/sha256], [path/filepath] on a
    Unix system) are modelled in modules named after the Go packages. *)

From Stdlib Require Import ZArith String Ascii List Bool Lia.
From stdpp Require Import base gmap strings list.

Local Open Scope Z_scope.

(** ** Go standard library: [strings] *)

Module gostrings.

(** ASCII case mapping: [strings.ToLower] restricted to byte strings whose
    letters are ASCII; other bytes are left as they are. *)
Definition lower_byte (c : ascii) : ascii :=
  let n := nat_of_ascii c in
  if ((65 <=? n) && (n <=? 90))%nat then ascii_of_nat (n + 32) else c.

Fixpoint ToLower (s : string) : string :=
  match s with
  | EmptyString => EmptyString
  | String c cs => String (lower_byte c) (ToLower cs)
  end.

Fixpoint HasPrefix (s prefix : string) : bool :=
  match prefix, s with
  | EmptyString, _ => true
  | String _ _, EmptyString => false
  | String p ps, String c cs => Ascii.eqb c p && HasPrefix cs ps
  end.

Fixpoint drop (n : nat) (s : string) : string :=
  match n, s with
  | O, _ => s
  | S _, EmptyString => EmptyString
  | S k, String _ cs => drop k cs
  end.

Fixpoint take (n : nat) (s : string) : string :=
  match n, s with
  | O, _ => EmptyString
  | S _, EmptyString => EmptyString
  | S k, String c cs => String c (take k cs)
  end.

Definition TrimPrefix (s prefix : string) : string :=
  if HasPrefix s prefix then drop (String.length prefix) s else s.

Definition HasSuffix (s suffix : string) : bool :=
  (String.length suffix <=? String.length s)%nat &&
  String.eqb (drop (String.length s - String.length suffix) s) suffix.

Definition TrimSuffix (s suffix : string) : string :=
  if HasSuffix s suffix
  then take (String.length s - String.length suffix) s
  else s.

(** [strings.Split s sep] for a separator of one byte, the only form the
    sources use ([strings.Split(ranges, "-")]): the pieces between the
    separators, one more than there are separators. *)
Fixpoint Split (s : string) (sep : ascii) : list string :=
  match s with
  | EmptyString => [EmptyString]
  | String c cs =>
      if Ascii.eqb c sep then EmptyString :: Split cs sep
      else match Split cs sep with
           | [] => [String c EmptyString]
           | p :: ps => String c p :: ps
           end
  end.

Fixpoint Contains (s sub : string) : bool :=
  HasPrefix s sub ||
  match s with
  | EmptyString => false
  | String _ cs => Contains cs sub
  end.

End gostrings.

(** ** Go standard library: [strconv] and [fmt] on integers *)

Module strconv.

Definition maxInt64 : Z := 2 ^ 63 - 1.
Definition minInt64 : Z := - 2 ^ 63.
Definition maxUint64 : Z := 2 ^ 64 - 1.

(** Two's complement wrap-around of 64-bit signed arithmetic. *)
Definition wrap64 (x : Z) : Z := (x + 2 ^ 63) mod 2 ^ 64 - 2 ^ 63.

Definition digit_val (c : ascii) : option Z :=
  let n := nat_of_ascii c in
  if ((48 <=? n) && (n <=? 57))%nat then Some (Z.of_nat (n - 48)) else None.

Fixpoint parse_digits (s : string) (acc : Z) : option Z :=
  match s with
  | EmptyString => Some acc
  | String c cs =>
      match digit_val c with
      | Some d => parse_digits cs (acc * 10 + d)
      | None => None
      end
  end.

(** [strconv.ParseUint(s, 10, 64)]; [None] stands for any error
    ([ErrSyntax] or [ErrRange]). *)
Definition ParseUint (s : string) : option Z :=
  match s with
  | EmptyString => None
  | _ =>
      match parse_digits s 0 with
      | Some n => if n <=? maxUint64 then Some n else None
      | None => None
      end
  end.

(** [strconv.ParseInt(s, 10, 64)]: an optional sign, then decimal digits,
    and the value must fit 64 signed bits. *)
Definition ParseInt (s : string) : option Z :=
  match s with
  | EmptyString => None
  | String c cs =>
      let neg := Ascii.eqb c "-" in
      let body := if Ascii.eqb c "+" || neg then cs else s in
      match ParseUint body with
      | None => None
      | Some un =>
          if negb neg && (2 ^ 63 <=? un) then None
          else if neg && (2 ^ 63 <? un) then None
          else Some (if neg then - un else un)
      end
  end.

Definition digit_char (d : Z) : ascii := ascii_of_nat (48 + Z.to_nat d).

Fixpoint format_digits (fuel : nat) (n : Z) : string :=
  match fuel with
  | O => String (digit_char (n mod 10)) EmptyString
  | S f =>
      if n <? 10 then String (digit_char n) EmptyString
      else (format_digits f (n / 10) ++ String (digit_char (n mod 10)) EmptyString)%string
  end.

(** [fmt.Sprintf("%d", n)]. *)
Definition FormatInt (n : Z) : string :=
  if n <? 0 then String "-" (format_digits (Z.to_nat (Z.log2 (- n))) (- n))
  else format_digits (Z.to_nat (Z.log2 n)) n.

End strconv.

(** ** Go standard library: [encoding/hex] *)

Module hex.

Definition hextable : string := "0123456789abcdef".

Definition hex_digit (d : Z) : ascii :=
  match String.get (Z.to_nat d) hextable with
  | Some c => c
  | None => "0"%char
  end.

Fixpoint EncodeToString (src : list Z) : string :=
  match src with
  | [] => EmptyString
  | b :: bs =>
      String (hex_digit (Z.land (Z.shiftr b 4) 15))
        (String (hex_digit (Z.land b 15)) (EncodeToString bs))
  end.

End hex.


(** ** Go standard library: [crypto/sha256] *)

Module sha256.

Definition w32 (x : Z) : Z := Z.land x (2 ^ 32 - 1).
Definition add32 (x y : Z) : Z := w32 (x + y).
Definition rotr (n x : Z) : Z := Z.lor (Z.shiftr x n) (w32 (Z.shiftl x (32 - n))).

Definition Ch (x y z : Z) : Z := Z.lxor (Z.land x y) (Z.land (Z.lxor x (2 ^ 32 - 1)) z).
Definition Maj (x y z : Z) : Z := Z.lxor (Z.lxor (Z.land x y) (Z.land x z)) (Z.land y z).
Definition bsig0 (x : Z) : Z := Z.lxor (Z.lxor (rotr 2 x) (rotr 13 x)) (rotr 22 x).
Definition bsig1 (x : Z) : Z := Z.lxor (Z.lxor (rotr 6 x) (rotr 11 x)) (rotr 25 x).
Definition ssig0 (x : Z) : Z := Z.lxor (Z.lxor (rotr 7 x) (rotr 18 x)) (Z.shiftr x 3).
Definition ssig1 (x : Z) : Z := Z.lxor (Z.lxor (rotr 17 x) (rotr 19 x)) (Z.shiftr x 10).

(** The round constants are the first 32 bits of the fractional parts of
    the cube roots of the first 64 primes, the initial state those of the
    square roots of the first 8 primes; both are computed here. *)
Definition is_prime (n : nat) : bool :=
  forallb (fun d => negb (n mod d =? 0)%nat) (seq 2 (n - 2)).

Definition primes64 : list Z :=
  Eval vm_compute in map Z.of_nat (filter is_prime (seq 2 310)).

Fixpoint cube_root_bits (bits : nat) (n r : Z) : Z :=
  match bits with
  | O => r
  | S b =>
      let c := r + 2 ^ Z.of_nat b in
      cube_root_bits b n (if c * c * c <=? n then c else r)
  end.

Definition K : list Z :=
  Eval vm_compute in map (fun p => w32 (cube_root_bits 36 (p * 2 ^ 96) 0)) primes64.

Definition H0 : list Z :=
  Eval vm_compute in map (fun p => w32 (Z.sqrt (p * 2 ^ 64))) (firstn 8 primes64).

(** Padding: the byte 0x80, zero bytes up to 56 modulo 64, and the bit
    length as a 64-bit big-endian number. *)
Definition be_bytes (n : nat) (x : Z) : list Z :=
  map (fun i => Z.land (Z.shiftr x (8 * Z.of_nat i)) 255) (rev (seq 0 n)).

Definition pad (msg : list Z) : list Z :=
  let len := Z.of_nat (length msg) in
  let zeros := Z.to_nat ((55 - len) mod 64) in
  msg ++ [128] ++ repeat 0 zeros ++ be_bytes 8 (8 * len).

Fixpoint be_words (fuel : nat) (bytes : list Z) : list Z :=
  match fuel, bytes with
  | S f, b0 :: b1 :: b2 :: b3 :: rest =>
      (((b0 * 256 + b1) * 256 + b2) * 256 + b3) :: be_words f rest
  | _, _ => []
  end.

Definition nthw (l : list Z) (i : nat) : Z := nth i l 0.

(** The message schedule, extended one word at a time. *)
Fixpoint schedule (n : nat) (w : list Z) : list Z :=
  match n with
  | O => w
  | S k =>
      let t := length w in
      let x := add32 (add32 (ssig1 (nthw w (t - 2))) (nthw w (t - 7)))
                     (add32 (ssig0 (nthw w (t - 15))) (nthw w (t - 16))) in
      schedule k (w ++ [x])
  end.

Record state := mkState { sa : Z; sb : Z; sc : Z; sd : Z; se : Z; sf : Z; sg : Z; sh : Z }.

Definition round (s : state) (kw : Z * Z) : state :=
  let '(k, w) := kw in
  let t1 := add32 (add32 (add32 (sh s) (bsig1 (se s))) (add32 (Ch (se s) (sf s) (sg s)) k)) w in
  let t2 := add32 (bsig0 (sa s)) (Maj (sa s) (sb s) (sc s)) in
  mkState (add32 t1 t2) (sa s) (sb s) (sc s) (add32 (sd s) t1) (se s) (sf s) (sg s).

Definition compress (s : state) (block : list Z) : state :=
  let w := schedule 48 (be_words 16 block) in
  let r := fold_left round (combine K w) s in
  mkState (add32 (sa s) (sa r)) (add32 (sb s) (sb r)) (add32 (sc s) (sc r))
          (add32 (sd s) (sd r)) (add32 (se s) (se r)) (add32 (sf s) (sf r))
          (add32 (sg s) (sg r)) (add32 (sh s) (sh r)).

Fixpoint blocks (fuel : nat) (s : state) (bytes : list Z) : state :=
  match fuel with
  | O => s
  | S f => blocks f (compress s (firstn 64 bytes)) (skipn 64 bytes)
  end.

Definition init : state :=
  mkState (nthw H0 0) (nthw H0 1) (nthw H0 2) (nthw H0 3)
          (nthw H0 4) (nthw H0 5) (nthw H0 6) (nthw H0 7).

Definition digest (s : state) : list Z :=
  flat_map (be_bytes 4) [sa s; sb s; sc s; sd s; se s; sf s; sg s; sh s].

(** [sha256.Sum256(data)]: the 32 bytes of the digest. *)
Definition Sum256 (data : list Z) : list Z :=
  let padded := pad data in
  digest (blocks (length padded / 64) init padded).

End sha256.

(** [[]byte(s)]: the bytes of a string. *)
Fixpoint bytes_of_string (s : string) : list Z :=
match s with
| EmptyString => []
| String c cs => Z.of_nat (nat_of_ascii c) :: bytes_of_string cs
end.

(** ** Go standard library: [path/filepath] (Unix) *)

Module filepath.

Definition Separator : ascii := "/".

Definition IsPathSeparator (c : ascii) : bool := Ascii.eqb c Separator.

(** The loop of [filepath.Ext]: from the last byte towards the first,
    stopping at a separator; [i] is one more than the index examined. *)
Fixpoint ext_scan (i : nat) (path : string) : string :=
  match i with
  | O => EmptyString
  | S j =>
      match String.get j path with
      | Some c =>
          if IsPathSeparator c then EmptyString
          else if Ascii.eqb c "." then gostrings.drop j path
          else ext_scan j path
      | None => EmptyString
      end
  end.

Definition Ext (path : string) : string := ext_scan (String.length path) path.

(** The length left when the trailing separators are stripped. *)
Fixpoint stripped_len (n : nat) (path : string) : nat :=
  match n with
  | O => O
  | S j =>
      match String.get j path with
      | Some c => if IsPathSeparator c then stripped_len j path else n
      | None => n
      end
  end.

(** The index at which the last element starts. *)
Fixpoint last_elem_start (i : nat) (path : string) : nat :=
  match i with
  | O => O
  | S j =>
      match String.get j path with
      | Some c => if IsPathSeparator c then i else last_elem_start j path
      | None => i
      end
  end.

Definition Base (path : string) : string :=
  match path with
  | EmptyString => "."%string
  | _ =>
      let p := gostrings.take (stripped_len (String.length path) path) path in
      let p := gostrings.drop (last_elem_start (String.length p) p) p in
      match p with
      | EmptyString => String Separator EmptyString
      | _ => p
      end
  end.

End filepath.

(** ** Go standard library: [regexp], for patterns of the shape
  [^[ranges]{n}$] *)

Module regexp.

(** A pattern [[ranges]{count}], anchored at the start with [^] and at
    the end of the text with [$].  Go's [$] without the [m] flag matches
    at the end of the text only. *)
Record Regexp := mkRegexp {
  anchor_begin : bool;
  class_ranges : list (ascii * ascii);
  count : nat;
  anchor_end : bool
}.

Definition in_class (ranges : list (ascii * ascii)) (c : ascii) : bool :=
  existsb (fun r => (nat_of_ascii (fst r) <=? nat_of_ascii c)%nat &&
                    (nat_of_ascii c <=? nat_of_ascii (snd r))%nat) ranges.

Fixpoint match_here (ranges : list (ascii * ascii)) (n : nat) (at_end : bool)
    (s : string) : bool :=
  match n with
  | O => if at_end then match s with EmptyString => true | _ => false end else true
  | S k =>
      match s with
      | EmptyString => false
      | String c cs => in_class ranges c && match_here ranges k at_end cs
      end
  end.

Fixpoint match_from (ranges : list (ascii * ascii)) (n : nat) (at_end : bool)
    (s : string) : bool :=
  match_here ranges n at_end s ||
  match s with
  | EmptyString => false
  | String _ cs => match_from ranges n at_end cs
  end.

Definition MatchString (re : Regexp) (s : string) : bool :=
  if anchor_begin re
  then match_here (class_ranges re) (count re) (anchor_end re) s
  else match_from (class_ranges re) (count re) (anchor_end re) s.

End regexp.

(** ** Package [models] *)

Module models.

(** [SongIDLength]: the number of digest bytes an identifier keeps. *)
Definition SongIDLength : nat := 16.

Record Song := mkSong {
  ID : string;
  Title : string;
  Artist : string;
  Album : string;
  Duration : Z;
  FilePath : string;
  FileName : string;
  FileSize : Z;
  AddedAt : Z;
  Format : string
}.

(** The tags [tag.ReadFrom] returns for a file. *)
Record Metadata := mkMetadata {
  tag_title : string;
  tag_artist : string;
  tag_album : string
}.

(** What [NewSong] reads from its surroundings for one file: the clock,
    the modification time when [os.Stat] succeeds, the tags when the file
    opens and [tag.ReadFrom] succeeds. *)
Record FileMeta := mkFileMeta {
  time_now : Z;
  stat_mod_time : option Z;
  read_tags : option Metadata
}.

(** [generateID]: the hex form of the first [SongIDLength] bytes of the
    SHA-256 digest of the path. *)
Definition generateID (filePath : string) : string :=
  let hash := sha256.Sum256 (bytes_of_string filePath) in
  hex.EncodeToString (firstn SongIDLength hash).

Definition nonempty_or (s dflt : string) : string :=
  match s with
  | EmptyString => dflt
  | _ => s
  end.

Definition NewSong (env : FileMeta) (filePath : string) (fileSize : Z) : Song :=
  let fileName := filepath.Base filePath in
  let ext := filepath.Ext fileName in
  let title := gostrings.TrimSuffix fileName ext in
  let addedAt :=
    match stat_mod_time env with
    | Some t => t
    | None => time_now env
    end in
  let '(title, artist, album) :=
    match read_tags env with
    | Some metadata =>
        (nonempty_or (tag_title metadata) title,
         nonempty_or (tag_artist metadata) "Unknown"%string,
         nonempty_or (tag_album metadata) "Unknown"%string)
    | None => (title, "Unknown"%string, "Unknown"%string)
    end in
  {| ID := generateID filePath;
     Title := title;
     Artist := artist;
     Album := album;
     Duration := 0;
     FilePath := filePath;
     FileName := fileName;
     FileSize := fileSize;
     AddedAt := addedAt;
     Format := gostrings.ToLower ext |}.

Arguments generateID : simpl never.
Arguments NewSong : simpl never.

(** [ValidIDPattern]: the pattern [^[a-f0-9]{32}$]. *)
Definition ValidIDPattern : regexp.Regexp :=
  regexp.mkRegexp true [("a", "f"); ("0", "9")]%char 32 true.

End models.

(** ** The store: songs behind pointers and backing arrays behind slices *)

Module store.

(** A location of the store. *)
Abbreviation loc := nat (only parsing).

(** The [nil] pointer. *)
Definition nilptr : loc := 0%nat.

Record Store := mkStore {
  objs : gmap nat models.Song;
  arrays : gmap nat (list nat);
  next : nat
}.

Definition empty : Store := mkStore ∅ ∅ 1.

(** [&models.Song{...}]: a fresh song object. *)
Definition new_song (st : Store) (v : models.Song) : loc * Store :=
  (next st, mkStore (<[next st := v]> (objs st)) (arrays st) (S (next st))).

(** [make([]*models.Song, n)] followed by writing [elems]. *)
Definition make_slice (st : Store) (elems : list loc) : loc * Store :=
  (next st, mkStore (objs st) (<[next st := elems]> (arrays st)) (S (next st))).

Definition deref (st : Store) (p : loc) : option models.Song :=
  if (p =? nilptr)%nat then None else objs st !! p.

Definition elems (st : Store) (a : loc) : list loc :=
  match arrays st !! a with
  | Some l => l
  | None => []
  end.

Definition len (st : Store) (a : loc) : Z := Z.of_nat (length (elems st a)).

(** [a = append(a, p)], seen through the slice [a]. *)
Definition append (st : Store) (a p : loc) : Store :=
  mkStore (objs st) (<[a := elems st a ++ [p]]> (arrays st)) (next st).

(** [a[i] = p]; out of range the Go program panics and nothing is
    written. *)
Definition set_elem (st : Store) (a : loc) (i : nat) (p : loc) : Store :=
  mkStore (objs st) (<[a := <[i := p]> (elems st a)]> (arrays st)) (next st).

(** [*p = v]. *)
Definition write_song (st : Store) (p : loc) (v : models.Song) : Store :=
  mkStore (<[p := v]> (objs st)) (arrays st) (next st).

(** The songs a slice points to, by value. *)
Definition songs_at (st : Store) (a : loc) : list (option models.Song) :=
  map (deref st) (elems st a).

End store.

(** ** Go standard library: [time] *)

Module gotime.

(** A [time.Duration] counts nanoseconds. *)
Definition Minute : Z := 60 * 1000000000.
Definition maxDuration : Z := strconv.maxInt64.
Definition minDuration : Z := strconv.minInt64.

(** [time.Since(t)] read at the instant [now]: the difference, saturated
    to the range of a duration.  The zero [time.Time] ([None]) lies more
    than [maxDuration] in the past. *)
Definition Since (now : Z) (t : option Z) : Z :=
  match t with
  | None => maxDuration
  | Some t0 => Z.max minDuration (Z.min maxDuration (now - t0))
  end.

End gotime.

(** ** Package [services]: the library index *)

Module services.

Import store.

Record MusicScanner := mkMusicScanner {
  directory : string;
  supportedFormats : list string;
  songs : loc;
  songIndex : gmap string nat;
  lastScan : option Z;
  cacheTTL : Z
}.

Definition set_songs (s : MusicScanner) (a : loc) : MusicScanner :=
  mkMusicScanner (directory s) (supportedFormats s) a (songIndex s) (lastScan s) (cacheTTL s).

Definition set_songIndex (s : MusicScanner) (m : gmap string nat) : MusicScanner :=
  mkMusicScanner (directory s) (supportedFormats s) (songs s) m (lastScan s) (cacheTTL s).

Definition set_lastScan (s : MusicScanner) (t : Z) : MusicScanner :=
  mkMusicScanner (directory s) (supportedFormats s) (songs s) (songIndex s) (Some t) (cacheTTL s).

(** *** The surroundings of a scan *)

(** The error a walk stops with: [ctx.Err()] or the error [filepath.Walk]
    handed to the callback. *)
Inductive WalkErr :=
| ContextErr
| FsErr (msg : string).

Inductive ScanError :=
| DirectoryNotFound (dir : string)
| WalkFailed (cause : WalkErr).

Inductive result (A : Type) :=
| Ok (a : A)
| Err (e : ScanError).
Arguments Ok {A} a.
Arguments Err {A} e.

(** One call of the walk callback: what [filepath.Walk] passes. *)
Inductive Entry :=
| EntryErr (path : string) (msg : string)
| EntryDir (path : string)
| EntryFile (path : string) (size : Z) (meta : models.FileMeta).

(** A visit: whether [ctx.Done()] is ready when the callback runs, and
    the entry. *)
Record Visit := mkVisit {
  ctx_done : bool;
  entry : Entry
}.

(** The file system as one walk sees it: whether [os.Stat] of the root
    reports that it does not exist, the visits [filepath.Walk] would make
    in order if the callback never failed, and the clock when the walk
    ends. *)
Record WalkEnv := mkWalkEnv {
  dir_missing : bool;
  visits : list Visit;
  now_done : Z
}.

(** The surroundings of [Scan]: the clock at the check under the read
    lock, the clock at the check under the write lock, and the file
    system. *)
Record ScanEnv := mkScanEnv {
  now_rlock : Z;
  now_lock : Z;
  fs : WalkEnv
}.

(** *** [NewMusicScanner] *)

Definition NewMusicScanner (directory : string) (supportedFormats : list string)
    (cacheTTLMinutes : Z) (st : Store) : MusicScanner * Store :=
  let supportedFormats :=
    if (length supportedFormats =? 0)%nat then [".mp3"%string] else supportedFormats in
  let cacheTTLMinutes := if cacheTTLMinutes <=? 0 then 5 else cacheTTLMinutes in
  let '(a, st) := make_slice st [] in
  (mkMusicScanner directory supportedFormats a ∅ None
     (strconv.wrap64 (cacheTTLMinutes * gotime.Minute)), st).

(** *** [scanInternal] *)

(** The loop over [s.supportedFormats] in the walk callback. *)
Fixpoint add_if_supported (ext path : string) (size : Z) (meta : models.FileMeta)
    (formats : list string) (s : MusicScanner) (st : Store) : MusicScanner * Store :=
  match formats with
  | [] => (s, st)
  | supported :: rest =>
      if String.eqb ext (gostrings.ToLower supported) then
        let song := models.NewSong meta path size in
        let '(p, st) := new_song st song in
        let st := append st (songs s) p in
        (set_songIndex s (<[models.ID song := p]> (songIndex s)), st)
      else add_if_supported ext path size meta rest s st
  end.

(** The callback passed to [filepath.Walk]. *)
Definition walkFn (v : Visit) (s : MusicScanner) (st : Store)
    : option WalkErr * MusicScanner * Store :=
  if ctx_done v then (Some ContextErr, s, st)
  else
    match entry v with
    | EntryErr _ msg => (Some (FsErr msg), s, st)
    | EntryDir _ => (None, s, st)
    | EntryFile path size meta =>
        let ext := gostrings.ToLower (filepath.Ext path) in
        let '(s, st) := add_if_supported ext path size meta (supportedFormats s) s st in
        (None, s, st)
    end.

(** [filepath.Walk]: the callback runs on each visit in turn and the walk
    stops at the first error it returns. *)
Fixpoint Walk (vs : list Visit) (s : MusicScanner) (st : Store)
    : option WalkErr * MusicScanner * Store :=
  match vs with
  | [] => (None, s, st)
  | v :: rest =>
      match walkFn v s st with
      | (Some e, s, st) => (Some e, s, st)
      | (None, s, st) => Walk rest s st
      end
  end.

Definition scanInternal (w : WalkEnv) (s : MusicScanner) (st : Store)
    : result loc * MusicScanner * Store :=
  let '(a, st) := make_slice st [] in
  let s := set_songs s a in
  let s := set_songIndex s ∅ in
  if dir_missing w then (Err (DirectoryNotFound (directory s)), s, st)
  else
    match Walk (visits w) s st with
    | (Some e, s, st) => (Err (WalkFailed e), s, st)
    | (None, s, st) =>
        let s := set_lastScan s (now_done w) in
        (Ok (songs s), s, st)
    end.

(** *** [Scan] *)

(** [time.Since(s.lastScan) < s.cacheTTL && len(s.songs) > 0]. *)
Definition cache_valid (now : Z) (s : MusicScanner) (st : Store) : bool :=
  (gotime.Since now (lastScan s) <? cacheTTL s) && (0 <? len st (songs s)).

(** [make] and [copy]: a new backing array with the same pointers. *)
Definition copy_slice (s : MusicScanner) (st : Store) : loc * Store :=
  make_slice st (elems st (songs s)).

(** The part of [Scan] under the read lock: the copy on a cache hit. *)
Definition Scan_rlocked (now : Z) (s : MusicScanner) (st : Store) : option (loc * Store) :=
  if cache_valid now s st then Some (copy_slice s st) else None.

(** The part of [Scan] under the write lock. *)
Definition Scan_locked (now : Z) (w : WalkEnv) (s : MusicScanner) (st : Store)
    : result loc * MusicScanner * Store :=
  if cache_valid now s st then
    let '(a, st) := copy_slice s st in (Ok a, s, st)
  else scanInternal w s st.

Definition Scan (e : ScanEnv) (s : MusicScanner) (st : Store)
    : result loc * MusicScanner * Store :=
  match Scan_rlocked (now_rlock e) s st with
  | Some (a, st) => (Ok a, s, st)
  | None => Scan_locked (now_lock e) (fs e) s st
  end.

(** *** [Refresh] *)

Definition Refresh (w : WalkEnv) (s : MusicScanner) (st : Store)
    : option ScanError * MusicScanner * Store :=
  match scanInternal w s st with
  | (Ok _, s, st) => (None, s, st)
  | (Err e, s, st) => (Some e, s, st)
  end.

(** *** [GetSongs], [GetSongCount], [GetSongByID] *)

(** The loop of [GetSongs]: [dst[i] = &copiedSong] for each song that is
    not [nil]. *)
Fixpoint copy_songs (dst : loc) (i : nat) (src : list loc) (st : Store) : Store :=
  match src with
  | [] => st
  | song :: rest =>
      let st :=
        match deref st song with
        | Some v => let '(q, st) := new_song st v in set_elem st dst i q
        | None => st
        end in
      copy_songs dst (S i) rest st
  end.

Definition GetSongs (s : MusicScanner) (st : Store) : loc * Store :=
  let src := elems st (songs s) in
  let '(a, st) := make_slice st (repeat nilptr (length src)) in
  (a, copy_songs a 0 src st).

Definition GetSongCount (s : MusicScanner) (st : Store) : Z := len st (songs s).

Definition GetSongByID (id : string) (s : MusicScanner) (st : Store) : loc * Store :=
  match songIndex s !! id with
  | None => (nilptr, st)
  | Some song =>
      match deref st song with
      | None => (nilptr, st)
      | Some v => new_song st v
      end
  end.

(** *** The interface [Scanner] *)

Class Scanner (T : Type) := {
  Scanner_Scan : ScanEnv -> T -> Store -> result loc * T * Store;
  Scanner_Refresh : WalkEnv -> T -> Store -> option ScanError * T * Store;
  Scanner_GetSongs : T -> Store -> loc * Store;
  Scanner_GetSongCount : T -> Store -> Z;
  Scanner_GetSongByID : string -> T -> Store -> loc * Store
}.

#[export] Instance MusicScanner_Scanner : Scanner MusicScanner := {
  Scanner_Scan := Scan;
  Scanner_Refresh := Refresh;
  Scanner_GetSongs := GetSongs;
  Scanner_GetSongCount := GetSongCount;
  Scanner_GetSongByID := GetSongByID
}.

(** *** What a caller of the index observes *)

(** The songs [GetSongs] returns, by value. *)
Definition list_view (s : MusicScanner) (st : Store) : list (option models.Song) :=
  let '(a, st') := GetSongs s st in songs_at st' a.

(** The song [GetSongByID] returns, by value. *)
Definition lookup_view (id : string) (s : MusicScanner) (st : Store) : option models.Song :=
  let '(p, st') := GetSongByID id s st in deref st' p.

Definition count_view (s : MusicScanner) (st : Store) : Z := GetSongCount s st.

(** *** Runs of the index *)

Inductive Op :=
| OpScan (e : ScanEnv)
| OpRefresh (w : WalkEnv)
| OpGetSongs
| OpGetSongCount
| OpGetSongByID (id : string).

Definition step (op : Op) (w : MusicScanner * Store) : MusicScanner * Store :=
  let '(s, st) := w in
  match op with
  | OpScan e => let '(_, s, st) := Scan e s st in (s, st)
  | OpRefresh e => let '(_, s, st) := Refresh e s st in (s, st)
  | OpGetSongs => (s, snd (GetSongs s st))
  | OpGetSongCount => (s, st)
  | OpGetSongByID id => (s, snd (GetSongByID id s st))
  end.

Definition run (ops : list Op) (w : MusicScanner * Store) : MusicScanner * Store :=
  fold_left (fun w op => step op w) ops w.

(** The walk an operation makes when it walks at all. *)
Definition op_visits (op : Op) : list Visit :=
  match op with
  | OpScan e => visits (fs e)
  | OpRefresh w => visits w
  | _ => []
  end.

(** The file paths a walk with these formats indexes, in order. *)
Definition is_supported (formats : list string) (path : string) : bool :=
  existsb (fun supported =>
             String.eqb (gostrings.ToLower (filepath.Ext path)) (gostrings.ToLower supported))
          formats.

Fixpoint indexed_paths (formats : list string) (vs : list Visit) : list string :=
  match vs with
  | [] => []
  | v :: rest =>
      match entry v with
      | EntryFile path _ _ =>
          if is_supported formats path then path :: indexed_paths formats rest
          else indexed_paths formats rest
      | _ => indexed_paths formats rest
      end
  end.

(** The visits the callback runs on without returning an error. *)
Fixpoint completed (vs : list Visit) : list Visit :=
  match vs with
  | [] => []
  | v :: rest =>
      if ctx_done v then []
      else match entry v with
           | EntryErr _ _ => []
           | _ => v :: completed rest
           end
  end.

(** *** Consistency of the sequence and the mapping *)

(** The identifiers of the songs of the sequence, in order. *)
Definition ids_of (st : Store) (ps : list loc) : list string :=
  omap (fun p => models.ID <$> deref st p) ps.

(** Every identifier of the mapping appears exactly once in the sequence,
    as the very song it is mapped to, and every entry of the sequence is
    a song mapped from its identifier. *)
Definition consistent (s : MusicScanner) (st : Store) : Prop :=
  (forall id p, songIndex s !! id = Some p ->
     count_occ string_dec (ids_of st (elems st (songs s))) id = 1%nat /\
     p ∈ elems st (songs s) /\
     models.ID <$> deref st p = Some id) /\
  (forall p, p ∈ elems st (songs s) ->
     exists v, deref st p = Some v /\ songIndex s !! models.ID v = Some p).

End services.

(** ** Package [config]: the fields the handlers read *)

Module config.

Record Config := mkConfig {
  Music_Directory : string;
  Music_SupportedFormats : list string;
  Music_CacheTTLMinutes : Z;
  Server_MaxRangeSize : Z
}.

End config.

(** ** Package [handlers]: the range streaming engine *)

Module handlers.

Import store services.

(** *** Errors of the API *)

Inductive GoError :=
| ScanErr (e : ScanError)
| OsErr (msg : string).

Record APIError := mkAPIError {
  Code : string;
  Message : string;
  Details : option GoError
}.

Definition NewNotFoundError (resource : string) : APIError :=
  mkAPIError "NOT_FOUND" (resource ++ "未找到")%string None.

(** The details are left out when [ZERO_MUSIC_ENV] is [production]. *)
Definition NewInternalError (production : bool) (err : GoError) : APIError :=
  mkAPIError "INTERNAL_ERROR" "内部服务器错误" (if production then None else Some err).

Definition NewBadRequestError (message : string) : APIError :=
  mkAPIError "BAD_REQUEST" message None.

Definition NewForbiddenError (message : string) : APIError :=
  mkAPIError "FORBIDDEN" message None.

(** *** The response under construction ([gin.Context]) *)

Inductive Body :=
| BodyNone
| BodyJSON (e : APIError)
| BodyBytes (data : list Byte.byte).

Record Response := mkResponse {
  status : Z;
  headers : list (string * string);
  body : Body
}.

Definition StatusOK : Z := 200.
Definition StatusPartialContent : Z := 206.
Definition StatusBadRequest : Z := 400.
Definition StatusForbidden : Z := 403.
Definition StatusNotFound : Z := 404.
Definition StatusRequestedRangeNotSatisfiable : Z := 416.
Definition StatusInternalServerError : Z := 500.

Definition blank : Response := mkResponse StatusOK [] BodyNone.

Fixpoint set_header (k v : string) (hs : list (string * string)) : list (string * string) :=
  match hs with
  | [] => [(k, v)]
  | (k', v') :: rest =>
      if String.eqb k' k then (k, v) :: rest else (k', v') :: set_header k v rest
  end.

Fixpoint get_header (k : string) (hs : list (string * string)) : option string :=
  match hs with
  | [] => None
  | (k', v') :: rest => if String.eqb k' k then Some v' else get_header k rest
  end.

(** [c.Header(k, v)]. *)
Definition Header (k v : string) (c : Response) : Response :=
  mkResponse (status c) (set_header k v (headers c)) (body c).

(** [c.Status(code)]. *)
Definition Status (code : Z) (c : Response) : Response :=
  mkResponse code (headers c) (body c).

(** [c.JSON(code, obj)]. *)
Definition JSON (code : Z) (obj : APIError) (c : Response) : Response :=
  mkResponse code
    (set_header "Content-Type" "application/json; charset=utf-8" (headers c))
    (BodyJSON obj).

(** Writing bytes to [c.Writer]. *)
Definition Write (data : list Byte.byte) (c : Response) : Response :=
  mkResponse (status c) (headers c) (BodyBytes data).

(** *** The operating system as the handler reads it *)

Inductive FileInfo :=
| StatNotExist
| StatFailed (msg : string)
| StatOk (isDir : bool) (size : Z).

Record OS := mkOS {
  Abs : string -> option string;
  Stat : string -> FileInfo;
  Open : string -> option (list Byte.byte);
  TypeByExtension : string -> string;
  production : bool
}.

(** What a run of the handler asked of the index and of the operating
    system, in order; [EffPanic] ends the trace of a run that stopped in a
    run-time panic (a [nil] pointer was dereferenced). *)
Inductive Effect :=
| EffScan
| EffAbs (path : string)
| EffStat (path : string)
| EffOpen (path : string)
| EffPanic.

(** A file name between double quotes, as [%s] between escaped quotes
    prints it. *)
Definition quoted (s : string) : string :=
  String "034" (s ++ String "034" EmptyString).

(** *** [getMimeType] *)

Definition getMimeType (os : OS) (filename : string) : string :=
  let ext := gostrings.ToLower (filepath.Ext filename) in
  let mimeType := TypeByExtension os ext in
  match mimeType with
  | EmptyString =>
      if String.eqb ext ".mp3" then "audio/mpeg"
      else if String.eqb ext ".flac" then "audio/flac"
      else if String.eqb ext ".wav" then "audio/wav"
      else if String.eqb ext ".m4a" then "audio/mp4"
      else if String.eqb ext ".ogg" then "audio/ogg"
      else "application/octet-stream"
  | _ => mimeType
  end%string.

(** *** [StreamHandler] *)

Record StreamHandler (T : Type) := mkStreamHandler {
  scanner : T;
  musicDir : string;
  musicDirAbs : string;
  maxRangeSize : Z
}.
Arguments mkStreamHandler {T}.
Arguments scanner {T}.
Arguments musicDir {T}.
Arguments musicDirAbs {T}.
Arguments maxRangeSize {T}.

Definition NewStreamHandler {T : Type} (os : OS) (scanner : T) (cfg : config.Config)
    : StreamHandler T :=
  let musicDirAbs :=
    match Abs os (config.Music_Directory cfg) with
    | Some p => p
    | None => config.Music_Directory cfg
    end in
  mkStreamHandler scanner (config.Music_Directory cfg) musicDirAbs
    (config.Server_MaxRangeSize cfg).

Record Request := mkRequest {
  param_id : string;
  header_Range : string;
  ctx : ScanEnv
}.

(** *** [serveRange] *)

(** One bound of the range: the default when the field is empty, an
    error when it does not parse or parses to a negative number. *)
Definition parse_bound (field : string) (dflt : Z) : option Z :=
  match field with
  | EmptyString => Some dflt
  | _ =>
      match strconv.ParseInt field with
      | Some v => if v <? 0 then None else Some v
      | None => None
      end
  end.

(** [file.Seek(start, 0)] on the bytes of a regular file. *)
Definition Seek (file : list Byte.byte) (offset : Z) : option (list Byte.byte) :=
  if offset <? 0 then None else Some (skipn (Z.to_nat offset) file).

(** [io.CopyN(w, file, n)]: [n] bytes, or those left before the end. *)
Definition CopyN (file : list Byte.byte) (n : Z) : list Byte.byte :=
  firstn (Z.to_nat n) file.

Definition serveRange {T : Type} (h : StreamHandler T) (os : OS) (c : Response)
    (file : list Byte.byte) (fileSize : Z) (rangeHeader filename : string) : Response :=
  let ranges := gostrings.TrimPrefix rangeHeader "bytes=" in
  let parts := gostrings.Split ranges "-" in
  match parts with
  | [part0; part1] =>
      let start := 0 in
      let end_ := strconv.wrap64 (fileSize - 1) in
      match parse_bound part0 start with
      | None => JSON StatusBadRequest (NewBadRequestError "无效的 Range 起始值") c
      | Some start =>
          match parse_bound part1 end_ with
          | None => JSON StatusBadRequest (NewBadRequestError "无效的 Range 结束值") c
          | Some end_ =>
              if (start <? 0) || (fileSize <=? end_) || (end_ <? start) then
                let c := Header "Content-Range"
                           ("bytes */" ++ strconv.FormatInt fileSize)%string c in
                Status StatusRequestedRangeNotSatisfiable c
              else
                let contentLength := strconv.wrap64 (strconv.wrap64 (end_ - start) + 1) in
                if maxRangeSize h <? contentLength then
                  JSON StatusBadRequest
                    (NewBadRequestError
                       ("请求范围过大 (最大 " ++ strconv.FormatInt (maxRangeSize h) ++ " 字节)")%string) c
                else
                  let mimeType := getMimeType os filename in
                  let c := Header "Content-Range"
                             ("bytes " ++ strconv.FormatInt start ++ "-" ++
                              strconv.FormatInt end_ ++ "/" ++ strconv.FormatInt fileSize)%string c in
                  let c := Header "Content-Length" (strconv.FormatInt contentLength) c in
                  let c := Header "Content-Type" mimeType c in
                  let c := Header "Content-Disposition"
                             ("inline; filename=" ++ quoted filename)%string c in
                  let c := Header "Accept-Ranges" "bytes" c in
                  let c := Status StatusPartialContent c in
                  match Seek file start with
                  | None =>
                      JSON StatusInternalServerError
                        (NewInternalError (production os) (OsErr "seek")) c
                  | Some rest => Write (CopyN rest contentLength) c
                  end
          end
      end
  | _ => JSON StatusBadRequest (NewBadRequestError "无效的 Range 请求头格式") c
  end.

(** *** [StreamAudio] *)

(** The search [for _, song := range songs]: it stops at the first song
    with this identifier, and [song.ID] on a [nil] entry met before that
    is a run-time panic. *)
Inductive Search :=
| Found (songPath : string)
| Missing
| NilEntry.

Fixpoint search (st : Store) (id : string) (ps : list loc) : Search :=
  match ps with
  | [] => Missing
  | p :: rest =>
      match deref st p with
      | Some song =>
          if String.eqb (models.ID song) id then Found (models.FilePath song)
          else search st id rest
      | None => NilEntry
      end
  end.

(** The path the search finds, when it finds one. *)
Definition find_song (st : Store) (id : string) (ps : list loc) : option string :=
  match search st id ps with
  | Found songPath => Some songPath
  | _ => None
  end.

Definition StreamAudio {T : Type} `{Scanner T} (h : StreamHandler T) (os : OS)
    (req : Request) (st : Store) : Response * list Effect * StreamHandler T * Store :=
  let c := blank in
  let id := param_id req in
  if negb (regexp.MatchString models.ValidIDPattern id) then
    (JSON StatusBadRequest (NewBadRequestError "无效的歌曲 ID 格式") c, [], h, st)
  else
    let '(r, sc, st) := Scanner_Scan (ctx req) (scanner h) st in
    let h := mkStreamHandler sc (musicDir h) (musicDirAbs h) (maxRangeSize h) in
    match r with
    | Err e =>
        (JSON StatusInternalServerError (NewInternalError (production os) (ScanErr e)) c,
         [EffScan], h, st)
    | Ok songs =>
        match search st id (elems st songs) with
        | NilEntry => (c, [EffScan; EffPanic], h, st)
        | Missing => (JSON StatusNotFound (NewNotFoundError "歌曲") c, [EffScan], h, st)
        | Found songPath =>
            match Abs os songPath with
            | None =>
                (JSON StatusInternalServerError
                   (NewInternalError (production os) (OsErr "abs")) c,
                 [EffScan; EffAbs songPath], h, st)
            | Some cleanPath =>
                if negb (gostrings.HasPrefix cleanPath (musicDirAbs h)) then
                  (JSON StatusForbidden (NewForbiddenError "拒绝访问") c,
                   [EffScan; EffAbs songPath], h, st)
                else
                  match Stat os cleanPath with
                  | StatNotExist =>
                      (JSON StatusNotFound (NewNotFoundError "音频文件") c,
                       [EffScan; EffAbs songPath; EffStat cleanPath], h, st)
                  | StatFailed msg =>
                      (JSON StatusInternalServerError
                         (NewInternalError (production os) (OsErr msg)) c,
                       [EffScan; EffAbs songPath; EffStat cleanPath], h, st)
                  | StatOk isDir fileSize =>
                      if isDir then
                        (JSON StatusForbidden (NewForbiddenError "无法流式传输目录") c,
                         [EffScan; EffAbs songPath; EffStat cleanPath], h, st)
                      else
                        let effs := [EffScan; EffAbs songPath; EffStat cleanPath;
                                     EffOpen cleanPath] in
                        match Open os cleanPath with
                        | None =>
                            (JSON StatusInternalServerError
                               (NewInternalError (production os) (OsErr "open")) c,
                             effs, h, st)
                        | Some file =>
                            let rangeHeader := header_Range req in
                            match rangeHeader with
                            | String _ _ =>
                                (serveRange h os c file fileSize rangeHeader
                                   (filepath.Base cleanPath), effs, h, st)
                            | EmptyString =>
                                let mimeType := getMimeType os cleanPath in
                                let c := Header "Content-Type" mimeType c in
                                let c := Header "Content-Length"
                                           (strconv.FormatInt fileSize) c in
                                let c := Header "Content-Disposition"
                                           ("inline; filename=" ++
                                            quoted (filepath.Base cleanPath))%string c in
                                let c := Header "Accept-Ranges" "bytes" c in
                                let c := Status StatusOK c in
                                (Write file c, effs, h, st)
                            end
                        end
                  end
            end
        end
    end.

(** The identifier check of the older [StreamAudio] kept in
    [handlers/stream.go]: it refuses the empty identifier and those with
    [".."], ["/"] or a backslash, and nothing else. *)
Definition legacy_id_rejected (id : string) : bool :=
  String.eqb id EmptyString || gostrings.Contains id ".." || gostrings.Contains id "/" ||
  gostrings.Contains id (String "092" EmptyString).

(** *** Range requests as the specification writes them *)

(** The decimal form of a bound, nothing when the bound is missing. *)
Definition bound_text (b : option Z) : string :=
  match b with
  | Some n => strconv.FormatInt n
  | None => EmptyString
  end.

(** The header [bytes=<start>-<end>]. *)
Definition range_header (start end_ : option Z) : string :=
  ("bytes=" ++ bound_text start ++ "-" ++ bound_text end_)%string.

(** A bound with its default. *)
Definition bound_or (b : option Z) (dflt : Z) : Z :=
  match b with
  | Some n => n
  | None => dflt
  end.

(** The bytes [start] through [end_] of a file. *)
Definition byte_range (file : list Byte.byte) (start end_ : Z) : list Byte.byte :=
  firstn (Z.to_nat (end_ - start + 1)) (skipn (Z.to_nat start) file).

End handlers.

(** ** The words of the specification *)

Module spec.

(** A lowercase hexadecimal character. *)
Definition is_lower_hex (c : ascii) : bool :=
  existsb (Ascii.eqb c) (list_ascii_of_string "0123456789abcdef").

(** The identifier format: exactly 32 lowercase hexadecimal characters. *)
Definition is_id_format (s : string) : Prop :=
  String.length s = 32%nat /\
  Forall (fun c => is_lower_hex c = true) (list_ascii_of_string s).

(** A string of decimal digits. *)
Fixpoint all_digits (s : string) : bool :=
  match s with
  | EmptyString => true
  | String c cs => match strconv.digit_val c with Some _ => all_digits cs | None => false end
  end.

(** A string without the separator. *)
Fixpoint no_sep (sep : ascii) (s : string) : bool :=
  match s with
  | EmptyString => true
  | String c cs => negb (Ascii.eqb c sep) && no_sep sep cs
  end.

(** A bound of a range that is written with a minus sign. *)
Definition negative (b : option Z) : bool :=
  match b with
  | Some n => n <? 0
  | None => false
  end.

(** A bound of a range that fits 64 signed bits when it is given. *)
Definition fits_int64 (b : option Z) : Prop :=
  match b with
  | Some n => strconv.minInt64 <= n <= strconv.maxInt64
  | None => True
  end.

(** A bound of a range that is too large for 64 signed bits. *)
Definition above_int64 (b : option Z) : bool :=
  match b with
  | Some n => strconv.maxInt64 <? n
  | None => false
  end.

(** A byte. *)
Definition is_byte (b : Z) : Prop := 0 <= b < 256.

End spec.

(** ** Notions used to state and prove the properties of the index *)

Module index_props.

Import store services.

(** The song the walk callback adds for a supported file. *)
Definition add_song (path : string) (size : Z) (meta : models.FileMeta)
    (s : MusicScanner) (st : Store) : MusicScanner * Store :=
  let song := models.NewSong meta path size in
  let '(p, st) := new_song st song in
  let st := append st (songs s) p in
  (set_songIndex s (<[models.ID song := p]> (songIndex s)), st).

(** The songs a walk with these formats indexes, in order. *)
Fixpoint indexed_songs (formats : list string) (vs : list Visit) : list models.Song :=
  match vs with
  | [] => []
  | v :: rest =>
      match entry v with
      | EntryFile path size meta =>
          if is_supported formats path
          then models.NewSong meta path size :: indexed_songs formats rest
          else indexed_songs formats rest
      | _ => indexed_songs formats rest
      end
  end.

(** The paths of the files a walk visits, in order. *)
Fixpoint file_paths (vs : list Visit) : list string :=
  match vs with
  | [] => []
  | v :: rest =>
      match entry v with
      | EntryFile path _ _ => path :: file_paths rest
      | _ => file_paths rest
      end
  end.

(** A file whose lower-cased extension is [.mp3]. *)
Definition is_mp3 (path : string) : bool :=
  String.eqb (gostrings.ToLower (filepath.Ext path)) ".mp3".

(** The paths of the songs a slice points to. *)
Definition paths_at (st : Store) (a : loc) : list string :=
  omap (fun p => models.FilePath <$> deref st p) (elems st a).

(** The two stores agree on every location below [n]. *)
Definition agree (n : nat) (st st' : Store) : Prop :=
  (forall p, (p < n)%nat -> objs st' !! p = objs st !! p) /\
  (forall b, (b < n)%nat -> arrays st' !! b = arrays st !! b).

(** The sequence of the scanner lives in the store: its slice and the
    songs it points to are allocated, and no pointer is [nil]. *)
Definition wf (s : MusicScanner) (st : Store) : Prop :=
  (songs s < next st)%nat /\
  forall p, p ∈ elems st (songs s) ->
    (p < next st)%nat /\ exists v, deref st p = Some v.

(** The mapping holds exactly the songs of the sequence, under their
    identifiers, and no identifier occurs twice in the sequence. *)
Definition indexed (s : MusicScanner) (st : Store) : Prop :=
  (forall id p, songIndex s !! id = Some p <->
     p ∈ elems st (songs s) /\ models.ID <$> deref st p = Some id) /\
  NoDup (ids_of st (elems st (songs s))).

(** Only the mapping differs between the two scanner values. *)
Definition same_config (s s' : MusicScanner) : Prop :=
  directory s' = directory s /\ supportedFormats s' = supportedFormats s /\
  songs s' = songs s /\ lastScan s' = lastScan s /\ cacheTTL s' = cacheTTL s.

(** No two files the operation indexes share an identifier. *)
Definition unique_ids (formats : list string) (op : Op) : Prop :=
  NoDup (map models.generateID (indexed_paths formats (op_visits op))).

(** The formats a scanner built from [formats] works with. *)
Definition effective_formats (formats : list string) : list string :=
  supportedFormats (fst (NewMusicScanner EmptyString formats 0 store.empty)).

(** The invariant of a run: the formats are those the scanner was built
    with, the sequence lives in the store, and the mapping indexes it. *)
Definition index_inv (formats : list string) (w : MusicScanner * Store) : Prop :=
  supportedFormats (fst w) = formats /\ wf (fst w) (snd w) /\ indexed (fst w) (snd w).

End index_props.

(** ** Claims as the specification states them, and sample inputs *)

Module stated.

Import store services handlers.

(** Lexical containment of a cleaned absolute path in a cleaned absolute
    root: the root itself or a path below it. *)
Definition within_root (root path : string) : bool :=
  String.eqb path root ||
  gostrings.HasPrefix path (root ++ String filepath.Separator EmptyString).

(** Every range whose completed bounds satisfy [start < 0],
    [end >= size] or [start > end], negative numbers included, is
    answered 416 with [Content-Range: bytes */<size>] and no body. *)
Definition unsatisfiable_range_gives_416 : Prop :=
  forall (h : StreamHandler MusicScanner) (os : OS) (file : list Byte.byte)
         (fileSize : Z) (a b : option Z) (filename : string),
    0 <= fileSize <= strconv.maxInt64 ->
    spec.fits_int64 a -> spec.fits_int64 b ->
    bound_or a 0 < 0 \/ bound_or b (fileSize - 1) >= fileSize \/
      bound_or a 0 > bound_or b (fileSize - 1) ->
    serveRange h os blank file fileSize (range_header a b) filename =
      mkResponse StatusRequestedRangeNotSatisfiable
        [("Content-Range"%string, ("bytes */" ++ strconv.FormatInt fileSize)%string)]
        BodyNone.

(** Every second scan called while the snapshot of the first is younger
    than the TTL returns the same entries and leaves the time of the last
    scan unchanged. *)
Definition scan_within_ttl_is_idempotent : Prop :=
  forall (e1 e2 : ScanEnv) (s : MusicScanner) (st : Store)
         (a1 : nat) (s1 : MusicScanner) (st1 : Store),
    Scan e1 s st = (Ok a1, s1, st1) ->
    gotime.Since (now_rlock e2) (lastScan s1) < cacheTTL s1 ->
    gotime.Since (now_lock e2) (lastScan s1) < cacheTTL s1 ->
    exists a2 s2 st2,
      Scan e2 s1 st1 = (Ok a2, s2, st2) /\
      songs_at st2 a2 = songs_at st1 a1 /\
      lastScan s2 = lastScan s1.

End stated.

Module samples.

Import store services handlers.

Definition meta : models.FileMeta := models.mkFileMeta 5 (Some 3) None.

Definition dir_music : Visit := mkVisit false (EntryDir "/music").
Definition file_a : Visit := mkVisit false (EntryFile "/music/a.mp3" 11 meta).
Definition file_b : Visit := mkVisit false (EntryFile "/music/b.MP3" 7 meta).
Definition file_txt : Visit := mkVisit false (EntryFile "/music/b.txt" 2 meta).

Definition id_a : string := Eval vm_compute in models.generateID "/music/a.mp3".
Definition id_b : string := Eval vm_compute in models.generateID "/music/b.MP3".

(** A walk over a directory with two songs and a text file. *)
Definition walk_ab : WalkEnv := mkWalkEnv false [dir_music; file_a; file_txt; file_b] 100.

(** An empty directory, and the same directory once [a.mp3] is there. *)
Definition walk_empty : WalkEnv := mkWalkEnv false [dir_music] 100.
Definition walk_a : WalkEnv := mkWalkEnv false [dir_music; file_a] 150.

(** The root directory is gone. *)
Definition walk_missing : WalkEnv := mkWalkEnv true [] 200.

(** The walk fails after [a.mp3] with a permission error. *)
Definition walk_denied : WalkEnv :=
  mkWalkEnv false
    [dir_music; file_a; mkVisit false (EntryErr "/music/private" "permission denied");
     file_b] 200.

(** The context is cancelled after [a.mp3]. *)
Definition walk_cancelled : WalkEnv :=
  mkWalkEnv false [dir_music; file_a; mkVisit true (EntryFile "/music/b.MP3" 7 meta)] 200.

Definition fresh : MusicScanner * Store := NewMusicScanner "/music" [".mp3"%string] 5 store.empty.

(** The index after a first scan of [walk_ab]. *)
Definition populated : MusicScanner * Store :=
  let '(_, s, st) := Scan (mkScanEnv 90 95 walk_ab) (fst fresh) (snd fresh) in (s, st).

(** An operating system in which paths are absolute and clean already and
    every path is a regular file of eleven bytes. *)
Definition payload : list Byte.byte :=
  [Byte.x68; Byte.x65; Byte.x6c; Byte.x6c; Byte.x6f; Byte.x20;
   Byte.x77; Byte.x6f; Byte.x72; Byte.x6c; Byte.x64].

Definition os_files : OS :=
  mkOS (fun p => Some p) (fun _ => StatOk false 11) (fun _ => Some payload)
       (fun _ => EmptyString) false.

Definition cfg_music : config.Config :=
  config.mkConfig "/music" [".mp3"%string] 5 (100 * 1024 * 1024).

Definition handler : StreamHandler MusicScanner :=
  NewStreamHandler os_files (fst fresh) cfg_music.

(** A scanner over the sibling directory [/music2], handed to a handler
    whose root is [/music]. *)
Definition walk_sibling : WalkEnv :=
  mkWalkEnv false
    [mkVisit false (EntryDir "/music2");
     mkVisit false (EntryFile "/music2/secret.mp3" 11 meta)] 100.

Definition sibling : MusicScanner * Store :=
  NewMusicScanner "/music2" [".mp3"%string] 5 store.empty.

Definition sibling_handler : StreamHandler MusicScanner :=
  NewStreamHandler os_files (fst sibling) cfg_music.

Definition id_secret : string := Eval vm_compute in models.generateID "/music2/secret.mp3".

(** The caller's write [song.FilePath = path] through a pointer. *)
Definition with_FilePath (v : models.Song) (path : string) : models.Song :=
  models.mkSong (models.ID v) (models.Title v) (models.Artist v) (models.Album v)
    (models.Duration v) path (models.FileName v) (models.FileSize v)
    (models.AddedAt v) (models.Format v).

Definition retarget (st : Store) (p : nat) (path : string) : Store :=
  match deref st p with
  | Some v => write_song st p (with_FilePath v path)
  | None => st
  end.

(** The slice a successful scan returns. *)
Definition returned (r : result nat) : option nat :=
  match r with
  | Ok a => Some a
  | Err _ => None
  end.

(** The first pointer of a slice. *)
Definition first_of (st : Store) (a : option nat) : nat :=
  match a with
  | Some a => match elems st a with p :: _ => p | [] => nilptr end
  | None => nilptr
  end.

(** The paths of the songs of a returned slice. *)
Definition returned_paths (st : Store) (a : option nat) : option (list string) :=
  match a with
  | Some a => Some (index_props.paths_at st a)
  | None => None
  end.

(** The runs used as examples of the index at work. *)
Definition ops_example : list Op :=
  [OpScan (mkScanEnv 90 95 walk_ab); OpGetSongs; OpRefresh walk_denied;
   OpGetSongByID id_a; OpScan (mkScanEnv 300 301 walk_a); OpRefresh walk_missing;
   OpGetSongCount].

(** A scanner built without formats, after the example run, and a walk
    from that state. *)
Definition after_run : MusicScanner * Store :=
  run ops_example (NewMusicScanner "/music" [] 5 store.empty).

Definition rescan : result nat * MusicScanner * Store :=
  scanInternal walk_ab (fst after_run) (snd after_run).

Definition rescan_slice : nat :=
  match returned (fst (fst rescan)) with
  | Some a => a
  | None => nilptr
  end.

End samples.

(** ** Callers of the index and further notions *)

Module caller.

Import store services.

(** What a caller does to a collection it was handed: [ret[i] = p], or a
    write [*ret[i] = v] through the [i]-th pointer it was handed.  Out of
    range, or through [nil], the Go program panics and nothing is
    written. *)
Inductive Mutation :=
| SetElem (i : nat) (p : nat)
| WriteSong (i : nat) (v : models.Song).

Definition mutate (ret : nat) (held : list nat) (m : Mutation) (st : Store) : Store :=
  match m with
  | SetElem i p => if (i <? length (elems st ret))%nat then set_elem st ret i p else st
  | WriteSong i v =>
      match held !! i with
      | Some p => if (p =? nilptr)%nat then st else write_song st p v
      | None => st
      end
  end.

Definition mutations (ret : nat) (held : list nat) (ms : list Mutation) (st : Store)
    : Store :=
  fold_left (fun st m => mutate ret held m st) ms st.

(** A write through the pointer [GetSongByID] returned. *)
Definition write_through (p : nat) (v : models.Song) (st : Store) : Store :=
  if (p =? nilptr)%nat then st else write_song st p v.

(** Every pointer of the mapping is a pointer of the sequence. *)
Definition index_sound (s : MusicScanner) (st : Store) : Prop :=
  forall id p, songIndex s !! id = Some p -> p ∈ elems st (songs s).

(** The error of the first visit that fails, if one does. *)
Fixpoint first_failure (vs : list Visit) : option WalkErr :=
  match vs with
  | [] => None
  | v :: rest =>
      if ctx_done v then Some ContextErr
      else match entry v with
           | EntryErr _ msg => Some (FsErr msg)
           | _ => first_failure rest
           end
  end.

End caller.

(** ** Further notions for the range streaming engine *)

Module stream_props.

Import handlers.

(** The number of dashes of a string. *)
Fixpoint dashes (s : string) : nat :=
  match s with
  | EmptyString => 0%nat
  | String c cs => ((if Ascii.eqb c "-" then 1 else 0) + dashes cs)%nat
  end.

(** A character that is no part of a decimal number: neither a digit
    nor a sign. *)
Definition junk (c : ascii) : bool :=
  match strconv.digit_val c with
  | Some _ => false
  | None => negb (Ascii.eqb c "+") && negb (Ascii.eqb c "-")
  end.

Definition has_junk (s : string) : bool := existsb junk (list_ascii_of_string s).

(** The bytes a response carries. *)
Definition sent (r : Response) : option (list Byte.byte) :=
  match body r with
  | BodyBytes data => Some data
  | _ => None
  end.

(** The parts of what [StreamAudio] returns. *)
Definition response_of {T : Type} (x : Response * list Effect * StreamHandler T * store.Store)
    : Response := fst (fst (fst x)).

Definition effects_of {T : Type} (x : Response * list Effect * StreamHandler T * store.Store)
    : list Effect := snd (fst (fst x)).

Definition store_of {T : Type} (x : Response * list Effect * StreamHandler T * store.Store)
    : store.Store := snd x.

(** The handler with the scanner as a scan left it. *)
Definition with_scanner {T : Type} (h : StreamHandler T) (sc : T) : StreamHandler T :=
  mkStreamHandler sc (musicDir h) (musicDirAbs h) (maxRangeSize h).

End stream_props.

(** ** Further notions for package [models] *)

Module song_props.

(** A path that names a file: it is not empty and does not end with a
    separator.  The paths [filepath.Walk] hands to its callback for files
    are of this kind. *)
Definition names_file (path : string) : bool :=
  match String.get (String.length path - 1) path with
  | Some c => negb (filepath.IsPathSeparator c)
  | None => false
  end.

(** The song was built without a title tag. *)
Definition no_title_tag (env : models.FileMeta) : bool :=
  match models.read_tags env with
  | Some metadata =>
      match models.tag_title metadata with
      | EmptyString => true
      | _ => false
      end
  | None => true
  end.

End song_props.

(** ** Package [handlers]: the playlist handler *)

Module playlist.

Import store services handlers.

(** What [c.JSON] is given: an error, the object with [total] and
    [songs] (a [nil] pointer of the slice is encoded as [null]), or the
    song behind a pointer. *)
Inductive Payload :=
| PayloadError (e : APIError)
| PayloadList (total : Z) (songs : list (option models.Song))
| PayloadSong (song : option models.Song).

Record Reply := mkReply {
  code : Z;
  payload : Payload
}.

Record PlaylistHandler (T : Type) := mkPlaylistHandler {
  scanner : T
}.
Arguments mkPlaylistHandler {T}.
Arguments scanner {T}.

Definition NewPlaylistHandler {T : Type} (scanner : T) : PlaylistHandler T :=
  mkPlaylistHandler scanner.

Definition GetAllSongs {T : Type} `{Scanner T} (h : PlaylistHandler T) (os : OS)
    (ctx : ScanEnv) (st : Store) : Reply * PlaylistHandler T * Store :=
  let '(r, sc, st) := Scanner_Scan ctx (scanner h) st in
  let h := mkPlaylistHandler sc in
  match r with
  | Err e =>
      (mkReply StatusInternalServerError
         (PayloadError (NewInternalError (production os) (ScanErr e))), h, st)
  | Ok songs => (mkReply StatusOK (PayloadList (len st songs) (songs_at st songs)), h, st)
  end.

Definition GetSongByID {T : Type} `{Scanner T} (h : PlaylistHandler T) (os : OS)
    (id : string) (ctx : ScanEnv) (st : Store) : Reply * PlaylistHandler T * Store :=
  if negb (regexp.MatchString models.ValidIDPattern id) then
    (mkReply StatusBadRequest (PayloadError (NewBadRequestError "无效的歌曲 ID 格式")), h, st)
  else
    let '(r, sc, st) := Scanner_Scan ctx (scanner h) st in
    let h := mkPlaylistHandler sc in
    match r with
    | Err e =>
        (mkReply StatusInternalServerError
           (PayloadError (NewInternalError (production os) (ScanErr e))), h, st)
    | Ok _ =>
        let '(song, st) := Scanner_GetSongByID id (scanner h) st in
        if (song =? nilptr)%nat then
          (mkReply StatusNotFound (PayloadError (NewNotFoundError "歌曲")), h, st)
        else (mkReply StatusOK (PayloadSong (deref st song)), h, st)
    end.

End playlist.

(** ** Package [config]: loading, validation and overrides *)

Module configfile.

Definition DefaultMaxRangeSize : Z := 100 * 1024 * 1024.
Definition DefaultCacheTTLMinutes : Z := 5.
Definition DefaultServerHost : string := "0.0.0.0".
Definition DefaultServerPort : Z := 8080.
Definition MaxAllowedRangeSize : Z := 500 * 1024 * 1024.
Definition MaxAllowedCacheTTL : Z := 1440.

(** [Config] with its [Server] and [Music] parts. *)
Record Config := mkConfig {
  Server_Host : string;
  Server_Port : Z;
  Server_MaxRangeSize : Z;
  Music_Directory : string;
  Music_SupportedFormats : list string;
  Music_CacheTTLMinutes : Z
}.

(** The surroundings of [Load]: the environment variables, the file
    system, and the library functions [filepath.Abs], [filepath.Join],
    [os.UserHomeDir], [os.ReadFile] and [json.Unmarshal] (into a zero
    [Config]). *)
Record Env := mkEnv {
  Getenv : string -> string;
  Abs : string -> option string;
  Join : string -> string -> string;
  Stat : string -> handlers.FileInfo;
  UserHomeDir : string;
  ReadFile : string -> option string;
  Unmarshal : string -> option Config
}.

(** [filepath.IsAbs] on a Unix system. *)
Definition IsAbs (path : string) : bool := gostrings.HasPrefix path "/".

(** [strconv.Atoi] where [int] has 64 bits. *)
Definition Atoi (s : string) : option Z := strconv.ParseInt s.

Definition default_formats : list string :=
  [".mp3"; ".flac"; ".wav"; ".m4a"; ".ogg"]%string.

Definition GetDefaultConfig (env : Env) : Config :=
  let homeDir := UserHomeDir env in
  let musicDir := Join env homeDir "Music" in
  let musicDir :=
    match Stat env musicDir with
    | handlers.StatNotExist =>
        match Abs env "./music" with
        | Some p => p
        | None => EmptyString
        end
    | _ => musicDir
    end in
  mkConfig DefaultServerHost DefaultServerPort DefaultMaxRangeSize
           musicDir default_formats DefaultCacheTTLMinutes.

Inductive ConfigError :=
| PortOutOfRange (port : Z)
| MaxRangeSizeOutOfRange (size : Z)
| CacheTTLOutOfRange (ttl : Z)
| DirectoryNotAccessible (dir : string).

Definition validateConfig (env : Env) (cfg : Config) : option ConfigError :=
  if (Server_Port cfg <? 1) || (65535 <? Server_Port cfg) then
    Some (PortOutOfRange (Server_Port cfg))
  else if (Server_MaxRangeSize cfg <? 0) || (MaxAllowedRangeSize <? Server_MaxRangeSize cfg) then
    Some (MaxRangeSizeOutOfRange (Server_MaxRangeSize cfg))
  else if (Music_CacheTTLMinutes cfg <? 0) || (MaxAllowedCacheTTL <? Music_CacheTTLMinutes cfg) then
    Some (CacheTTLOutOfRange (Music_CacheTTLMinutes cfg))
  else
    match Stat env (Music_Directory cfg) with
    | handlers.StatOk _ _ => None
    | _ => Some (DirectoryNotAccessible (Music_Directory cfg))
    end.

Definition set_Host (cfg : Config) (host : string) : Config :=
  mkConfig host (Server_Port cfg) (Server_MaxRangeSize cfg) (Music_Directory cfg)
           (Music_SupportedFormats cfg) (Music_CacheTTLMinutes cfg).

Definition set_Port (cfg : Config) (port : Z) : Config :=
  mkConfig (Server_Host cfg) port (Server_MaxRangeSize cfg) (Music_Directory cfg)
           (Music_SupportedFormats cfg) (Music_CacheTTLMinutes cfg).

Definition set_MaxRangeSize (cfg : Config) (size : Z) : Config :=
  mkConfig (Server_Host cfg) (Server_Port cfg) size (Music_Directory cfg)
           (Music_SupportedFormats cfg) (Music_CacheTTLMinutes cfg).

Definition set_Directory (cfg : Config) (dir : string) : Config :=
  mkConfig (Server_Host cfg) (Server_Port cfg) (Server_MaxRangeSize cfg) dir
           (Music_SupportedFormats cfg) (Music_CacheTTLMinutes cfg).

Definition set_SupportedFormats (cfg : Config) (formats : list string) : Config :=
  mkConfig (Server_Host cfg) (Server_Port cfg) (Server_MaxRangeSize cfg) (Music_Directory cfg)
           formats (Music_CacheTTLMinutes cfg).

Definition set_CacheTTLMinutes (cfg : Config) (ttl : Z) : Config :=
  mkConfig (Server_Host cfg) (Server_Port cfg) (Server_MaxRangeSize cfg) (Music_Directory cfg)
           (Music_SupportedFormats cfg) ttl.

(** A directory made absolute when it is relative and [filepath.Abs]
    succeeds. *)
Definition absolute (env : Env) (dir : string) : string :=
  if negb (IsAbs dir) then
    match Abs env dir with
    | Some absPath => absPath
    | None => dir
    end
  else dir.

Definition applyEnvOverrides (env : Env) (cfg : Config) : Config :=
  let cfg :=
    match Getenv env "ZERO_MUSIC_SERVER_HOST" with
    | EmptyString => cfg
    | host => set_Host cfg host
    end in
  let cfg :=
    match Getenv env "ZERO_MUSIC_SERVER_PORT" with
    | EmptyString => cfg
    | port =>
        match Atoi port with
        | Some p => if (0 <? p) && (p <=? 65535) then set_Port cfg p else cfg
        | None => cfg
        end
    end in
  let cfg :=
    match Getenv env "ZERO_MUSIC_MAX_RANGE_SIZE" with
    | EmptyString => cfg
    | maxRange =>
        match strconv.ParseInt maxRange with
        | Some size =>
            if (0 <? size) && (size <=? MaxAllowedRangeSize) then set_MaxRangeSize cfg size
            else cfg
        | None => cfg
        end
    end in
  let cfg :=
    match Getenv env "ZERO_MUSIC_MUSIC_DIRECTORY" with
    | EmptyString => cfg
    | musicDir => set_Directory cfg (absolute env musicDir)
    end in
  match Getenv env "ZERO_MUSIC_CACHE_TTL_MINUTES" with
  | EmptyString => cfg
  | cacheTTL =>
      match Atoi cacheTTL with
      | Some ttl =>
          if (0 <? ttl) && (ttl <=? MaxAllowedCacheTTL) then set_CacheTTLMinutes cfg ttl
          else cfg
      | None => cfg
      end
  end.

Inductive LoadError :=
| ReadError
| ParseError
| ValidationError (e : ConfigError).

Inductive loaded :=
| Loaded (cfg : Config)
| Failed (e : LoadError).

Definition Load (env : Env) (configPath : string) : loaded :=
  match configPath with
  | EmptyString => Loaded (GetDefaultConfig env)
  | _ =>
      match ReadFile env configPath with
      | None => Failed ReadError
      | Some data =>
          match Unmarshal env data with
          | None => Failed ParseError
          | Some cfg =>
              let cfg :=
                if (length (Music_SupportedFormats cfg) =? 0)%nat
                then set_SupportedFormats cfg default_formats else cfg in
              let cfg :=
                if Music_CacheTTLMinutes cfg =? 0
                then set_CacheTTLMinutes cfg DefaultCacheTTLMinutes else cfg in
              let cfg :=
                if Server_MaxRangeSize cfg =? 0
                then set_MaxRangeSize cfg DefaultMaxRangeSize else cfg in
              match validateConfig env cfg with
              | Some e => Failed (ValidationError e)
              | None =>
                  let cfg := set_Directory cfg (absolute env (Music_Directory cfg)) in
                  Loaded (applyEnvOverrides env cfg)
              end
          end
      end
  end.

(** *** The providers of the application *)

(** [ProvideConfig]: the default configuration when loading fails. *)
Definition ProvideConfig (env : Env) (configPath : string) : Config :=
  match Load env configPath with
  | Loaded cfg => cfg
  | Failed _ => GetDefaultConfig env
  end.

Definition ProvideScanner (cfg : Config) (st : store.Store)
    : services.MusicScanner * store.Store :=
  services.NewMusicScanner (Music_Directory cfg) (Music_SupportedFormats cfg)
    (Music_CacheTTLMinutes cfg) st.

(** The fields of the configuration the stream handler reads. *)
Definition handler_config (cfg : Config) : config.Config :=
  config.mkConfig (Music_Directory cfg) (Music_SupportedFormats cfg)
    (Music_CacheTTLMinutes cfg) (Server_MaxRangeSize cfg).

Definition ProvideStreamHandler {T : Type} (os : handlers.OS) (scanner : T) (cfg : Config)
    : handlers.StreamHandler T :=
  handlers.NewStreamHandler os scanner (handler_config cfg).

(** The numbers of a configuration are within the limits the package
    sets, none of them zero, and there is a format. *)
Definition within_limits (cfg : Config) : Prop :=
  1 <= Server_Port cfg <= 65535 /\
  1 <= Server_MaxRangeSize cfg <= MaxAllowedRangeSize /\
  1 <= Music_CacheTTLMinutes cfg <= MaxAllowedCacheTTL /\
  Music_SupportedFormats cfg <> [].

End configfile.

(** ** Package [middleware]: the request identifier *)

Module middleware.

Definition RequestIDHeader : string := "X-Request-ID".
Definition RequestIDKey : string := "request_id".
Definition RequestIDByteLength : nat := 16.

(** What [generateRequestID] reads: the bytes [crypto/rand.Read] writes
    into the buffer, byte by byte, unless it fails, and the text of
    [time.Now().String()]. *)
Record Sources := mkSources {
  rand_Read : option (nat -> Byte.byte);
  now_String : string
}.

Definition byte_val (b : Byte.byte) : Z := Z.of_N (Byte.to_N b).

(** [s[:n]]; the Go program panics when [s] is shorter. *)
Definition slice_to (n : nat) (s : string) : option string :=
  if (n <=? String.length s)%nat then Some (gostrings.take n s) else None.

Definition generateRequestID (src : Sources) : option string :=
  match rand_Read src with
  | Some b =>
      Some (hex.EncodeToString (map (fun i => byte_val (b i)) (seq 0 RequestIDByteLength)))
  | None => slice_to 32 (hex.EncodeToString (bytes_of_string (now_String src)))
  end.

(** A value stored in the keys of a [gin.Context]. *)
Inductive Value :=
| VString (s : string)
| VOther.

Record Context := mkContext {
  request_headers : list (string * string);
  keys : gmap string Value;
  writer : handlers.Response
}.

Definition GetHeader (c : Context) (key : string) : string :=
  match handlers.get_header key (request_headers c) with
  | Some v => v
  | None => EmptyString
  end.

Definition Set_key (key : string) (v : Value) (c : Context) : Context :=
  mkContext (request_headers c) (<[key := v]> (keys c)) (writer c).

Definition Header (key value : string) (c : Context) : Context :=
  mkContext (request_headers c) (keys c) (handlers.Header key value (writer c)).

Inductive Level :=
| LevelInfo
| LevelWarn
| LevelError.

(** A log entry: its level, the request identifier it carries and its
    message (the other fields are left out). *)
Record LogEntry := mkLogEntry {
  level : Level;
  request_id : string;
  message : string
}.

(** The middleware around the rest of the chain [next]; [None] stands
    for a panic of [generateRequestID]. *)
Definition RequestID (src : Sources) (next : Context -> Context) (c : Context)
    : option (Context * list LogEntry) :=
  let requestID := GetHeader c RequestIDHeader in
  let generated :=
    match requestID with
    | EmptyString => generateRequestID src
    | _ => Some requestID
    end in
  match generated with
  | None => None
  | Some requestID =>
      let c := Set_key RequestIDKey (VString requestID) c in
      let c := Header RequestIDHeader requestID c in
      let started := mkLogEntry LevelInfo requestID "请求开始" in
      let c := next c in
      let status := handlers.status (writer c) in
      let finished :=
        if 500 <=? status then mkLogEntry LevelError requestID "请求完成（服务器错误）"
        else if 400 <=? status then mkLogEntry LevelWarn requestID "请求完成（客户端错误）"
        else mkLogEntry LevelInfo requestID "请求完成" in
      Some (c, [started; finished])
  end.

Definition GetRequestID (c : Context) : string :=
  match keys c !! RequestIDKey with
  | Some (VString id) => id
  | _ => EmptyString
  end.

End middleware.

(** ** Further sample inputs *)

Module cases.

Import store services handlers samples.

(** The first walk of a new scanner. *)
Definition first_scan : result nat * MusicScanner * Store :=
  scanInternal walk_ab (fst fresh) (snd fresh).

(** A refresh of the populated index after [b.MP3] and the text file
    are gone. *)
Definition refreshed : option ScanError * MusicScanner * Store :=
  Refresh walk_a (fst populated) (snd populated).

(** A scan of the populated index long after its TTL of five minutes
    has elapsed, when only [a.mp3] is left; and such a scan when the root
    is gone. *)
Definition scan_later : ScanEnv := mkScanEnv 400000000000 400000000001 walk_a.

Definition scan_later_missing : ScanEnv :=
  mkScanEnv 400000000000 400000000001 walk_missing.

Definition rescanned : result nat * MusicScanner * Store :=
  Scan scan_later (fst populated) (snd populated).

Definition rescanned_slice : nat :=
  match returned (fst (fst rescanned)) with
  | Some a => a
  | None => nilptr
  end.

(** The stream handler over the populated index. *)
Definition populated_handler : StreamHandler MusicScanner :=
  NewStreamHandler os_files (fst populated) cfg_music.

(** A well-formed identifier that no file has. *)
Definition id_none : string := "00000000000000000000000000000000".

Definition scan_ab : ScanEnv := mkScanEnv 90 95 walk_ab.

Definition request (id range : string) : Request := mkRequest id range scan_ab.

(** A scanner over [/srv/media], handed to a handler whose root is
    [/music]. *)
Definition walk_outside : WalkEnv :=
  mkWalkEnv false
    [mkVisit false (EntryDir "/srv/media");
     mkVisit false (EntryFile "/srv/media/x.mp3" 11 meta)] 100.

Definition outside : MusicScanner * Store :=
  NewMusicScanner "/srv/media" [".mp3"%string] 5 store.empty.

Definition outside_handler : StreamHandler MusicScanner :=
  NewStreamHandler os_files (fst outside) cfg_music.

Definition id_x : string := Eval vm_compute in models.generateID "/srv/media/x.mp3".

Definition outside_scanned : result nat * MusicScanner * Store :=
  Scan (mkScanEnv 90 95 walk_outside) (fst outside) (snd outside).

(** An operating system in which every path is a directory. *)
Definition os_dirs : OS :=
  mkOS (fun p => Some p) (fun _ => StatOk true 0) (fun _ => None)
       (fun _ => EmptyString) false.

Definition dir_handler : StreamHandler MusicScanner :=
  NewStreamHandler os_dirs (fst fresh) cfg_music.

(** A file of 200 MiB. *)
Definition large_size : Z := 200 * 1024 * 1024.

(** An environment that sets the port and an oversized range limit, and
    the configuration file it overrides. *)
Definition env_port : configfile.Env :=
  configfile.mkEnv
    (fun name =>
       if String.eqb name "ZERO_MUSIC_SERVER_PORT" then "9090"
       else if String.eqb name "ZERO_MUSIC_MAX_RANGE_SIZE" then "999999999999"
       else EmptyString)%string
    (fun p => Some p)
    (fun a b => (a ++ "/" ++ b)%string)
    (fun _ => StatOk true 0)
    "/home/user"
    (fun _ => None)
    (fun _ => None).

Definition cfg_file : configfile.Config :=
  configfile.mkConfig "127.0.0.1" 8000 1024 "/music" [".mp3"%string] 10.

(** A random source that works, a request without identifier, and the
    rest of the chain answering 404. *)
Definition random_source : middleware.Sources :=
  middleware.mkSources (Some (fun i => Byte.xa7)) "2024-01-01 00:00:00 +0000 UTC".

Definition incoming : middleware.Context := middleware.mkContext [] ∅ blank.

Definition not_found (c : middleware.Context) : middleware.Context :=
  middleware.mkContext (middleware.request_headers c) (middleware.keys c)
    (Status StatusNotFound (middleware.writer c)).

End cases.

(** * Properties *)

(** ** Strings, numbers and digests *)

Module lib_facts.

Import gostrings strconv spec.

Lemma app_cons x (a b : string) : (String x a ++ b)%string = String x (a ++ b)%string.
Proof. reflexivity. Qed.

Lemma app_nil (b : string) : (EmptyString ++ b)%string = b.
Proof. reflexivity. Qed.

Lemma string_app_assoc (a b c : string) : ((a ++ b) ++ c = a ++ (b ++ c))%string.
Proof. induction a as [|x a IH]; [reflexivity | now rewrite !app_cons, IH]. Qed.

Lemma string_app_length (a b : string) :
  String.length (a ++ b) = (String.length a + String.length b)%nat.
Proof. induction a as [|x a IH]; [reflexivity | rewrite app_cons; simpl; now rewrite IH]. Qed.

Lemma Split_no_sep sep s : no_sep sep s = true -> Split s sep = [s].
Proof.
  induction s as [|c cs IH]; simpl; intros Hs; [reflexivity|].
  apply andb_true_iff in Hs as [Hc Hcs].
  apply negb_true_iff in Hc. rewrite Hc, (IH Hcs). reflexivity.
Qed.

Lemma Split_app sep a b :
  no_sep sep a = true -> Split (a ++ String sep b) sep = a :: Split b sep.
Proof.
  induction a as [|c cs IH]; rewrite ?app_cons, ?app_nil; simpl; intros Ha.
  - now rewrite Ascii.eqb_refl.
  - apply andb_true_iff in Ha as [Hc Hcs].
    apply negb_true_iff in Hc. rewrite Hc, (IH Hcs). reflexivity.
Qed.

Lemma Split_nonempty sep s : Split s sep <> [].
Proof.
  destruct s as [|c cs]; simpl; [discriminate|].
  destruct (Ascii.eqb c sep); [discriminate|].
  destruct (Split cs sep); discriminate.
Qed.

Lemma digit_not_sign c d :
  digit_val c = Some d -> Ascii.eqb c "-" = false /\ Ascii.eqb c "+" = false.
Proof.
  destruct c as [[] [] [] [] [] [] [] []]; vm_compute; intros E;
    try discriminate E; split; reflexivity.
Qed.

Lemma all_digits_no_dash s : all_digits s = true -> no_sep "-" s = true.
Proof.
  induction s as [|c cs IH]; simpl; [reflexivity|].
  destruct (digit_val c) as [d|] eqn:E; [|discriminate].
  intros Hcs. destruct (digit_not_sign _ _ E) as [-> _]. simpl. auto.
Qed.

Lemma all_digits_app a b :
  all_digits a = true -> all_digits b = true -> all_digits (a ++ b) = true.
Proof.
  induction a as [|c cs IH]; rewrite ?app_cons, ?app_nil; simpl; [auto|].
  destruct (digit_val c); [auto | discriminate].
Qed.

Lemma digit_val_char d : 0 <= d <= 9 -> digit_val (digit_char d) = Some d.
Proof.
  intros Hd.
  assert (d = 0 \/ d = 1 \/ d = 2 \/ d = 3 \/ d = 4 \/ d = 5 \/ d = 6 \/ d = 7 \/
          d = 8 \/ d = 9) as Hcases by lia.
  repeat (destruct Hcases as [-> | Hcases]; [reflexivity|]). now subst.
Qed.

Lemma parse_digits_app a b acc :
  parse_digits (a ++ b) acc =
  match parse_digits a acc with
  | Some v => parse_digits b v
  | None => None
  end.
Proof.
  revert acc. induction a as [|c cs IH]; rewrite ?app_cons, ?app_nil; simpl; intros acc;
    [reflexivity|].
  destruct (digit_val c); [apply IH | reflexivity].
Qed.

Lemma format_digits_parse fuel n :
  0 <= n < 2 ^ Z.of_nat (S fuel) -> parse_digits (format_digits fuel n) 0 = Some n.
Proof.
  revert n. induction fuel as [|f IH]; intros n Hn.
  - change (2 ^ Z.of_nat 1) with 2 in Hn. cbn [format_digits parse_digits].
    rewrite Z.mod_small by lia. rewrite digit_val_char by lia. f_equal; lia.
  - cbn [format_digits]. destruct (n <? 10) eqn:E.
    + apply Z.ltb_lt in E. cbn [parse_digits]. rewrite digit_val_char by lia. f_equal; lia.
    + apply Z.ltb_ge in E. rewrite parse_digits_app, IH.
      * cbn [parse_digits].
        rewrite digit_val_char by (pose proof (Z.mod_pos_bound n 10); lia).
        f_equal. pose proof (Z.div_mod n 10 ltac:(lia)). lia.
      * rewrite Nat2Z.inj_succ, Z.pow_succ_r in Hn by lia.
        split; [apply Z.div_pos; lia|].
        apply Z.div_lt_upper_bound; lia.
Qed.

Lemma format_digits_all_digits fuel n :
  0 <= n < 2 ^ Z.of_nat (S fuel) -> all_digits (format_digits fuel n) = true.
Proof.
  revert n. induction fuel as [|f IH]; intros n Hn.
  - change (2 ^ Z.of_nat 1) with 2 in Hn. cbn [format_digits all_digits].
    rewrite Z.mod_small by lia. now rewrite digit_val_char by lia.
  - cbn [format_digits]. destruct (n <? 10) eqn:E.
    + apply Z.ltb_lt in E. cbn [all_digits]. now rewrite digit_val_char by lia.
    + apply Z.ltb_ge in E. apply all_digits_app.
      * apply IH. rewrite Nat2Z.inj_succ, Z.pow_succ_r in Hn by lia.
        split; [apply Z.div_pos; lia|].
        apply Z.div_lt_upper_bound; lia.
      * cbn [all_digits].
        now rewrite digit_val_char by (pose proof (Z.mod_pos_bound n 10); lia).
Qed.

Lemma format_digits_nonempty fuel n : format_digits fuel n <> EmptyString.
Proof.
  destruct fuel as [|f]; simpl; [discriminate|].
  destruct (n <? 10); [discriminate|].
  destruct (format_digits f (n / 10)); rewrite ?app_cons, ?app_nil; discriminate.
Qed.

Lemma log2_fuel n : 0 <= n -> n < 2 ^ Z.of_nat (S (Z.to_nat (Z.log2 n))).
Proof.
  intros Hn. rewrite Nat2Z.inj_succ, Z2Nat.id by apply Z.log2_nonneg.
  destruct (Z.eq_dec n 0) as [-> | Hne]; [reflexivity|].
  apply Z.log2_spec. lia.
Qed.

Lemma FormatInt_nonneg n : 0 <= n -> FormatInt n = format_digits (Z.to_nat (Z.log2 n)) n.
Proof. intros Hn. unfold FormatInt. now rewrite (proj2 (Z.ltb_ge n 0)). Qed.

Lemma FormatInt_all_digits n : 0 <= n -> all_digits (FormatInt n) = true.
Proof.
  intros Hn. rewrite FormatInt_nonneg by assumption.
  apply format_digits_all_digits. split; [assumption | now apply log2_fuel].
Qed.

Lemma FormatInt_nonempty n : FormatInt n <> EmptyString.
Proof.
  unfold FormatInt. destruct (n <? 0); [discriminate | apply format_digits_nonempty].
Qed.

(** Printing a number that fits an [int64] and parsing it back. *)
Lemma ParseInt_FormatInt n : 0 <= n <= maxInt64 -> ParseInt (FormatInt n) = Some n.
Proof.
  intros Hn. pose proof (FormatInt_all_digits n (proj1 Hn)) as Hd.
  pose proof (FormatInt_nonempty n) as Hne.
  assert (parse_digits (FormatInt n) 0 = Some n) as Hp.
  { rewrite FormatInt_nonneg by lia. apply format_digits_parse.
    split; [lia | apply log2_fuel; lia]. }
  unfold ParseInt. destruct (FormatInt n) as [|c cs] eqn:E; [congruence|].
  simpl in Hd. destruct (digit_val c) as [d|] eqn:Ed; [|discriminate].
  destruct (digit_not_sign _ _ Ed) as [-> ->]. simpl orb. cbv iota.
  unfold ParseUint. rewrite Hp.
  unfold maxInt64, maxUint64 in *.
  rewrite (proj2 (Z.leb_le n _)) by lia.
  simpl negb. simpl andb.
  rewrite (proj2 (Z.leb_gt _ n)) by lia. reflexivity.
Qed.

Lemma wrap64_small x : minInt64 <= x <= maxInt64 -> wrap64 x = x.
Proof.
  unfold wrap64, minInt64, maxInt64. intros Hx.
  rewrite Z.mod_small by lia. lia.
Qed.

End lib_facts.

(** ** The content identifier *)

Module id_facts.

Import spec.

Lemma be_bytes_length n x : length (sha256.be_bytes n x) = n.
Proof. unfold sha256.be_bytes. now rewrite length_map, length_rev, length_seq. Qed.

Lemma be_bytes_range n x : Forall is_byte (sha256.be_bytes n x).
Proof.
  unfold sha256.be_bytes. apply Forall_forall. intros b Hb.
  apply list_elem_of_In, in_map_iff in Hb as (i & <- & _). unfold is_byte.
  change 255 with (Z.ones 8). rewrite Z.land_ones by lia.
  apply Z.mod_pos_bound. lia.
Qed.

Lemma Sum256_length data : length (sha256.Sum256 data) = 32%nat.
Proof.
  unfold sha256.Sum256, sha256.digest. cbn [flat_map].
  rewrite !length_app, !be_bytes_length. reflexivity.
Qed.

Lemma Sum256_bytes data : Forall is_byte (sha256.Sum256 data).
Proof.
  unfold sha256.Sum256, sha256.digest. cbn [flat_map].
  repeat (apply Forall_app; split; [apply be_bytes_range|]). constructor.
Qed.

Lemma hex_digit_lower x : is_lower_hex (hex.hex_digit (Z.land x 15)) = true.
Proof.
  change 15 with (Z.ones 4). rewrite Z.land_ones by lia.
  pose proof (Z.mod_pos_bound x (2 ^ 4) eq_refl) as Hb.
  change (2 ^ 4) with 16 in *.
  remember (x mod 16) as v eqn:Hv. clear Hv.
  assert (v = 0 \/ v = 1 \/ v = 2 \/ v = 3 \/ v = 4 \/ v = 5 \/ v = 6 \/ v = 7 \/
          v = 8 \/ v = 9 \/ v = 10 \/ v = 11 \/ v = 12 \/ v = 13 \/ v = 14 \/ v = 15)
    as Hcases by lia.
  repeat (destruct Hcases as [-> | Hcases]; [reflexivity|]). now subst.
Qed.

Lemma EncodeToString_length src :
  String.length (hex.EncodeToString src) = (2 * length src)%nat.
Proof. induction src as [|b bs IH]; simpl; [reflexivity | rewrite IH; lia]. Qed.

Lemma EncodeToString_lower src :
  Forall (fun c => is_lower_hex c = true) (list_ascii_of_string (hex.EncodeToString src)).
Proof.
  induction src as [|b bs IH]; simpl; [constructor|].
  constructor; [apply hex_digit_lower|]. constructor; [apply hex_digit_lower | exact IH].
Qed.

Lemma in_class_hex c :
  regexp.in_class (regexp.class_ranges models.ValidIDPattern) c = is_lower_hex c.
Proof. destruct c as [[] [] [] [] [] [] [] []]; reflexivity. Qed.

Lemma match_here_end ranges n s :
  regexp.match_here ranges n true s = true <->
  String.length s = n /\
  Forall (fun c => regexp.in_class ranges c = true) (list_ascii_of_string s).
Proof.
  revert s. induction n as [|k IH]; intros s; simpl.
  - destruct s; simpl; split.
    + intros _. split; [reflexivity | constructor].
    + reflexivity.
    + discriminate.
    + intros [Hlen _]. discriminate.
  - destruct s as [|c cs]; simpl.
    + split; [discriminate | intros [Hlen _]; discriminate].
    + rewrite andb_true_iff, IH. split.
      * intros (Hc & Hlen & Hall). split; [now f_equal | now constructor].
      * intros (Hlen & Hall). inversion Hall; subst. auto.
Qed.

(** The pattern [ValidIDPattern] accepts exactly the identifier format. *)
Lemma MatchString_id_format s :
  regexp.MatchString models.ValidIDPattern s = true <-> is_id_format s.
Proof.
  unfold regexp.MatchString. cbn [regexp.anchor_begin models.ValidIDPattern
    regexp.count regexp.anchor_end].
  rewrite match_here_end. unfold is_id_format.
  split; intros [Hlen Hall]; (split; [exact Hlen|]);
    eapply Forall_impl; try exact Hall; intros c Hc; simpl in Hc;
    [rewrite <- in_class_hex | rewrite in_class_hex]; exact Hc.
Qed.

(** C8.  For every file path [p] the identifier [generateID p] is the
    lowercase hexadecimal form of the first 16 bytes of the SHA-256 digest
    of [p]: a string of 32 lowercase hexadecimal characters, which the
    identifier pattern accepts.  It is a function of the path alone: the
    song [NewSong] builds for [p] carries it whatever the clock, the file
    size and the tags are, so every call with the same [p] gives the same
    string. *)
Theorem generateID_stable_hex32 (p : string) :
  models.generateID p =
    hex.EncodeToString (firstn 16 (sha256.Sum256 (bytes_of_string p))) /\
  length (sha256.Sum256 (bytes_of_string p)) = 32%nat /\
  Forall is_byte (sha256.Sum256 (bytes_of_string p)) /\
  String.length (models.generateID p) = 32%nat /\
  is_id_format (models.generateID p) /\
  regexp.MatchString models.ValidIDPattern (models.generateID p) = true /\
  (forall env size, models.ID (models.NewSong env p size) = models.generateID p) /\
  (forall env1 env2 size1 size2,
     models.ID (models.NewSong env1 p size1) = models.ID (models.NewSong env2 p size2)).
Proof.
  assert (String.length (models.generateID p) = 32%nat) as Hlen.
  { unfold models.generateID. rewrite EncodeToString_length, length_firstn, Sum256_length.
    reflexivity. }
  assert (is_id_format (models.generateID p)) as Hfmt.
  { split; [exact Hlen | apply EncodeToString_lower]. }
  assert (forall env size, models.ID (models.NewSong env p size) = models.generateID p)
    as Hid.
  { intros env size. unfold models.NewSong.
    destruct (models.read_tags env); reflexivity. }
  split; [reflexivity|].
  split; [apply Sum256_length|].
  split; [apply Sum256_bytes|].
  split; [exact Hlen|].
  split; [exact Hfmt|].
  split; [now apply MatchString_id_format|].
  split; [exact Hid|].
  intros. now rewrite !Hid.
Qed.

(** The digest agrees with the published SHA-256 test vectors. *)
Example Sum256_abc :
  hex.EncodeToString (sha256.Sum256 (bytes_of_string "abc")) =
  "ba7816bf8f01cfea414140de5dae2223b00361a396177a9cb410ff61f20015ad"%string.
Proof. vm_compute. reflexivity. Qed.

Example Sum256_two_blocks :
  hex.EncodeToString
    (sha256.Sum256
       (bytes_of_string "abcdbcdecdefdefgefghfghighijhijkijkljklmklmnlmnomnopnopq")) =
  "248d6a61d20638b8e5c026930c3e6039a33ce45964ff2167f6ecedd419db06c1"%string.
Proof. vm_compute. reflexivity. Qed.

Example generateID_abc :
  models.generateID "abc" = "ba7816bf8f01cfea414140de5dae2223"%string.
Proof. vm_compute. reflexivity. Qed.

End id_facts.

(** ** The range streaming engine: identifier check and ranges *)

Module range_facts.

Import gostrings strconv spec lib_facts store services handlers.

Lemma HasPrefix_app p x : HasPrefix (p ++ x) p = true.
Proof.
  induction p as [|c cs IH]; [rewrite app_nil; now destruct x|].
  rewrite app_cons. simpl. now rewrite Ascii.eqb_refl, IH.
Qed.

Lemma drop_app p x : drop (String.length p) (p ++ x) = x.
Proof. induction p as [|c cs IH]; [reflexivity | rewrite app_cons; exact IH]. Qed.

Lemma TrimPrefix_app p x : TrimPrefix (p ++ x) p = x.
Proof. unfold TrimPrefix. now rewrite HasPrefix_app, drop_app. Qed.

Lemma bound_text_no_dash b : negative b = false -> no_sep "-" (bound_text b) = true.
Proof.
  destruct b as [n|]; simpl; [|reflexivity].
  intros Hn. apply Z.ltb_ge in Hn. apply all_digits_no_dash. now apply FormatInt_all_digits.
Qed.

(** The two fields of a header [bytes=<start>-<end>] without minus
    signs. *)
Lemma range_header_parts a b :
  negative a = false -> negative b = false ->
  Split (TrimPrefix (range_header a b) "bytes=") "-" = [bound_text a; bound_text b].
Proof.
  intros Ha Hb. unfold range_header. rewrite TrimPrefix_app.
  change ("-" ++ bound_text b)%string with (String "-" (bound_text b)).
  rewrite Split_app by now apply bound_text_no_dash.
  now rewrite Split_no_sep by now apply bound_text_no_dash.
Qed.

Lemma FormatInt_negative n :
  n < 0 -> exists ds, FormatInt n = String "-" ds /\ no_sep "-" ds = true.
Proof.
  intros Hn. unfold FormatInt. rewrite (proj2 (Z.ltb_lt n 0)) by assumption.
  eexists. split; [reflexivity|].
  apply all_digits_no_dash, format_digits_all_digits.
  split; [lia | apply log2_fuel; lia].
Qed.

(** A header with a minus sign in a bound has at least three fields. *)
Lemma range_header_negative_parts a b :
  negative a || negative b = true ->
  exists p0 p1 p2 rest,
    Split (TrimPrefix (range_header a b) "bytes=") "-" = p0 :: p1 :: p2 :: rest.
Proof.
  intros Hneg. unfold range_header. rewrite TrimPrefix_app.
  change ("-" ++ bound_text b)%string with (String "-" (bound_text b)).
  destruct (negative a) eqn:Ha.
  - destruct a as [n|]; [|discriminate]. simpl in Ha. apply Z.ltb_lt in Ha.
    destruct (FormatInt_negative n Ha) as (ds & E & Hds).
    simpl bound_text. rewrite E, app_cons.
    change (String "-" (ds ++ String "-" (bound_text b)))%string
      with (EmptyString ++ String "-" (ds ++ String "-" (bound_text b)))%string.
    rewrite Split_app by reflexivity. rewrite Split_app by assumption.
    destruct (Split (bound_text b) "-") as [|p2 rest] eqn:Es.
    + now apply Split_nonempty in Es.
    + now exists EmptyString, ds, p2, rest.
  - simpl in Hneg. destruct b as [n|]; [|discriminate]. simpl in Hneg.
    apply Z.ltb_lt in Hneg. destruct (FormatInt_negative n Hneg) as (ds & E & Hds).
    rewrite Split_app by now apply bound_text_no_dash.
    simpl bound_text. rewrite E.
    change (String "-" ds) with (EmptyString ++ String "-" ds)%string.
    rewrite Split_app by reflexivity. rewrite Split_no_sep by assumption.
    now exists (bound_text a), EmptyString, ds, [].
Qed.

Lemma parse_bound_text b dflt :
  negative b = false -> fits_int64 b ->
  parse_bound (bound_text b) dflt = Some (bound_or b dflt).
Proof.
  destruct b as [n|]; simpl; [|reflexivity].
  intros Hn Hfit. apply Z.ltb_ge in Hn. unfold parse_bound.
  destruct (FormatInt n) eqn:E; [now apply FormatInt_nonempty in E|].
  rewrite <- E, ParseInt_FormatInt by lia.
  now rewrite (proj2 (Z.ltb_ge n 0)).
Qed.

Lemma byte_range_length (file : list Byte.byte) start end_ :
  0 <= start <= end_ -> end_ < Z.of_nat (length file) ->
  Z.of_nat (length (byte_range file start end_)) = end_ - start + 1.
Proof.
  intros Hb Hlen. unfold byte_range. rewrite length_firstn, length_skipn. lia.
Qed.

(** C3.  For every request whose identifier parameter is not exactly 32
    lowercase hexadecimal characters, [StreamAudio] answers 400 Bad
    Request, and it does so before anything else: whatever the scanner
    behind the interface, the operating system and the store are, no scan,
    path resolution or file access is made, and the handler, the index it
    holds and the store are as before. *)
Theorem StreamAudio_malformed_id {T : Type} `{Scanner T}
    (h : StreamHandler T) (os : OS) (req : Request) (st : Store) :
  ~ is_id_format (param_id req) ->
  StreamAudio h os req st =
    (mkResponse StatusBadRequest
       [("Content-Type", "application/json; charset=utf-8")%string]
       (BodyJSON (NewBadRequestError "无效的歌曲 ID 格式")),
     [], h, st).
Proof.
  intros Hbad. unfold StreamAudio.
  destruct (regexp.MatchString models.ValidIDPattern (param_id req)) eqn:E.
  - exfalso. apply Hbad. now apply id_facts.MatchString_id_format.
  - reflexivity.
Qed.

(** C4.  For a range request [bytes=<start>-<end>] on a file of [S]
    bytes, a missing start stands for 0 and a missing end for [S-1]; when
    the bounds so completed satisfy [0 <= start <= end < S] and the length
    [end-start+1] is within the configured maximum, the response is 206
    with [Content-Range: bytes <start>-<end>/<S>], a [Content-Length] of
    [end-start+1], and the body is the bytes [start] through [end] of the
    file, [end-start+1] of them. *)
Theorem serveRange_partial_content {T : Type} (h : StreamHandler T) (os : OS)
    (file : list Byte.byte) (fileSize : Z) (a b : option Z) (filename : string) :
  Z.of_nat (length file) = fileSize ->
  fileSize <= maxInt64 ->
  0 <= bound_or a 0 <= bound_or b (fileSize - 1) ->
  bound_or b (fileSize - 1) < fileSize ->
  bound_or b (fileSize - 1) - bound_or a 0 + 1 <= maxRangeSize h ->
  serveRange h os blank file fileSize (range_header a b) filename =
    mkResponse StatusPartialContent
      [("Content-Range",
        "bytes " ++ FormatInt (bound_or a 0) ++ "-" ++
        FormatInt (bound_or b (fileSize - 1)) ++ "/" ++ FormatInt fileSize);
       ("Content-Length", FormatInt (bound_or b (fileSize - 1) - bound_or a 0 + 1));
       ("Content-Type", getMimeType os filename);
       ("Content-Disposition", "inline; filename=" ++ quoted filename);
       ("Accept-Ranges", "bytes")]%string
      (BodyBytes (byte_range file (bound_or a 0) (bound_or b (fileSize - 1)))) /\
  Z.of_nat (length (byte_range file (bound_or a 0) (bound_or b (fileSize - 1)))) =
    bound_or b (fileSize - 1) - bound_or a 0 + 1.
Proof.
  intros Hfile Hsize Hse Hend Hmax.
  set (start := bound_or a 0) in *. set (end_ := bound_or b (fileSize - 1)) in *.
  assert (negative a = false) as Hna.
  { destruct a as [n|]; [|reflexivity]. simpl in *. apply Z.ltb_ge. subst start. lia. }
  assert (negative b = false) as Hnb.
  { destruct b as [n|]; [|reflexivity]. simpl in *. apply Z.ltb_ge. subst end_. lia. }
  assert (fits_int64 a) as Hfa.
  { destruct a as [n|]; [|exact I]. simpl in *. unfold minInt64, maxInt64 in *.
    subst start. lia. }
  assert (fits_int64 b) as Hfb.
  { destruct b as [n|]; [|exact I]. simpl in *. unfold minInt64, maxInt64 in *.
    subst end_. lia. }
  split; [|apply byte_range_length; lia].
  unfold serveRange. rewrite range_header_parts by assumption.
  rewrite (parse_bound_text a 0 Hna Hfa).
  rewrite (wrap64_small (fileSize - 1)) by (unfold minInt64, maxInt64 in *; lia).
  rewrite (parse_bound_text b (fileSize - 1) Hnb Hfb).
  fold start end_.
  rewrite (proj2 (Z.ltb_ge start 0)) by lia.
  rewrite (proj2 (Z.leb_gt fileSize end_)) by lia.
  rewrite (proj2 (Z.ltb_ge end_ start)) by lia.
  cbn [orb].
  rewrite (wrap64_small (end_ - start)) by (unfold minInt64, maxInt64 in *; lia).
  rewrite (wrap64_small (end_ - start + 1)) by (unfold minInt64, maxInt64 in *; lia).
  rewrite (proj2 (Z.ltb_ge (maxRangeSize h) (end_ - start + 1))) by lia.
  unfold Seek. rewrite (proj2 (Z.ltb_ge start 0)) by lia.
  reflexivity.
Qed.

(** A decimal number above the largest [int64] does not parse. *)
Lemma ParseInt_FormatInt_above n : maxInt64 < n -> ParseInt (FormatInt n) = None.
Proof.
  intros Hn. assert (0 <= n) as Hpos by (unfold maxInt64 in Hn; lia).
  pose proof (FormatInt_all_digits n Hpos) as Hd.
  pose proof (FormatInt_nonempty n) as Hne.
  assert (parse_digits (FormatInt n) 0 = Some n) as Hp.
  { rewrite FormatInt_nonneg by lia. apply format_digits_parse.
    split; [lia | apply log2_fuel; lia]. }
  unfold ParseInt. destruct (FormatInt n) as [|c cs] eqn:E; [congruence|].
  simpl in Hd. destruct (digit_val c) as [d|] eqn:Ed; [|discriminate].
  destruct (digit_not_sign _ _ Ed) as [-> ->]. simpl orb. cbv iota.
  unfold ParseUint. rewrite Hp.
  destruct (n <=? maxUint64); [|reflexivity].
  simpl negb. simpl andb. unfold maxInt64 in Hn.
  rewrite (proj2 (Z.leb_le _ n)) by lia. reflexivity.
Qed.

Lemma parse_bound_above b dflt :
  above_int64 b = true -> parse_bound (bound_text b) dflt = None.
Proof.
  destruct b as [n|]; simpl; [|discriminate].
  intros Hn. apply Z.ltb_lt in Hn. unfold parse_bound.
  destruct (FormatInt n) eqn:E; [now apply FormatInt_nonempty in E|].
  rewrite <- E. now rewrite ParseInt_FormatInt_above.
Qed.

Lemma fits_int64_bound b : negative b = false -> above_int64 b = false -> fits_int64 b.
Proof.
  destruct b as [n|]; simpl; [|trivial]. intros Hn Ha.
  apply Z.ltb_ge in Hn, Ha. unfold minInt64, maxInt64 in *. lia.
Qed.

(** C5, as the code has it.  For a range request [bytes=<start>-<end>]
    whose bounds, completed with their defaults, satisfy [start < 0],
    [end >= size] or [start > end]: when a bound is written with a minus
    sign the header splits into more than two fields and the response is
    400 Bad Request; when a bound is a decimal number too large for 64
    signed bits it does not parse and the response is 400 Bad Request
    (invalid start, or invalid end); in every other case, that is when
    the bounds are written without a minus sign and fit 64 signed bits,
    the response is 416 with [Content-Range: bytes */<size>] and no
    body. *)
Theorem serveRange_out_of_bounds {T : Type} (h : StreamHandler T) (os : OS)
    (file : list Byte.byte) (fileSize : Z) (a b : option Z) (filename : string) :
  0 <= fileSize <= maxInt64 ->
  bound_or a 0 < 0 \/ bound_or b (fileSize - 1) >= fileSize \/
    bound_or a 0 > bound_or b (fileSize - 1) ->
  serveRange h os blank file fileSize (range_header a b) filename =
    if negative a || negative b
    then mkResponse StatusBadRequest
           [("Content-Type", "application/json; charset=utf-8")%string]
           (BodyJSON (NewBadRequestError "无效的 Range 请求头格式"))
    else if above_int64 a
    then mkResponse StatusBadRequest
           [("Content-Type", "application/json; charset=utf-8")%string]
           (BodyJSON (NewBadRequestError "无效的 Range 起始值"))
    else if above_int64 b
    then mkResponse StatusBadRequest
           [("Content-Type", "application/json; charset=utf-8")%string]
           (BodyJSON (NewBadRequestError "无效的 Range 结束值"))
    else mkResponse StatusRequestedRangeNotSatisfiable
           [("Content-Range", "bytes */" ++ FormatInt fileSize)%string]
           BodyNone.
Proof.
  intros Hsize Hout. unfold serveRange.
  destruct (negative a || negative b) eqn:Hneg.
  - destruct (range_header_negative_parts a b Hneg) as (p0 & p1 & p2 & rest & ->).
    reflexivity.
  - apply orb_false_iff in Hneg as [Hna Hnb].
    rewrite range_header_parts by assumption.
    destruct (above_int64 a) eqn:Haa.
    { now rewrite (parse_bound_above a 0 Haa). }
    rewrite (parse_bound_text a 0 Hna (fits_int64_bound a Hna Haa)).
    rewrite (wrap64_small (fileSize - 1)) by (unfold minInt64, maxInt64 in *; lia).
    destruct (above_int64 b) eqn:Hab.
    { now rewrite (parse_bound_above b _ Hab). }
    rewrite (parse_bound_text b (fileSize - 1) Hnb (fits_int64_bound b Hnb Hab)).
    assert (0 <= bound_or a 0) as Hs.
    { destruct a as [n|]; simpl in *; [apply Z.ltb_ge in Hna|]; lia. }
    destruct (bound_or a 0 <? 0) eqn:E1; [apply Z.ltb_lt in E1; lia|].
    destruct (fileSize <=? bound_or b (fileSize - 1)) eqn:E2; [reflexivity|].
    destruct (bound_or b (fileSize - 1) <? bound_or a 0) eqn:E3; [reflexivity|].
    apply Z.leb_gt in E2. apply Z.ltb_ge in E3. lia.
Qed.

End range_facts.

(** ** The library index: the store and the walk *)

Module index_facts.

Import store services index_props.

(** *** Allocation *)

Lemma elems_make_slice st l : elems (snd (make_slice st l)) (next st) = l.
Proof. unfold elems, make_slice. simpl. now rewrite lookup_insert_eq. Qed.

Lemma elems_make_slice_other st l a :
  a <> next st -> elems (snd (make_slice st l)) a = elems st a.
Proof. intros Ha. unfold elems, make_slice. simpl. now rewrite lookup_insert_ne. Qed.

Lemma elems_insert o ar k a l : elems (mkStore o (<[a := l]> ar) k) a = l.
Proof. unfold elems. simpl. now rewrite lookup_insert_eq. Qed.

Lemma elems_insert_ne o ar k a b l :
  b <> a -> elems (mkStore o (<[a := l]> ar) k) b = elems (mkStore o ar k) b.
Proof. intros Hb. unfold elems. simpl. now rewrite lookup_insert_ne. Qed.

Lemma deref_make_slice st l p : deref (snd (make_slice st l)) p = deref st p.
Proof. reflexivity. Qed.

Lemma deref_new_song st v : next st <> 0%nat -> deref (snd (new_song st v)) (next st) = Some v.
Proof.
  intros Hn. unfold deref, new_song, nilptr. simpl.
  destruct (Nat.eqb_spec (next st) 0); [contradiction|]. now rewrite lookup_insert_eq.
Qed.

Lemma deref_new_song_other st v p :
  p <> next st -> deref (snd (new_song st v)) p = deref st p.
Proof.
  intros Hp. unfold deref, new_song. simpl.
  destruct (p =? nilptr)%nat; [reflexivity|]. now rewrite lookup_insert_ne.
Qed.

Lemma elems_append st a p : elems (append st a p) a = elems st a ++ [p].
Proof. unfold elems at 1, append. simpl. now rewrite lookup_insert_eq. Qed.

Lemma elems_append_other st a p b : b <> a -> elems (append st a p) b = elems st b.
Proof. intros Hb. unfold elems at 1, append. simpl. now rewrite lookup_insert_ne. Qed.

Lemma elems_set_elem_other st a i p b : b <> a -> elems (set_elem st a i p) b = elems st b.
Proof. intros Hb. unfold elems at 1, set_elem. simpl. now rewrite lookup_insert_ne. Qed.

Lemma deref_nil st : deref st nilptr = None.
Proof. reflexivity. Qed.

Lemma agree_refl n st : agree n st st.
Proof. split; reflexivity. Qed.

Lemma agree_trans n st1 st2 st3 : agree n st1 st2 -> agree n st2 st3 -> agree n st1 st3.
Proof.
  intros [Ho1 Ha1] [Ho2 Ha2]. split; intros x Hx.
  - now rewrite Ho2, Ho1.
  - now rewrite Ha2, Ha1.
Qed.

Lemma agree_new_song n st v : (n <= next st)%nat -> agree n st (snd (new_song st v)).
Proof.
  intros Hn. split; intros x Hx; simpl; [|reflexivity].
  rewrite lookup_insert_ne; [reflexivity | lia].
Qed.

Lemma agree_make_slice n st l : (n <= next st)%nat -> agree n st (snd (make_slice st l)).
Proof.
  intros Hn. split; intros x Hx; simpl; [reflexivity|].
  rewrite lookup_insert_ne; [reflexivity | lia].
Qed.

Lemma agree_set_elem n st a i p : (n <= a)%nat -> agree n st (set_elem st a i p).
Proof.
  intros Hn. split; intros x Hx; simpl; [reflexivity|].
  rewrite lookup_insert_ne; [reflexivity | lia].
Qed.

Lemma agree_deref n st st' p : agree n st st' -> (p < n)%nat -> deref st' p = deref st p.
Proof. intros [Ho _] Hp. unfold deref. now rewrite Ho. Qed.

Lemma agree_elems n st st' a : agree n st st' -> (a < n)%nat -> elems st' a = elems st a.
Proof. intros [_ Ha] Hp. unfold elems. now rewrite Ha. Qed.

(** *** Reading a sequence *)

Lemma omap_deref_ext {B} (f : models.Song -> B) st st' (l : list loc) :
  (forall p, p ∈ l -> deref st' p = deref st p) ->
  omap (fun p => f <$> deref st' p) l = omap (fun p => f <$> deref st p) l.
Proof.
  induction l as [|q l IH]; intros Hl; [reflexivity|].
  cbn [omap list_omap]. rewrite (Hl q) by left.
  rewrite IH; [reflexivity|]. intros p Hp. apply Hl. now right.
Qed.

Lemma songs_at_ext st st' a :
  elems st' a = elems st a ->
  (forall p, p ∈ elems st a -> deref st' p = deref st p) ->
  songs_at st' a = songs_at st a.
Proof.
  intros He Hd. unfold songs_at. rewrite He.
  apply map_ext_in. intros p Hp. apply Hd. now apply list_elem_of_In.
Qed.

Lemma wf_agree s st st' :
  wf s st -> agree (next st) st st' -> (next st <= next st')%nat -> wf s st'.
Proof.
  intros [Hs Hp] Hag Hn. split; [lia|].
  rewrite (agree_elems _ _ _ _ Hag Hs). intros p Hin.
  destruct (Hp p Hin) as [Hlt [v Hv]]. split; [lia|].
  exists v. now rewrite (agree_deref _ _ _ _ Hag Hlt).
Qed.

Lemma indexed_agree s st st' :
  wf s st -> indexed s st -> agree (next st) st st' -> indexed s st'.
Proof.
  intros [Hs Hp] [Hidx Hnd] Hag.
  assert (forall p, p ∈ elems st (songs s) -> deref st' p = deref st p) as Hd.
  { intros p Hin. apply (agree_deref _ _ _ _ Hag). now apply Hp. }
  unfold indexed, ids_of. rewrite (agree_elems _ _ _ _ Hag Hs). split.
  - intros id p. rewrite Hidx. split; intros [Hin Hid]; (split; [exact Hin|]).
    + now rewrite Hd.
    + now rewrite <- Hd.
  - now rewrite (omap_deref_ext models.ID st st' _ Hd).
Qed.

(** The sequence and the mapping are consistent when the mapping indexes
    the sequence. *)
Lemma indexed_consistent s st : wf s st -> indexed s st -> consistent s st.
Proof.
  intros [Hs Hp] [Hidx Hnd]. split.
  - intros id p Hl. apply Hidx in Hl as [Hin Hid]. repeat split; try assumption.
    apply NoDup_ListNoDup in Hnd.
    apply (proj1 (NoDup_count_occ' string_dec _) Hnd).
    apply list_elem_of_In, list_elem_of_omap. now exists p.
  - intros p Hin. destruct (Hp p Hin) as [_ [v Hv]]. exists v. split; [exact Hv|].
    apply Hidx. split; [exact Hin | now rewrite Hv].
Qed.

(** *** One file of the walk *)

Lemma same_config_refl s : same_config s s.
Proof. repeat split. Qed.

Lemma same_config_trans s1 s2 s3 :
  same_config s1 s2 -> same_config s2 s3 -> same_config s1 s3.
Proof.
  intros (A1 & B1 & C1 & D1 & E1) (A2 & B2 & C2 & D2 & E2).
  repeat split; congruence.
Qed.

(** The loop over the formats adds the song once when a format matches
    and nothing otherwise. *)
Lemma add_if_supported_eq path size meta formats s st :
  add_if_supported (gostrings.ToLower (filepath.Ext path)) path size meta formats s st =
  if is_supported formats path then add_song path size meta s st else (s, st).
Proof.
  unfold is_supported. induction formats as [|f fs IH]; [reflexivity|].
  cbn [add_if_supported existsb].
  destruct (String.eqb _ (gostrings.ToLower f)); [reflexivity | exact IH].
Qed.

Lemma add_song_spec path size meta s st :
  wf s st ->
  exists s' st',
    add_song path size meta s st = (s', st') /\
    wf s' st' /\ same_config s s' /\
    next st' = S (next st) /\
    songIndex s' = <[models.ID (models.NewSong meta path size) := next st]> (songIndex s) /\
    elems st' (songs s') = elems st (songs s) ++ [next st] /\
    deref st' (next st) = Some (models.NewSong meta path size) /\
    (forall q, (q < next st)%nat -> deref st' q = deref st q) /\
    (forall b, b <> songs s -> elems st' b = elems st b).
Proof.
  intros [Hs Hp]. unfold add_song.
  set (v := models.NewSong meta path size).
  assert (next st <> 0%nat) as Hn0 by lia.
  eexists _, _. split; [reflexivity|].
  assert (forall q, (q < next st)%nat ->
            deref (append (snd (new_song st v)) (songs s) (next st)) q = deref st q) as Hold.
  { intros q Hq. change (deref (snd (new_song st v)) q = deref st q).
    apply deref_new_song_other. lia. }
  assert (deref (append (snd (new_song st v)) (songs s) (next st)) (next st) = Some v)
    as Hnew.
  { change (deref (snd (new_song st v)) (next st) = Some v). now apply deref_new_song. }
  assert (elems (append (snd (new_song st v)) (songs s) (next st)) (songs s) =
          elems st (songs s) ++ [next st]) as Hel.
  { rewrite elems_append. reflexivity. }
  assert (forall b, b <> songs s ->
            elems (append (snd (new_song st v)) (songs s) (next st)) b = elems st b) as Harr.
  { intros b Hb. now rewrite elems_append_other. }
  cbn [new_song fst snd] in *.
  repeat split; try assumption; try reflexivity.
  - simpl. lia.
  - simpl songs in H. rewrite Hel in H. apply elem_of_app in H as [H | H].
    + apply Hp in H as [Hlt _]. simpl. lia.
    + apply list_elem_of_singleton in H. subst. simpl. lia.
  - simpl songs in H. rewrite Hel in H. apply elem_of_app in H as [H | H].
    + apply Hp in H as [Hlt [w Hw]]. exists w. now rewrite Hold.
    + apply list_elem_of_singleton in H. subst. now exists v.
Qed.

Lemma ids_of_snoc st st' (l : list loc) p v :
  (forall q, q ∈ l -> deref st' q = deref st q) ->
  deref st' p = Some v ->
  ids_of st' (l ++ [p]) = ids_of st l ++ [models.ID v].
Proof.
  intros Hold Hnew. unfold ids_of. rewrite omap_app.
  rewrite (omap_deref_ext models.ID st st' l Hold).
  cbn [omap list_omap]. now rewrite Hnew.
Qed.

Lemma songs_at_snoc st st' a a' p v :
  elems st' a' = elems st a ++ [p] ->
  (forall q, q ∈ elems st a -> deref st' q = deref st q) ->
  deref st' p = Some v ->
  songs_at st' a' = songs_at st a ++ [Some v].
Proof.
  intros He Hold Hnew. unfold songs_at. rewrite He, map_app. cbn [map].
  rewrite Hnew. f_equal. apply map_ext_in. intros q Hq. apply Hold.
  now apply list_elem_of_In.
Qed.

Lemma NewSong_ID meta path size :
  models.ID (models.NewSong meta path size) = models.generateID path.
Proof. unfold models.NewSong. destruct (models.read_tags meta); reflexivity. Qed.

Lemma NewSong_FilePath meta path size :
  models.FilePath (models.NewSong meta path size) = path.
Proof. unfold models.NewSong. destruct (models.read_tags meta); reflexivity. Qed.

(** Adding a song whose identifier is new keeps the mapping an index of
    the sequence. *)
Lemma add_song_indexed path size meta s st s' st' :
  wf s st -> indexed s st ->
  models.generateID path ∉ ids_of st (elems st (songs s)) ->
  add_song path size meta s st = (s', st') ->
  indexed s' st'.
Proof.
  intros Hwf [Hidx Hnd] Hfresh Hadd.
  destruct (add_song_spec path size meta s st Hwf)
    as (s1 & st1 & E & Hwf' & Hcfg & Hnext & Hmap & Hel & Hnew & Hold & _).
  rewrite Hadd in E. injection E as <- <-.
  destruct Hwf as [Hs Hp].
  assert (forall q, q ∈ elems st (songs s) -> deref st' q = deref st q) as Hold'.
  { intros q Hq. apply Hold. now apply Hp. }
  rewrite NewSong_ID in Hmap.
  pose proof (ids_of_snoc st st' _ _ _ Hold' Hnew) as Hids.
  rewrite NewSong_ID in Hids. rewrite <- Hel in Hids.
  split.
  - intros id p. rewrite Hmap, Hel. rewrite lookup_insert. split.
    + case_decide as Hid.
      * intros [= <-]. split; [apply elem_of_app; right; now left|].
        rewrite Hnew. simpl. now rewrite NewSong_ID, Hid.
      * intros Hl. apply Hidx in Hl as [Hin Hd]. split; [apply elem_of_app; now left|].
        now rewrite Hold'.
    + intros [Hin Hd]. apply elem_of_app in Hin as [Hin | Hin].
      * rewrite Hold' in Hd by assumption.
        assert (id ∈ ids_of st (elems st (songs s))) as Hmem.
        { apply list_elem_of_omap. now exists p. }
        case_decide as Hid; [subst id; contradiction|].
        apply Hidx. now split.
      * apply list_elem_of_singleton in Hin. subst p.
        rewrite Hnew in Hd. simpl in Hd. rewrite NewSong_ID in Hd. injection Hd as <-.
        case_decide; [reflexivity | contradiction].
  - rewrite Hids. apply NoDup_app. split; [exact Hnd|]. split.
    + intros x Hx Hx'. apply list_elem_of_singleton in Hx'. now subst.
    + apply NoDup_singleton.
Qed.

(** *** The walk *)

Lemma indexed_songs_ids formats vs :
  map models.ID (indexed_songs formats vs) =
  map models.generateID (indexed_paths formats vs).
Proof.
  induction vs as [|v vs IH]; [reflexivity|]. simpl.
  destruct (entry v) as [| |path size meta]; try exact IH.
  destruct (is_supported formats path); [|exact IH].
  simpl. now rewrite NewSong_ID, IH.
Qed.

Lemma indexed_songs_paths formats vs :
  map models.FilePath (indexed_songs formats vs) = indexed_paths formats vs.
Proof.
  induction vs as [|v vs IH]; [reflexivity|]. simpl.
  destruct (entry v) as [| |path size meta]; try exact IH.
  destruct (is_supported formats path); [|exact IH].
  simpl. now rewrite NewSong_FilePath, IH.
Qed.

Lemma walkFn_file path size meta s st :
  walkFn (mkVisit false (EntryFile path size meta)) s st =
  if is_supported (supportedFormats s) path
  then (None, fst (add_song path size meta s st), snd (add_song path size meta s st))
  else (None, s, st).
Proof.
  unfold walkFn. cbn [ctx_done entry]. rewrite add_if_supported_eq.
  destruct (is_supported (supportedFormats s) path); [|reflexivity].
  now destruct (add_song path size meta s st).
Qed.

(** What a walk leaves: the songs of the files visited before the first
    error, appended to the sequence in order; an index of the sequence
    when the identifiers are distinct; and an error exactly when a visit
    failed. *)
Lemma Walk_spec vs : forall s st,
  wf s st ->
  exists r s' st',
    Walk vs s st = (r, s', st') /\
    wf s' st' /\ same_config s s' /\
    (next st <= next st')%nat /\
    (forall q, (q < next st)%nat -> deref st' q = deref st q) /\
    (forall b, b <> songs s -> elems st' b = elems st b) /\
    songs_at st' (songs s') =
      songs_at st (songs s) ++ map Some (indexed_songs (supportedFormats s) (completed vs)) /\
    (r = None <-> completed vs = vs) /\
    (indexed s st ->
     NoDup (ids_of st (elems st (songs s)) ++
            map models.generateID (indexed_paths (supportedFormats s) vs)) ->
     indexed s' st').
Proof.
  induction vs as [|v vs IH]; intros s st Hwf.
  - exists None, s, st. cbn [Walk completed indexed_songs indexed_paths map].
    rewrite !app_nil_r.
    split; [reflexivity|]. split; [exact Hwf|]. split; [apply same_config_refl|].
    split; [lia|]. split; [reflexivity|]. split; [reflexivity|]. split; [reflexivity|].
    split; [tauto|]. intros Hi _. exact Hi.
  - destruct v as [done e]. cbn [Walk].
    destruct done.
    { exists (Some ContextErr), s, st.
      cbn [walkFn ctx_done completed indexed_songs map]. rewrite !app_nil_r.
      split; [reflexivity|]. split; [exact Hwf|]. split; [apply same_config_refl|].
      split; [lia|]. split; [reflexivity|]. split; [reflexivity|]. split; [reflexivity|].
      split; [split; discriminate|]. intros Hi _. exact Hi. }
    destruct e as [path msg | path | path size meta].
    { exists (Some (FsErr msg)), s, st.
      cbn [walkFn ctx_done entry completed indexed_songs map]. rewrite !app_nil_r.
      split; [reflexivity|]. split; [exact Hwf|]. split; [apply same_config_refl|].
      split; [lia|]. split; [reflexivity|]. split; [reflexivity|]. split; [reflexivity|].
      split; [split; discriminate|]. intros Hi _. exact Hi. }
    { destruct (IH s st Hwf) as (r & s' & st' & E & Hwf' & Hcfg & Hn & Hd & Ha & Hs & Hr & Hi).
      exists r, s', st'.
      cbn [walkFn ctx_done entry completed indexed_songs indexed_paths]. rewrite E.
      split; [reflexivity|]. split; [exact Hwf'|]. split; [exact Hcfg|].
      split; [exact Hn|]. split; [exact Hd|]. split; [exact Ha|]. split; [exact Hs|].
      split; [|exact Hi].
      split.
      - intros Hnone. f_equal. now apply Hr.
      - intros [= Hc]. now apply Hr. }
    rewrite walkFn_file. cbn [completed ctx_done entry indexed_songs indexed_paths].
    destruct (is_supported (supportedFormats s) path) eqn:Esup.
    2:{ destruct (IH s st Hwf) as (r & s' & st' & E & Hwf' & Hcfg & Hn & Hd & Ha & Hs & Hr & Hi).
        exists r, s', st'. rewrite E. cbn [indexed_songs entry]. rewrite ?Esup.
        split; [reflexivity|]. split; [exact Hwf'|]. split; [exact Hcfg|].
        split; [exact Hn|]. split; [exact Hd|]. split; [exact Ha|]. split; [exact Hs|].
        split; [|exact Hi].
        split.
        - intros Hnone. f_equal. now apply Hr.
        - intros [= Hc]. now apply Hr. }
    destruct (add_song_spec path size meta s st Hwf)
      as (s1 & st1 & Eadd & Hwf1 & Hcfg1 & Hn1 & Hmap1 & Hel1 & Hnew1 & Hold1 & Harr1).
    rewrite Eadd. cbn [fst snd].
    destruct (IH s1 st1 Hwf1) as (r & s' & st' & E & Hwf' & Hcfg & Hn & Hd & Ha & Hs & Hr & Hi).
    exists r, s', st'. rewrite E.
    pose proof Hcfg1 as (Hdir1 & Hfmt1 & Hsongs1 & Hls1 & Httl1).
    assert (forall q, q ∈ elems st (songs s) -> deref st1 q = deref st q) as Hold1'.
    { intros q Hq. apply Hold1. destruct Hwf as [_ Hp]. now apply Hp. }
    split; [reflexivity|]. split; [exact Hwf'|].
    split; [eapply same_config_trans; eassumption|].
    split; [lia|].
    split; [intros q Hq; rewrite Hd by lia; now apply Hold1|].
    split; [intros b Hb; rewrite Ha by congruence; now apply Harr1|].
    split.
    { rewrite Hs, Hfmt1. cbn [indexed_songs entry]. rewrite ?Esup. cbn [map].
      rewrite (songs_at_snoc st st1 (songs s) (songs s1) (next st)
                 (models.NewSong meta path size) Hel1 Hold1' Hnew1).
      now rewrite <- app_assoc. }
    split.
    { split.
      - intros Hnone. f_equal. now apply Hr.
      - intros [= Hc]. now apply Hr. }
    intros Hidx Hnd. cbn [map] in Hnd.
    assert (models.generateID path ∉ ids_of st (elems st (songs s))) as Hfresh.
    { apply NoDup_app in Hnd as (_ & Hdisj & _).
      intros Hin. apply (Hdisj _ Hin). left. }
    apply Hi.
    + exact (add_song_indexed path size meta s st s1 st1 Hwf Hidx Hfresh Eadd).
    + rewrite Hel1, Hfmt1.
      rewrite (ids_of_snoc st st1 _ _ _ Hold1' Hnew1), NewSong_ID.
      now rewrite <- app_assoc.
Qed.

(** *** [scanInternal] *)

Lemma wf_fresh_slice s st :
  wf (set_songIndex (set_songs s (next st)) ∅) (snd (make_slice st [])).
Proof.
  split.
  - simpl. lia.
  - cbn [songs set_songIndex set_songs]. rewrite elems_make_slice.
    intros p Hp. now apply elem_of_nil in Hp.
Qed.

Lemma indexed_fresh_slice s st :
  indexed (set_songIndex (set_songs s (next st)) ∅) (snd (make_slice st [])).
Proof.
  unfold indexed. cbn [songs songIndex set_songIndex set_songs].
  rewrite elems_make_slice. split.
  - intros id p. rewrite lookup_empty. split; [discriminate|].
    intros [Hp _]. now apply elem_of_nil in Hp.
  - constructor.
Qed.

(** What [scanInternal] leaves, whatever the state before: a fresh
    sequence with the songs of the files visited before the first error
    (none when the root is missing), a mapping that indexes it when the
    identifiers are distinct, and the time of the scan only on success. *)
Lemma scanInternal_spec w s st :
  exists r s' st',
    scanInternal w s st = (r, s', st') /\
    wf s' st' /\
    directory s' = directory s /\ supportedFormats s' = supportedFormats s /\
    cacheTTL s' = cacheTTL s /\ songs s' = next st /\
    (next st < next st')%nat /\
    (forall q, (q < next st)%nat -> deref st' q = deref st q) /\
    (forall b, (b < next st)%nat -> elems st' b = elems st b) /\
    songs_at st' (songs s') =
      map Some (indexed_songs (supportedFormats s)
                  (if dir_missing w then [] else completed (visits w))) /\
    match r with
    | Ok a =>
        a = songs s' /\ dir_missing w = false /\ completed (visits w) = visits w /\
        lastScan s' = Some (now_done w)
    | Err e =>
        lastScan s' = lastScan s /\
        (dir_missing w = true /\ e = DirectoryNotFound (directory s) \/
         dir_missing w = false /\ completed (visits w) <> visits w)
    end /\
    (NoDup (map models.generateID (indexed_paths (supportedFormats s) (visits w))) ->
     indexed s' st').
Proof.
  unfold scanInternal. cbn [make_slice].
  set (s0 := set_songIndex (set_songs s (next st)) ∅).
  set (st0 := mkStore (objs st) (<[next st := []]> (arrays st)) (S (next st))).
  assert (wf s0 st0) as Hwf0 by apply wf_fresh_slice.
  assert (indexed s0 st0) as Hidx0 by apply indexed_fresh_slice.
  assert (songs_at st0 (songs s0) = []) as Hsongs0.
  { unfold songs_at. subst s0 st0. cbn [songs set_songIndex set_songs].
    change (mkStore (objs st) (<[next st := []]> (arrays st)) (S (next st)))
      with (snd (make_slice st [])).
    now rewrite elems_make_slice. }
  assert (forall b, (b < next st)%nat -> elems st0 b = elems st b) as Harr0.
  { intros b Hb. subst st0.
    change (mkStore (objs st) (<[next st := []]> (arrays st)) (S (next st)))
      with (snd (make_slice st [])).
    apply elems_make_slice_other. lia. }
  assert (ids_of st0 (elems st0 (songs s0)) = []) as Hids0.
  { unfold ids_of. subst s0 st0. cbn [songs set_songIndex set_songs].
    change (mkStore (objs st) (<[next st := []]> (arrays st)) (S (next st)))
      with (snd (make_slice st [])).
    now rewrite elems_make_slice. }
  destruct (dir_missing w) eqn:Emiss.
  - exists (Err (DirectoryNotFound (directory s0))), s0, st0.
    split; [reflexivity|]. split; [exact Hwf0|].
    repeat (split; [reflexivity|]).
    split; [simpl; lia|]. split; [reflexivity|]. split; [exact Harr0|].
    split; [exact Hsongs0|]. split; [|intros _; exact Hidx0].
    split; [reflexivity|]. left. split; reflexivity.
  - destruct (Walk_spec (visits w) s0 st0 Hwf0)
      as (r & s' & st' & E & Hwf' & Hcfg & Hn & Hd & Ha & Hs & Hr & Hi).
    destruct Hcfg as (Hdir & Hfmt & Hsg & Hls & Httl).
    assert (forall b, (b < next st)%nat -> elems st' b = elems st b) as Harr.
    { intros b Hb. rewrite Ha by (simpl; lia). now apply Harr0. }
    assert (NoDup (map models.generateID (indexed_paths (supportedFormats s) (visits w))) ->
            indexed s' st') as Hi'.
    { intros Hnd. apply Hi; [exact Hidx0|]. now rewrite Hids0. }
    rewrite E. destruct r as [e|].
    + exists (Err (WalkFailed e)), s', st'.
      split; [reflexivity|]. split; [exact Hwf'|].
      split; [exact Hdir|]. split; [exact Hfmt|]. split; [exact Httl|].
      split; [exact Hsg|]. split; [simpl in Hn; lia|].
      split; [intros q Hq; apply Hd; simpl; lia|]. split; [exact Harr|].
      split; [rewrite Hs, Hsongs0; reflexivity|].
      split; [|exact Hi'].
      split; [exact Hls|]. right. split; [reflexivity|].
      intros Hc. apply Hr in Hc. discriminate.
    + exists (Ok (songs (set_lastScan s' (now_done w)))), (set_lastScan s' (now_done w)), st'.
      split; [reflexivity|]. split; [exact Hwf'|].
      split; [exact Hdir|]. split; [exact Hfmt|]. split; [exact Httl|].
      split; [exact Hsg|]. split; [simpl in Hn; lia|].
      split; [intros q Hq; apply Hd; simpl; lia|]. split; [exact Harr|].
      split; [cbn [songs set_lastScan]; rewrite Hs, Hsongs0; reflexivity|].
      split; [|exact Hi'].
      split; [reflexivity|]. split; [reflexivity|].
      split; [now apply Hr | reflexivity].
Qed.

(** *** The operations that only read the index *)

Lemma copy_songs_agree n dst src : forall i st,
  (n <= dst)%nat -> (n <= next st)%nat ->
  agree n st (copy_songs dst i src st) /\ (next st <= next (copy_songs dst i src st))%nat.
Proof.
  induction src as [|song rest IH]; intros i st Hdst Hn.
  - split; [apply agree_refl | reflexivity].
  - cbn [copy_songs]. destruct (deref st song) as [v|].
    + cbn [new_song].
      set (st1 := set_elem _ dst i (next st)).
      assert (agree n st st1) as Hag.
      { subst st1. eapply agree_trans; [apply (agree_new_song n st v Hn)|].
        now apply agree_set_elem. }
      assert (next st1 = S (next st)) as Hn1 by reflexivity.
      destruct (IH (S i) st1 Hdst ltac:(lia)) as [Hag' Hle].
      split; [eapply agree_trans; eassumption | lia].
    + now apply IH.
Qed.

Lemma GetSongs_agree s st :
  agree (next st) st (snd (GetSongs s st)) /\ (next st < next (snd (GetSongs s st)))%nat.
Proof.
  unfold GetSongs. cbn [make_slice snd].
  set (st1 := mkStore _ _ _).
  assert (agree (next st) st st1) as H1.
  { apply (agree_make_slice (next st) st (repeat nilptr (length (elems st (songs s))))). lia. }
  destruct (copy_songs_agree (next st) (next st) (elems st (songs s)) 0 st1
              ltac:(lia) ltac:(simpl; lia)) as [H2 Hle].
  split; [eapply agree_trans; eassumption | simpl in Hle; lia].
Qed.

Lemma GetSongByID_agree id s st :
  agree (next st) st (snd (GetSongByID id s st)) /\
  (next st <= next (snd (GetSongByID id s st)))%nat.
Proof.
  unfold GetSongByID. destruct (songIndex s !! id) as [p|].
  - destruct (deref st p) as [v|].
    + split; [now apply agree_new_song | simpl; lia].
    + split; [apply agree_refl | reflexivity].
  - split; [apply agree_refl | reflexivity].
Qed.

Lemma copy_slice_agree s st :
  agree (next st) st (snd (copy_slice s st)) /\
  next (snd (copy_slice s st)) = S (next st) /\
  fst (copy_slice s st) = next st /\
  elems (snd (copy_slice s st)) (next st) = elems st (songs s).
Proof.
  unfold copy_slice. split; [now apply agree_make_slice|].
  split; [reflexivity|]. split; [reflexivity|]. apply elems_make_slice.
Qed.

(** *** Runs of the index *)

Lemma Scan_cases e s st :
  (cache_valid (now_rlock e) s st = true \/ cache_valid (now_lock e) s st = true) /\
    Scan e s st = (Ok (next st), s, snd (copy_slice s st)) \/
  cache_valid (now_rlock e) s st = false /\ cache_valid (now_lock e) s st = false /\
    Scan e s st = scanInternal (fs e) s st.
Proof.
  unfold Scan, Scan_rlocked, Scan_locked.
  destruct (cache_valid (now_rlock e) s st) eqn:E1.
  - left. split; [now left | reflexivity].
  - destruct (cache_valid (now_lock e) s st) eqn:E2.
    + left. split; [now right | reflexivity].
    + right. repeat split.
Qed.

Lemma Refresh_scanInternal w s st :
  snd (fst (Refresh w s st)) = snd (fst (scanInternal w s st)) /\
  snd (Refresh w s st) = snd (scanInternal w s st).
Proof.
  unfold Refresh. destruct (scanInternal w s st) as [[[a|e] s'] st']; split; reflexivity.
Qed.

Lemma effective_formats_eq dir formats ttl st :
  supportedFormats (fst (NewMusicScanner dir formats ttl st)) = effective_formats formats.
Proof. reflexivity. Qed.

Lemma NewMusicScanner_inv dir formats ttl st :
  index_inv (effective_formats formats) (NewMusicScanner dir formats ttl st).
Proof.
  split; [apply effective_formats_eq|].
  unfold NewMusicScanner. cbn [make_slice fst snd]. split.
  - split; [simpl; lia|]. cbn [songs].
    change (mkStore (objs st) (<[next st := []]> (arrays st)) (S (next st)))
      with (snd (make_slice st [])).
    rewrite elems_make_slice. intros p Hp. now apply elem_of_nil in Hp.
  - unfold indexed. cbn [songs songIndex].
    change (mkStore (objs st) (<[next st := []]> (arrays st)) (S (next st)))
      with (snd (make_slice st [])).
    rewrite elems_make_slice. split.
    + intros id p. rewrite lookup_empty. split; [discriminate|].
      intros [Hp _]. now apply elem_of_nil in Hp.
    + constructor.
Qed.

Lemma index_inv_agree formats s st st' :
  index_inv formats (s, st) -> agree (next st) st st' -> (next st <= next st')%nat ->
  index_inv formats (s, st').
Proof.
  intros (Hf & Hwf & Hidx) Hag Hle. split; [exact Hf|]. split.
  - now apply (wf_agree s st st').
  - now apply (indexed_agree s st st').
Qed.

Lemma scanInternal_inv formats w s st :
  supportedFormats s = formats ->
  NoDup (map models.generateID (indexed_paths formats (visits w))) ->
  index_inv formats (snd (fst (scanInternal w s st)), snd (scanInternal w s st)).
Proof.
  intros Hf Hnd.
  destruct (scanInternal_spec w s st)
    as (r & s' & st' & E & Hwf & _ & Hfmt & _ & _ & _ & _ & _ & _ & _ & Hi).
  rewrite E. unfold index_inv. cbn [fst snd]. split; [congruence|]. split; [exact Hwf|].
  apply Hi. now rewrite Hf.
Qed.

Lemma step_inv formats op w :
  index_inv formats w -> unique_ids formats op -> index_inv formats (step op w).
Proof.
  destruct w as [s st]. intros Hinv Hu. pose proof Hinv as (Hf & Hwf & Hidx).
  cbn [fst snd] in Hf. unfold unique_ids in Hu.
  destruct op as [e | w | | | id]; cbn [step op_visits] in *.
  - destruct (Scan_cases e s st) as [[_ E] | (_ & _ & E)]; rewrite E.
    + destruct (copy_slice_agree s st) as (Hag & Hn & _).
      apply (index_inv_agree formats s st _ Hinv Hag). lia.
    + pose proof (scanInternal_inv formats (fs e) s st Hf Hu) as H.
      now destruct (scanInternal (fs e) s st) as [[r s'] st'].
  - pose proof (scanInternal_inv formats w s st Hf Hu) as H.
    destruct (Refresh_scanInternal w s st) as [E1 E2].
    destruct (Refresh w s st) as [[r s'] st']. cbn [fst snd] in *.
    now rewrite E1, E2.
  - destruct (GetSongs_agree s st) as [Hag Hn].
    apply (index_inv_agree formats s st _ Hinv Hag). lia.
  - exact Hinv.
  - destruct (GetSongByID_agree id s st) as [Hag Hn].
    now apply (index_inv_agree formats s st _ Hinv Hag).
Qed.

Lemma run_inv formats ops : forall w,
  index_inv formats w -> Forall (unique_ids formats) ops -> index_inv formats (run ops w).
Proof.
  induction ops as [|op ops IH]; intros w Hinv Hall; [exact Hinv|].
  inversion Hall as [|? ? Hop Hops]; subst.
  cbn [run fold_left]. apply IH; [now apply step_inv | exact Hops].
Qed.

(** C9.  Start from a scanner built by [NewMusicScanner] and run any
    operations of the index (scan, refresh, list, count, lookup), the
    scans and refreshes failing or not; when no two files a walk indexes
    share an identifier, the sequence and the mapping are consistent
    afterwards: every identifier of the mapping occurs exactly once among
    the identifiers of the sequence, mapped to that very entry, and every
    entry of the sequence is mapped from its identifier. *)
Theorem consistent_after_every_operation
    (dir : string) (formats : list string) (ttl : Z) (st0 : Store) (ops : list Op) :
  Forall (unique_ids (effective_formats formats)) ops ->
  consistent (fst (run ops (NewMusicScanner dir formats ttl st0)))
             (snd (run ops (NewMusicScanner dir formats ttl st0))).
Proof.
  intros Hall.
  destruct (run_inv _ ops _ (NewMusicScanner_inv dir formats ttl st0) Hall)
    as (_ & Hwf & Hidx).
  now apply indexed_consistent.
Qed.

(** *** The default format *)

Lemma step_formats op w : supportedFormats (fst (step op w)) = supportedFormats (fst w).
Proof.
  destruct w as [s st]. destruct op as [e | w | | | id]; cbn [step fst]; try reflexivity.
  - destruct (Scan_cases e s st) as [[_ E] | (_ & _ & E)]; rewrite E; [reflexivity|].
    destruct (scanInternal_spec (fs e) s st) as (r & s' & st' & E' & _ & _ & Hfmt & _).
    now rewrite E'.
  - destruct (Refresh_scanInternal w s st) as [E1 _].
    destruct (scanInternal_spec w s st) as (r & s' & st' & E' & _ & _ & Hfmt & _).
    rewrite E' in E1. destruct (Refresh w s st) as [[r0 s0] st0]. cbn [fst snd] in *.
    now subst.
Qed.

Lemma run_formats ops : forall w,
  supportedFormats (fst (run ops w)) = supportedFormats (fst w).
Proof.
  induction ops as [|op ops IH]; intros w; [reflexivity|].
  cbn [run fold_left]. change (fold_left _ ops (step op w)) with (run ops (step op w)).
  now rewrite IH, step_formats.
Qed.

Lemma paths_of_songs st (ps : list nat) (l : list models.Song) :
  map (deref st) ps = map Some l ->
  omap (fun p => models.FilePath <$> deref st p) ps = map models.FilePath l.
Proof.
  revert l. induction ps as [|p ps IH]; intros [|v l] E; try discriminate; [reflexivity|].
  cbn [map] in E. injection E as Ep Eps.
  cbn [omap list_omap map]. rewrite Ep. simpl. now rewrite (IH l).
Qed.

Lemma indexed_paths_mp3 vs :
  indexed_paths [".mp3"%string] vs = List.filter is_mp3 (file_paths vs).
Proof.
  induction vs as [|v vs IH]; [reflexivity|].
  cbn [indexed_paths file_paths]. destruct (entry v) as [| |path size meta]; try exact IH.
  cbn [List.filter]. unfold is_supported, is_mp3. cbn [existsb].
  change (gostrings.ToLower ".mp3") with ".mp3"%string. rewrite orb_false_r.
  destruct (String.eqb _ ".mp3"); now rewrite IH.
Qed.

(** C10.  A scanner built with an empty list of formats is the scanner
    built with the list [".mp3"]; and in whatever state its operations
    have left it, a successful walk indexes precisely the files whose
    lower-cased extension is [.mp3], in the order of the walk, and no
    other file. *)
Theorem empty_formats_index_mp3
    (dir : string) (ttl : Z) (st0 : Store) (ops : list Op) (w : WalkEnv)
    (a : nat) (s' : MusicScanner) (st' : Store) :
  scanInternal w (fst (run ops (NewMusicScanner dir [] ttl st0)))
                 (snd (run ops (NewMusicScanner dir [] ttl st0))) = (Ok a, s', st') ->
  NewMusicScanner dir [] ttl st0 = NewMusicScanner dir [".mp3"%string] ttl st0 /\
  paths_at st' a = List.filter is_mp3 (file_paths (visits w)).
Proof.
  intros E. split; [reflexivity|].
  set (s := fst (run ops (NewMusicScanner dir [] ttl st0))) in *.
  set (st := snd (run ops (NewMusicScanner dir [] ttl st0))) in *.
  assert (supportedFormats s = [".mp3"%string]) as Hf.
  { subst s. now rewrite run_formats. }
  destruct (scanInternal_spec w s st)
    as (r & s1 & st1 & E1 & _ & _ & _ & _ & _ & _ & _ & _ & Hs & Hr & _).
  rewrite E in E1. injection E1 as <- <- <-.
  destruct Hr as (-> & Hmiss & Hcomp & _).
  rewrite Hmiss, Hcomp, Hf in Hs. unfold paths_at.
  rewrite (paths_of_songs _ _ _ Hs), indexed_songs_paths.
  apply indexed_paths_mp3.
Qed.

(** *** The cache *)

Lemma Scan_ok_returns_sequence e s st a s' st' :
  Scan e s st = (Ok a, s', st') -> elems st' a = elems st' (songs s').
Proof.
  intros E. destruct (Scan_cases e s st) as [[_ E'] | (_ & _ & E')]; rewrite E' in E.
  - injection E as <- <- <-. unfold copy_slice, make_slice. cbn [snd].
    rewrite elems_insert.
    destruct (decide (songs s = next st)) as [Heq | Hne].
    + rewrite Heq. now rewrite elems_insert.
    + now rewrite elems_insert_ne.
  - destruct (scanInternal_spec (fs e) s st)
      as (r & s1 & st1 & E1 & _ & _ & _ & _ & _ & _ & _ & _ & _ & Hr & _).
    rewrite E in E1. injection E1 as <- <- <-. now destruct Hr as (-> & _).
Qed.

(** C6, as the code has it.  When a scan has returned a snapshot that is
    not empty and a second scan is called while the snapshot is younger
    than the TTL, the second scan returns the same entries (the same
    pointers to the same songs) in a new slice and leaves the scanner as
    it was, the time of the last scan included; it does not walk: its
    result does not depend on the file system it is given. *)
Theorem scan_within_ttl_is_cached
    (e1 e2 : ScanEnv) (s : MusicScanner) (st : Store)
    (a1 : nat) (s1 : MusicScanner) (st1 : Store) :
  Scan e1 s st = (Ok a1, s1, st1) ->
  elems st1 a1 <> [] ->
  gotime.Since (now_rlock e2) (lastScan s1) < cacheTTL s1 ->
  exists a2 st2,
    Scan e2 s1 st1 = (Ok a2, s1, st2) /\
    elems st2 a2 = elems st1 a1 /\
    songs_at st2 a2 = songs_at st1 a1 /\
    objs st2 = objs st1 /\
    forall e2', now_rlock e2' = now_rlock e2 -> Scan e2' s1 st1 = Scan e2 s1 st1.
Proof.
  intros E1 Hne Hyoung.
  pose proof (Scan_ok_returns_sequence _ _ _ _ _ _ E1) as Hseq.
  assert (cache_valid (now_rlock e2) s1 st1 = true) as Hvalid.
  { unfold cache_valid. apply andb_true_iff. split; [now apply Z.ltb_lt|].
    apply Z.ltb_lt. unfold len. rewrite <- Hseq.
    destruct (elems st1 a1); [contradiction | simpl; lia]. }
  assert (forall e, now_rlock e = now_rlock e2 ->
            Scan e s1 st1 = (Ok (next st1), s1, snd (copy_slice s1 st1))) as Hhit.
  { intros e He. unfold Scan, Scan_rlocked. rewrite He, Hvalid.
    reflexivity. }
  exists (next st1), (snd (copy_slice s1 st1)).
  split; [now apply Hhit|].
  assert (elems (snd (copy_slice s1 st1)) (next st1) = elems st1 a1) as Hel.
  { rewrite Hseq. unfold copy_slice, make_slice. cbn [snd]. now rewrite elems_insert. }
  split; [exact Hel|]. split; [|split; [reflexivity|]].
  - unfold songs_at. rewrite Hel. reflexivity.
  - intros e2' He. now rewrite (Hhit e2' He), (Hhit e2 eq_refl).
Qed.

(** *** What the readers of the index see *)

Import caller.

(** *** The invariant of every run *)

Lemma index_sound_agree s st st' :
  wf s st -> index_sound s st -> agree (next st) st st' -> index_sound s st'.
Proof.
  intros [Hs _] Hsound Hag id p Hl.
  rewrite (agree_elems _ _ _ _ Hag Hs). now apply (Hsound id).
Qed.

Lemma add_song_sound path size meta s st :
  wf s st -> index_sound s st ->
  index_sound (fst (add_song path size meta s st)) (snd (add_song path size meta s st)).
Proof.
  intros Hwf Hsound.
  destruct (add_song_spec path size meta s st Hwf)
    as (s1 & st1 & E & _ & _ & _ & Hmap & Hel & _).
  rewrite E. cbn [fst snd]. intros id p. rewrite Hmap, Hel, lookup_insert.
  case_decide.
  - intros [= <-]. apply elem_of_app. right. now left.
  - intros Hl. apply elem_of_app. left. now apply (Hsound id).
Qed.

Lemma Walk_sound vs : forall s st,
  wf s st -> index_sound s st ->
  index_sound (snd (fst (Walk vs s st))) (snd (Walk vs s st)).
Proof.
  induction vs as [|v vs IH]; intros s st Hwf Hsound; [exact Hsound|].
  destruct v as [done e]. cbn [Walk]. destruct done; [exact Hsound|].
  destruct e as [path msg | path | path size meta]; [exact Hsound | now apply IH |].
  rewrite walkFn_file. destruct (is_supported (supportedFormats s) path).
  - destruct (add_song_spec path size meta s st Hwf) as (s1 & st1 & E & Hwf1 & _).
    pose proof (add_song_sound path size meta s st Hwf Hsound) as Hs1.
    rewrite E in *. cbn [fst snd] in *. now apply IH.
  - now apply IH.
Qed.

Lemma scanInternal_sound w s st :
  wf (snd (fst (scanInternal w s st))) (snd (scanInternal w s st)) /\
  index_sound (snd (fst (scanInternal w s st))) (snd (scanInternal w s st)).
Proof.
  split.
  { destruct (scanInternal_spec w s st) as (r & s' & st' & E & Hwf & _).
    now rewrite E. }
  unfold scanInternal. cbn [make_slice].
  set (s0 := set_songIndex (set_songs s (next st)) ∅).
  set (st0 := mkStore (objs st) (<[next st := []]> (arrays st)) (S (next st))).
  assert (wf s0 st0) as Hwf0 by apply wf_fresh_slice.
  assert (index_sound s0 st0) as Hs0.
  { intros id p Hl. cbn in Hl. now rewrite lookup_empty in Hl. }
  destruct (dir_missing w); [exact Hs0|].
  pose proof (Walk_sound (visits w) s0 st0 Hwf0 Hs0) as H.
  destruct (Walk (visits w) s0 st0) as [[[e|] s1] st1]; exact H.
Qed.

Lemma step_sound op s st :
  wf s st -> index_sound s st ->
  wf (fst (step op (s, st))) (snd (step op (s, st))) /\
  index_sound (fst (step op (s, st))) (snd (step op (s, st))).
Proof.
  intros Hwf Hsound. destruct op as [e | w | | | id]; cbn [step].
  - destruct (Scan_cases e s st) as [[_ E] | (_ & _ & E)]; rewrite E.
    + destruct (copy_slice_agree s st) as (Hag & Hn & _). cbn [fst snd]. split.
      * apply (wf_agree s st _ Hwf Hag). lia.
      * now apply (index_sound_agree s st).
    + pose proof (scanInternal_sound (fs e) s st) as H.
      now destruct (scanInternal (fs e) s st) as [[r s'] st'].
  - pose proof (scanInternal_sound w s st) as H.
    destruct (Refresh_scanInternal w s st) as [E1 E2].
    destruct (Refresh w s st) as [[r s'] st']. cbn [fst snd] in *.
    now rewrite E1, E2.
  - destruct (GetSongs_agree s st) as [Hag Hn]. cbn [fst snd]. split.
    + apply (wf_agree s st _ Hwf Hag). lia.
    + now apply (index_sound_agree s st).
  - now split.
  - destruct (GetSongByID_agree id s st) as [Hag Hn]. cbn [fst snd]. split.
    + now apply (wf_agree s st _ Hwf Hag).
    + now apply (index_sound_agree s st).
Qed.

Lemma run_sound ops : forall s st,
  wf s st -> index_sound s st ->
  wf (fst (run ops (s, st))) (snd (run ops (s, st))) /\
  index_sound (fst (run ops (s, st))) (snd (run ops (s, st))).
Proof.
  induction ops as [|op ops IH]; intros s st Hwf Hsound; [now split|].
  cbn [run fold_left]. change (fold_left _ ops ?w) with (run ops w).
  destruct (step_sound op s st Hwf Hsound) as [Hwf' Hs'].
  destruct (step op (s, st)) as [s' st']. now apply IH.
Qed.

Lemma reachable_sound dir formats ttl st0 ops :
  wf (fst (run ops (NewMusicScanner dir formats ttl st0)))
     (snd (run ops (NewMusicScanner dir formats ttl st0))) /\
  index_sound (fst (run ops (NewMusicScanner dir formats ttl st0)))
              (snd (run ops (NewMusicScanner dir formats ttl st0))).
Proof.
  destruct (NewMusicScanner_inv dir formats ttl st0) as (_ & Hwf & [Hidx _]).
  destruct (NewMusicScanner dir formats ttl st0) as [s st]. cbn [fst snd] in *.
  apply run_sound; [exact Hwf|].
  intros id p Hl. now apply Hidx in Hl as [Hin _].
Qed.

(** *** The copies [GetSongs] and [GetSongByID] make *)

Lemma copy_songs_objs dst src : forall i st p,
  (p < next st)%nat -> objs (copy_songs dst i src st) !! p = objs st !! p.
Proof.
  induction src as [|song rest IH]; intros i st p Hp; [reflexivity|].
  cbn [copy_songs]. destruct (deref st song) as [v|]; [|now apply IH].
  cbn [new_song]. rewrite IH by (simpl; lia). simpl.
  rewrite lookup_insert_ne; [reflexivity | lia].
Qed.

Lemma copy_songs_other dst src : forall i st b,
  b <> dst -> arrays (copy_songs dst i src st) !! b = arrays st !! b.
Proof.
  induction src as [|song rest IH]; intros i st b Hb; [reflexivity|].
  cbn [copy_songs]. destruct (deref st song) as [v|]; [|now apply IH].
  cbn [new_song]. rewrite IH by assumption. simpl.
  now rewrite lookup_insert_ne.
Qed.

Lemma deref_objs st st' p : objs st' !! p = objs st !! p -> deref st' p = deref st p.
Proof. intros H. unfold deref. now rewrite H. Qed.

(** The loop of [GetSongs] fills the slots from [i] on with pointers to
    new songs equal to the songs of the source. *)
Lemma copy_songs_spec dst src : forall i st pre,
  elems st dst = pre ++ repeat nilptr (length src) ->
  length pre = i ->
  (forall p, p ∈ src -> (p < next st)%nat /\ exists v, deref st p = Some v) ->
  (0 < next st)%nat ->
  exists news,
    elems (copy_songs dst i src st) dst = pre ++ news /\
    length news = length src /\
    map (deref (copy_songs dst i src st)) news = map (deref st) src /\
    Forall (fun q => (next st <= q)%nat) news.
Proof.
  induction src as [|song rest IH]; intros i st pre Hel Hlen Hsrc Hpos.
  - exists []. cbn [copy_songs]. repeat split; [exact Hel | constructor].
  - cbn [copy_songs].
    destruct (Hsrc song ltac:(left)) as [Hlt [v Hv]]. rewrite Hv.
    cbn [new_song].
    set (st1 := mkStore (<[next st := v]> (objs st)) (arrays st) (S (next st))).
    set (st2 := set_elem st1 dst i (next st)).
    assert (elems st2 dst = (pre ++ [next st]) ++ repeat nilptr (length rest)) as Hel2.
    { subst st2. unfold set_elem. rewrite elems_insert.
      change (elems st1 dst) with (elems st dst). rewrite Hel.
      cbn [length repeat]. rewrite <- Hlen.
      rewrite <- (Nat.add_0_r (length pre)), insert_app_r. cbn [list_insert insert].
      now rewrite <- app_assoc. }
    assert (forall p, (p < next st)%nat -> deref st2 p = deref st p) as Hold.
    { intros p Hp. apply deref_objs. simpl. rewrite lookup_insert_ne; [reflexivity | lia]. }
    assert (deref st2 (next st) = Some v) as Hnew.
    { unfold deref. simpl. destruct (Nat.eqb_spec (next st) nilptr) as [E|_].
      - unfold nilptr in E. lia.
      - now rewrite lookup_insert_eq. }
    destruct (IH (S i) st2 (pre ++ [next st]) Hel2) as (news & He & Hl & Hm & Hge).
    { rewrite length_app. simpl. lia. }
    { intros p Hp. destruct (Hsrc p ltac:(now right)) as [Hplt [w Hw]].
      split; [simpl; lia|]. exists w. now rewrite Hold. }
    { simpl. lia. }
    exists (next st :: news). split; [rewrite He; now rewrite <- app_assoc|].
    split; [simpl; now rewrite Hl|]. split.
    + cbn [map]. f_equal.
      * rewrite Hv, <- Hnew. apply deref_objs. apply copy_songs_objs. simpl. lia.
      * rewrite Hm. apply map_ext_in. intros p Hp. apply Hold.
        apply (Hsrc p). right. now apply list_elem_of_In.
    + constructor; [lia|]. eapply Forall_impl; [exact Hge|]. simpl. intros q Hq. lia.
Qed.

(** [GetSongs] returns a new slice of new songs that are equal, one by
    one, to the songs of the sequence. *)
Lemma GetSongs_spec s st :
  wf s st ->
  fst (GetSongs s st) = next st /\
  songs_at (snd (GetSongs s st)) (fst (GetSongs s st)) = songs_at st (songs s) /\
  Forall (fun q => (next st < q)%nat) (elems (snd (GetSongs s st)) (fst (GetSongs s st))).
Proof.
  intros [Hs Hp]. unfold GetSongs. cbn [make_slice fst snd].
  set (src := elems st (songs s)).
  set (st1 := mkStore (objs st) (<[next st := repeat nilptr (length src)]> (arrays st))
                (S (next st))).
  destruct (copy_songs_spec (next st) src 0 st1 []) as (news & He & Hl & Hm & Hge).
  - subst st1. now rewrite elems_insert.
  - reflexivity.
  - intros p Hin. destruct (Hp p Hin) as [Hlt Hv]. split; [simpl; lia | exact Hv].
  - simpl. lia.
  - split; [reflexivity|]. unfold songs_at. rewrite He. cbn [app]. split.
    + rewrite Hm. reflexivity.
    + eapply Forall_impl; [exact Hge|]. simpl. intros q Hq. lia.
Qed.

(** The list of the index is its sequence, by value. *)
Lemma list_view_eq s st : wf s st -> list_view s st = songs_at st (songs s).
Proof.
  intros Hwf. unfold list_view.
  destruct (GetSongs_spec s st Hwf) as (_ & H & _).
  now destruct (GetSongs s st).
Qed.

(** The lookup of the index reads its mapping and copies the song. *)
Lemma lookup_view_eq id s st :
  wf s st -> lookup_view id s st = songIndex s !! id ≫= deref st.
Proof.
  intros [Hs _]. unfold lookup_view, GetSongByID.
  destruct (songIndex s !! id) as [p|]; [|reflexivity]. cbn [mbind option_bind].
  destruct (deref st p) as [v|] eqn:E; [|reflexivity].
  apply deref_new_song. lia.
Qed.

(** *** Stores that agree show the same index *)

Lemma agree_write_song n st p v : (n <= p)%nat -> agree n st (write_song st p v).
Proof.
  intros Hn. split; intros x Hx; simpl; [|reflexivity].
  rewrite lookup_insert_ne; [reflexivity | lia].
Qed.

Lemma views_agree s st st' :
  wf s st -> index_sound s st -> agree (next st) st st' -> (next st <= next st')%nat ->
  list_view s st' = list_view s st /\
  count_view s st' = count_view s st /\
  forall id, lookup_view id s st' = lookup_view id s st.
Proof.
  intros Hwf Hsound Hag Hle. pose proof (wf_agree s st st' Hwf Hag Hle) as Hwf'.
  destruct Hwf as [Hs Hp].
  assert (elems st' (songs s) = elems st (songs s)) as Hel
    by exact (agree_elems _ _ _ _ Hag Hs).
  assert (forall p, p ∈ elems st (songs s) -> deref st' p = deref st p) as Hd.
  { intros p Hin. apply (agree_deref _ _ _ _ Hag). now apply Hp. }
  split; [|split].
  - rewrite !list_view_eq by (assumption || now split). now apply songs_at_ext.
  - unfold count_view, GetSongCount, len. now rewrite Hel.
  - intros id. rewrite !lookup_view_eq by (assumption || now split).
    destruct (songIndex s !! id) as [p|] eqn:E; [|reflexivity].
    cbn [mbind option_bind]. apply Hd. now apply (Hsound id).
Qed.

Lemma mutations_agree n ret held ms : forall st,
  (n <= ret)%nat -> Forall (fun q => (n <= q)%nat) held ->
  agree n st (mutations ret held ms st) /\ next (mutations ret held ms st) = next st.
Proof.
  induction ms as [|m ms IH]; intros st Hret Hheld.
  - split; [apply agree_refl | reflexivity].
  - cbn [mutations fold_left]. change (fold_left _ ms ?x) with (mutations ret held ms x).
    assert (agree n st (mutate ret held m st) /\ next (mutate ret held m st) = next st)
      as [Hag Hn].
    { destruct m as [i p | i v]; cbn [mutate].
      - destruct (i <? length (elems st ret))%nat.
        + split; [now apply agree_set_elem | reflexivity].
        + split; [apply agree_refl | reflexivity].
      - destruct (held !! i) as [q|] eqn:E.
        + destruct (q =? nilptr)%nat.
          * split; [apply agree_refl | reflexivity].
          * split; [|reflexivity]. apply agree_write_song.
            apply (proj1 (Forall_forall _ _) Hheld q).
            apply list_elem_of_lookup. now exists i.
        + split; [apply agree_refl | reflexivity]. }
    destruct (IH (mutate ret held m st) Hret Hheld) as [Hag' Hn'].
    split; [eapply agree_trans; eassumption | congruence].
Qed.

(** X1.  The collection [GetSongs] returns is a defensive copy.  In any
    state the index can reach, the returned slice holds, by value and in
    order, the songs of the sequence of the index, behind pointers that
    are none of the index's own.  Whatever the caller then does with the
    returned slice (overwriting its elements) and with the songs it points
    to (writing through the returned pointers), the sequence of the index
    holds the same songs, a later [GetSongs] returns them again, and the
    count and every lookup of the index are as before. *)
Theorem GetSongs_is_defensive_copy
    (dir : string) (formats : list string) (ttl : Z) (st0 : Store) (ops : list Op)
    (ms : list Mutation) :
  let s := fst (run ops (NewMusicScanner dir formats ttl st0)) in
  let st := snd (run ops (NewMusicScanner dir formats ttl st0)) in
  let a := fst (GetSongs s st) in
  let st1 := snd (GetSongs s st) in
  let st2 := mutations a (elems st1 a) ms st1 in
  songs_at st1 a = songs_at st (songs s) /\
  Forall (fun q => q ∉ elems st (songs s)) (elems st1 a) /\
  songs_at st2 (songs s) = songs_at st (songs s) /\
  songs_at (snd (GetSongs s st2)) (fst (GetSongs s st2)) = songs_at st (songs s) /\
  GetSongCount s st2 = Z.of_nat (length (songs_at st (songs s))) /\
  forall id, lookup_view id s st2 = songIndex s !! id ≫= deref st.
Proof.
  intros s st a st1 st2.
  destruct (reachable_sound dir formats ttl st0 ops) as [Hwf Hsound].
  fold s st in Hwf, Hsound.
  destruct (GetSongs_spec s st Hwf) as (Ha & Hsongs & Hnew).
  destruct (GetSongs_agree s st) as [Hag1 Hn1].
  fold a st1 in Ha, Hsongs, Hnew, Hag1, Hn1.
  split; [exact Hsongs|].
  split.
  { eapply Forall_impl; [exact Hnew|]. cbn beta. intros q Hq Hin.
    destruct Hwf as [_ Hp]. destruct (Hp q Hin) as [Hlt _]. lia. }
  destruct (mutations_agree (next st) a (elems st1 a) ms st1) as [Hag2 Hn2].
  { lia. }
  { eapply Forall_impl; [exact Hnew|]. simpl. intros q Hq. lia. }
  fold st2 in Hag2, Hn2.
  assert (agree (next st) st st2) as Hag by (eapply agree_trans; eassumption).
  assert (next st <= next st2)%nat as Hle by lia.
  pose proof (wf_agree s st st2 Hwf Hag Hle) as Hwf2.
  destruct (views_agree s st st2 Hwf Hsound Hag Hle) as (Hl & Hc & Hlk).
  rewrite !list_view_eq in Hl by assumption.
  split; [exact Hl|]. split.
  { destruct (GetSongs_spec s st2 Hwf2) as (_ & H2 & _). now rewrite H2. }
  split.
  { unfold count_view in Hc. rewrite Hc. unfold GetSongCount, len, songs_at.
    now rewrite length_map. }
  intros id. rewrite Hlk. now apply lookup_view_eq.
Qed.

(** X2.  The song [GetSongByID] returns is a copy: in any state the index
    can reach, a write through the returned pointer changes neither the
    list, nor the count, nor any lookup of the index; and the song handed
    out is the one the mapping holds for the identifier ([nil] when the
    identifier is unknown). *)
Theorem GetSongByID_returns_copy
    (dir : string) (formats : list string) (ttl : Z) (st0 : Store) (ops : list Op)
    (id : string) (v : models.Song) :
  let s := fst (run ops (NewMusicScanner dir formats ttl st0)) in
  let st := snd (run ops (NewMusicScanner dir formats ttl st0)) in
  let p := fst (GetSongByID id s st) in
  let st1 := snd (GetSongByID id s st) in
  let st2 := write_through p v st1 in
  deref st1 p = songIndex s !! id ≫= deref st /\
  (songIndex s !! id = None -> p = nilptr) /\
  list_view s st2 = list_view s st /\
  count_view s st2 = count_view s st /\
  forall id', lookup_view id' s st2 = lookup_view id' s st.
Proof.
  intros s st p st1 st2.
  destruct (reachable_sound dir formats ttl st0 ops) as [Hwf Hsound].
  fold s st in Hwf, Hsound.
  split.
  { rewrite <- (lookup_view_eq id s st Hwf). unfold lookup_view. subst p st1.
    now destruct (GetSongByID id s st). }
  split.
  { intros Hnone. subst p. unfold GetSongByID. now rewrite Hnone. }
  destruct (GetSongByID_agree id s st) as [Hag1 Hn1]. fold st1 in Hag1, Hn1.
  assert (p = nilptr \/ p = next st) as Hp.
  { subst p. unfold GetSongByID. destruct (songIndex s !! id) as [q|]; [|now left].
    destruct (deref st q); [now right | now left]. }
  assert (agree (next st) st1 st2 /\ next st2 = next st1) as [Hag2 Hn2].
  { subst st2. unfold write_through. destruct (p =? nilptr)%nat eqn:E.
    - split; [apply agree_refl | reflexivity].
    - split; [|reflexivity]. apply agree_write_song.
      destruct Hp as [-> | ->]; [discriminate E | lia]. }
  apply views_agree; try assumption.
  - eapply agree_trans; eassumption.
  - lia.
Qed.

(** *** What a scan indexes *)

Lemma indexed_paths_filter formats vs :
  indexed_paths formats vs = List.filter (is_supported formats) (file_paths vs).
Proof.
  induction vs as [|v vs IH]; [reflexivity|].
  cbn [indexed_paths file_paths]. destruct (entry v) as [| |path size meta]; try exact IH.
  cbn [List.filter]. destruct (is_supported formats path); now rewrite IH.
Qed.

(** A successful walk, from any state: the songs of the new sequence and
    the time of the last scan. *)
Lemma scanInternal_ok w s st a s' st' :
  scanInternal w s st = (Ok a, s', st') ->
  wf s' st' /\ a = songs s' /\
  songs_at st' a = map Some (indexed_songs (supportedFormats s) (visits w)) /\
  lastScan s' = Some (now_done w).
Proof.
  intros E.
  destruct (scanInternal_spec w s st)
    as (r & s1 & st1 & E1 & Hwf & _ & _ & _ & _ & _ & _ & _ & Hs & Hr & _).
  rewrite E in E1. injection E1 as <- <- <-.
  destruct Hr as (-> & Hmiss & Hcomp & Hl). rewrite Hmiss, Hcomp in Hs.
  split; [exact Hwf|]. split; [reflexivity|]. split; [exact Hs | exact Hl].
Qed.

(** X3.  A successful walk indexes exactly the files whose lower-cased
    extension equals the lower-cased form of one of the configured
    formats, once each and in the order of the walk; directories and
    other files are left out.  The slice returned, the list and the count
    of the index all show these songs. *)
Theorem scan_indexes_supported_files
    (w : WalkEnv) (s : MusicScanner) (st : Store)
    (a : nat) (s' : MusicScanner) (st' : Store) :
  scanInternal w s st = (Ok a, s', st') ->
  songs_at st' a = map Some (indexed_songs (supportedFormats s) (visits w)) /\
  list_view s' st' = songs_at st' a /\
  paths_at st' a =
    List.filter (is_supported (supportedFormats s)) (file_paths (visits w)) /\
  count_view s' st' =
    Z.of_nat (length (List.filter (is_supported (supportedFormats s))
                        (file_paths (visits w)))).
Proof.
  intros E. destruct (scanInternal_ok _ _ _ _ _ _ E) as (Hwf & -> & Hs & _).
  split; [exact Hs|]. split; [now apply list_view_eq|].
  assert (paths_at st' (songs s') =
          List.filter (is_supported (supportedFormats s)) (file_paths (visits w))) as Hp.
  { unfold paths_at. rewrite (paths_of_songs _ _ _ Hs), indexed_songs_paths.
    apply indexed_paths_filter. }
  split; [exact Hp|].
  unfold count_view, GetSongCount, len. f_equal.
  rewrite <- indexed_paths_filter, <- indexed_songs_paths, length_map.
  unfold songs_at in Hs. apply (f_equal (@length _)) in Hs.
  now rewrite !length_map in Hs.
Qed.

Lemma songs_at_members st (ps : list nat) (l : list models.Song) :
  map (deref st) ps = map Some l ->
  (forall p, p ∈ ps -> exists v, In v l /\ deref st p = Some v) /\
  (forall v, In v l -> exists p, p ∈ ps /\ deref st p = Some v).
Proof.
  intros E. split.
  - intros p Hp. apply list_elem_of_In in Hp.
    assert (In (deref st p) (map Some l)) as Hin by (rewrite <- E; now apply in_map).
    apply in_map_iff in Hin as (v & Hv & Hl). now exists v.
  - intros v Hv.
    assert (In (Some v) (map (deref st) ps)) as Hin by (rewrite E; now apply in_map).
    apply in_map_iff in Hin as (p & Hp & Hl). exists p.
    split; [now apply list_elem_of_In | exact Hp].
Qed.

(** X4.  After a successful walk over files with distinct identifiers,
    the lookup of an identifier returns the song of the indexed file that
    has this identifier, and [nil] when no indexed file has it. *)
Theorem lookup_after_scan
    (w : WalkEnv) (s : MusicScanner) (st : Store)
    (a : nat) (s' : MusicScanner) (st' : Store) (id : string) :
  scanInternal w s st = (Ok a, s', st') ->
  NoDup (map models.generateID (indexed_paths (supportedFormats s) (visits w))) ->
  lookup_view id s' st' =
    List.find (fun v => String.eqb (models.ID v) id)
      (indexed_songs (supportedFormats s) (visits w)).
Proof.
  intros E Hnd.
  destruct (scanInternal_spec w s st)
    as (r & s1 & st1 & E1 & Hwf & _ & _ & _ & _ & _ & _ & _ & Hs & Hr & Hi).
  rewrite E in E1. injection E1 as <- <- <-.
  destruct Hr as (-> & Hmiss & Hcomp & _). rewrite Hmiss, Hcomp in Hs.
  destruct (Hi Hnd) as [Hidx _].
  destruct (songs_at_members _ _ _ Hs) as [Hfwd Hbwd].
  rewrite (lookup_view_eq id s' st' Hwf).
  destruct (List.find _ _) as [v|] eqn:Ef.
  - apply find_some in Ef as [Hin Hid]. apply String.eqb_eq in Hid.
    destruct (Hbwd v Hin) as (p & Hp & Hv).
    assert (songIndex s' !! id = Some p) as Hl.
    { apply Hidx. split; [exact Hp|]. now rewrite Hv, <- Hid. }
    rewrite Hl. exact Hv.
  - destruct (songIndex s' !! id) as [p|] eqn:El; [|reflexivity]. exfalso.
    apply Hidx in El as [Hp Hid]. destruct (Hfwd p Hp) as (v & Hin & Hv).
    rewrite Hv in Hid. injection Hid as Hid.
    pose proof (find_none _ _ Ef v Hin) as Hne. cbn beta in Hne.
    apply String.eqb_neq in Hne. contradiction.
Qed.

(** X5.  Once the TTL has elapsed at both checks, [Scan] walks again
    whatever the cache holds: it is [scanInternal], and on success it
    returns the songs of the new walk and sets the time of the last scan
    to the end of that walk. *)
Theorem stale_cache_is_rescanned (e : ScanEnv) (s : MusicScanner) (st : Store) :
  cacheTTL s <= gotime.Since (now_rlock e) (lastScan s) ->
  cacheTTL s <= gotime.Since (now_lock e) (lastScan s) ->
  Scan e s st = scanInternal (fs e) s st /\
  forall a s' st',
    Scan e s st = (Ok a, s', st') ->
    songs_at st' a = map Some (indexed_songs (supportedFormats s) (visits (fs e))) /\
    lastScan s' = Some (now_done (fs e)).
Proof.
  intros H1 H2.
  assert (Scan e s st = scanInternal (fs e) s st) as E.
  { unfold Scan, Scan_rlocked, Scan_locked, cache_valid.
    rewrite (proj2 (Z.ltb_ge _ _) H1), (proj2 (Z.ltb_ge _ _) H2). reflexivity. }
  split; [exact E|]. intros a s' st' Hok. rewrite E in Hok.
  destruct (scanInternal_ok _ _ _ _ _ _ Hok) as (_ & _ & Hs & Hl). now split.
Qed.

(** X6.  [Refresh] walks whatever the age of the cache: it reports the
    error of [scanInternal] or none, and after a successful refresh the
    list of the index is the songs of the new walk and the time of the
    last scan is the end of that walk. *)
Theorem refresh_ignores_ttl
    (w : WalkEnv) (s : MusicScanner) (st : Store) (s' : MusicScanner) (st' : Store) :
  Refresh w s st = (None, s', st') ->
  (exists a, scanInternal w s st = (Ok a, s', st')) /\
  list_view s' st' = map Some (indexed_songs (supportedFormats s) (visits w)) /\
  lastScan s' = Some (now_done w).
Proof.
  intros E. unfold Refresh in E.
  destruct (scanInternal w s st) as [[[a|err] s1] st1] eqn:Es; [|discriminate E].
  injection E as <- <-.
  split; [now exists a|].
  destruct (scanInternal_ok _ _ _ _ _ _ Es) as (Hwf & -> & Hs & Hl).
  split; [now rewrite list_view_eq | exact Hl].
Qed.

(** *** Failures *)

Lemma Walk_first_failure vs : forall s st,
  fst (fst (Walk vs s st)) = first_failure vs.
Proof.
  induction vs as [|v vs IH]; intros s st; [reflexivity|].
  destruct v as [done e]. cbn [Walk first_failure ctx_done entry].
  destruct done; [reflexivity|].
  destruct e as [path msg | path | path size meta]; [reflexivity | apply IH |].
  rewrite walkFn_file.
  destruct (is_supported (supportedFormats s) path); apply IH.
Qed.

Lemma scanInternal_result w s st :
  fst (fst (scanInternal w s st)) =
    (if dir_missing w then Err (DirectoryNotFound (directory s))
     else match first_failure (visits w) with
          | Some e => Err (WalkFailed e)
          | None => Ok (next st)
          end).
Proof.
  destruct (scanInternal_spec w s st)
    as (r & s' & st' & E & _ & _ & _ & _ & Hsongs & _).
  unfold scanInternal in *. cbn [make_slice] in *.
  destruct (dir_missing w); [reflexivity|].
  rewrite <- (Walk_first_failure (visits w)
                (set_songIndex (set_songs s (next st)) ∅)
                (mkStore (objs st) (<[next st := []]> (arrays st)) (S (next st)))).
  destruct (Walk (visits w) _ _) as [[[e|] s1] st1]; [reflexivity|].
  injection E as <- <- <-. cbn [fst]. f_equal. exact Hsongs.
Qed.

(** X7.  The outcome of a walk is decided by the root and by the first
    visit that fails: a missing root gives "directory not found"; else the
    first visit that sees the context cancelled or is handed an error
    stops the walk with that error; else the scan succeeds and returns a
    new slice.  [Refresh] reports the same error. *)
Theorem scan_outcome (w : WalkEnv) (s : MusicScanner) (st : Store) :
  fst (fst (scanInternal w s st)) =
    (if dir_missing w then Err (DirectoryNotFound (directory s))
     else match first_failure (visits w) with
          | Some e => Err (WalkFailed e)
          | None => Ok (next st)
          end) /\
  fst (fst (Refresh w s st)) =
    (if dir_missing w then Some (DirectoryNotFound (directory s))
     else option_map WalkFailed (first_failure (visits w))).
Proof.
  pose proof (scanInternal_result w s st) as H.
  split; [exact H|].
  unfold Refresh. destruct (scanInternal w s st) as [[[a|e] s1] st1]; cbn [fst] in *.
  - destruct (dir_missing w); [discriminate H|].
    destruct (first_failure (visits w)); [discriminate H | reflexivity].
  - destruct (dir_missing w); [now injection H as ->|].
    destruct (first_failure (visits w)); [now injection H as -> | discriminate H].
Qed.

(** *** A new scanner *)

(** X8.  A scanner just built is empty: the list is empty, the count is
    0, every lookup returns [nil], and its first [Scan] always walks.  Its
    TTL is five minutes when the configured number of minutes is not
    positive, and the configured number of minutes otherwise (up to the
    24 hours the configuration allows). *)
Theorem new_scanner_is_empty
    (dir : string) (formats : list string) (ttl : Z) (st0 : Store) :
  let s := fst (NewMusicScanner dir formats ttl st0) in
  let st := snd (NewMusicScanner dir formats ttl st0) in
  list_view s st = [] /\ count_view s st = 0 /\
  (forall id, lookup_view id s st = None) /\
  (forall e, Scan e s st = scanInternal (fs e) s st) /\
  (ttl <= 0 -> cacheTTL s = 5 * gotime.Minute) /\
  (0 < ttl <= 1440 -> cacheTTL s = ttl * gotime.Minute).
Proof.
  intros s st.
  destruct (NewMusicScanner_inv dir formats ttl st0) as (_ & Hwf & _).
  fold s st in Hwf.
  assert (elems st (songs s) = []) as Hel.
  { subst s st. unfold NewMusicScanner. cbn [make_slice fst snd songs].
    now rewrite elems_insert. }
  split; [rewrite list_view_eq by assumption; unfold songs_at; now rewrite Hel|].
  split; [unfold count_view, GetSongCount, len; now rewrite Hel|].
  split; [intros id; now rewrite lookup_view_eq by assumption|].
  split.
  { intros e. unfold Scan, Scan_rlocked, Scan_locked, cache_valid, len.
    rewrite Hel. cbn [length]. rewrite !andb_false_r. reflexivity. }
  split.
  - intros Hle. subst s. unfold NewMusicScanner. cbn [make_slice fst cacheTTL].
    rewrite (proj2 (Z.leb_le ttl 0) Hle). reflexivity.
  - intros Hr. subst s. unfold NewMusicScanner. cbn [make_slice fst cacheTTL].
    rewrite (proj2 (Z.leb_gt ttl 0)) by lia.
    apply lib_facts.wrap64_small.
    unfold strconv.minInt64, strconv.maxInt64, gotime.Minute. lia.
Qed.

(** *** Snapshots handed out earlier *)

Lemma step_preserves op s st :
  (next st <= next (snd (step op (s, st))))%nat /\
  (forall b, (b < next st)%nat -> elems (snd (step op (s, st))) b = elems st b) /\
  (forall q, (q < next st)%nat -> deref (snd (step op (s, st))) q = deref st q).
Proof.
  assert (forall st', agree (next st) st st' -> (next st <= next st')%nat ->
            (next st <= next st')%nat /\
            (forall b, (b < next st)%nat -> elems st' b = elems st b) /\
            (forall q, (q < next st)%nat -> deref st' q = deref st q)) as Hag.
  { intros st' H Hle. split; [exact Hle|]. split; intros x Hx.
    - now apply (agree_elems _ _ _ _ H).
    - now apply (agree_deref _ _ _ _ H). }
  assert (forall w,
            (next st <= next (snd (scanInternal w s st)))%nat /\
            (forall b, (b < next st)%nat -> elems (snd (scanInternal w s st)) b = elems st b) /\
            (forall q, (q < next st)%nat -> deref (snd (scanInternal w s st)) q = deref st q))
    as Hscan.
  { intros w. destruct (scanInternal_spec w s st)
      as (r & s' & st' & E & _ & _ & _ & _ & _ & Hn & Hd & Ha & _).
    rewrite E. cbn [snd]. split; [lia|]. now split. }
  destruct op as [e | w | | | id]; cbn [step].
  - destruct (Scan_cases e s st) as [[_ E] | (_ & _ & E)]; rewrite E.
    + destruct (copy_slice_agree s st) as (H & Hn & _). cbn [snd]. apply Hag; [exact H | lia].
    + specialize (Hscan (fs e)).
      now destruct (scanInternal (fs e) s st) as [[r s'] st'].
  - destruct (Refresh_scanInternal w s st) as [_ E2]. specialize (Hscan w).
    destruct (Refresh w s st) as [[r s'] st']. cbn [snd] in *. now rewrite E2.
  - destruct (GetSongs_agree s st) as [H Hn]. cbn [snd]. apply Hag; [exact H | lia].
  - cbn [snd]. apply Hag; [apply agree_refl | lia].
  - destruct (GetSongByID_agree id s st) as [H Hn]. cbn [snd]. now apply Hag.
Qed.

(** X9.  No operation of the index writes to what exists already: after
    any run of scans, refreshes and reads, every slice and every song that
    was in the store before is unchanged, so a snapshot handed to a
    caller stays as it was while the index is replaced. *)
Theorem operations_preserve_existing (ops : list Op) :
  forall (s : MusicScanner) (st : Store),
  (next st <= next (snd (run ops (s, st))))%nat /\
  (forall b, (b < next st)%nat -> elems (snd (run ops (s, st))) b = elems st b) /\
  (forall q, (q < next st)%nat -> deref (snd (run ops (s, st))) q = deref st q).
Proof.
  induction ops as [|op ops IH]; intros s st.
  - cbn. repeat split; lia.
  - cbn [run fold_left]. change (fold_left _ ops ?w) with (run ops w).
    destruct (step_preserves op s st) as (Hn1 & Ha1 & Hd1).
    destruct (step op (s, st)) as [s1 st1]. cbn [snd] in *.
    destruct (IH s1 st1) as (Hn2 & Ha2 & Hd2).
    split; [lia|]. split; intros x Hx.
    + rewrite Ha2 by lia. now apply Ha1.
    + rewrite Hd2 by lia. now apply Hd1.
Qed.

End index_facts.

(** ** The claims at concrete inputs *)

Module evidence.

Import store services handlers index_props samples.

Ltac evaluated :=
  vm_compute;
  repeat match goal with
         | |- _ /\ _ => split
         | |- exists _, _ => eexists
         | |- _ = _ => reflexivity
         end.

(** C1.  A failed refresh does not leave the index as it was.  With two
    songs indexed: when the root directory is gone the refresh fails and
    the index is empty afterwards (count 0, the lookup of [a.mp3] finds
    nothing); when the walk fails after [a.mp3], or the context is
    cancelled there, the index holds that one song only, the time of the
    last scan is the old one, and a scan within the TTL then returns this
    partial sequence as a cache hit. *)
Theorem failed_refresh_replaces_snapshot :
  let '(s, st) := populated in
  count_view s st = 2 /\
  (models.FilePath <$> lookup_view id_a s st) = Some "/music/a.mp3"%string /\
  (models.FilePath <$> lookup_view id_b s st) = Some "/music/b.MP3"%string /\
  (let '(r, s1, st1) := Refresh walk_missing s st in
   r = Some (DirectoryNotFound "/music") /\
   count_view s1 st1 = 0 /\ list_view s1 st1 = [] /\ lookup_view id_a s1 st1 = None) /\
  (let '(r, s1, st1) := Refresh walk_denied s st in
   r = Some (WalkFailed (FsErr "permission denied")) /\
   count_view s1 st1 = 1 /\ lookup_view id_b s1 st1 = None /\
   lastScan s1 = lastScan s /\
   let '(r2, _, st2) := Scan (mkScanEnv 250 251 walk_ab) s1 st1 in
   returned_paths st2 (returned r2) = Some ["/music/a.mp3"%string]) /\
  (let '(r, s1, st1) := Refresh walk_cancelled s st in
   r = Some (WalkFailed ContextErr) /\
   count_view s1 st1 = 1 /\ lookup_view id_b s1 st1 = None).
Proof.
  evaluated.
Qed.

(** C7.  The slice a cache-hit scan returns shares its songs with the
    index: after the caller writes the path of the first song through the
    returned pointer, the lookup and the list of the index show the new
    path.  The same write through the slice [GetSongs] returns changes
    nothing in the index. *)
Theorem scan_cache_hit_shares_songs :
  let '(s, st) := populated in
  let '(r, s1, st1) := Scan (mkScanEnv 110 111 walk_ab) s st in
  let p := first_of st1 (returned r) in
  returned_paths st1 (returned r) = Some ["/music/a.mp3"; "/music/b.MP3"]%string /\
  s1 = s /\
  (models.FilePath <$> lookup_view id_a s1 st1) = Some "/music/a.mp3"%string /\
  (let st2 := retarget st1 p "/etc/passwd" in
   (models.FilePath <$> lookup_view id_a s1 st2) = Some "/etc/passwd"%string /\
   paths_at (snd (GetSongs s1 st2)) (fst (GetSongs s1 st2)) =
     ["/etc/passwd"; "/music/b.MP3"]%string) /\
  (let '(b, st3) := GetSongs s st in
   let q := first_of st3 (Some b) in
   let st4 := retarget st3 q "/etc/passwd" in
   paths_at st4 b = ["/etc/passwd"; "/music/b.MP3"]%string /\
   (models.FilePath <$> lookup_view id_a s st4) = Some "/music/a.mp3"%string /\
   paths_at (snd (GetSongs s st4)) (fst (GetSongs s st4)) =
     ["/music/a.mp3"; "/music/b.MP3"]%string).
Proof.
  evaluated.
Qed.

(** C2.  The containment check is a comparison of strings: with the root
    [/music], a song whose path is [/music2/secret.mp3] lies outside the
    root, yet the root is a prefix of its path, and [StreamAudio] opens
    the file and answers 200 with its bytes. *)
Theorem sibling_directory_is_streamed :
  let '(r, effs, h, st) :=
    StreamAudio sibling_handler os_files
      (mkRequest id_secret EmptyString (mkScanEnv 90 95 walk_sibling)) (snd sibling) in
  musicDirAbs h = "/music"%string /\
  stated.within_root (musicDirAbs h) "/music2/secret.mp3" = false /\
  gostrings.HasPrefix "/music2/secret.mp3" (musicDirAbs h) = true /\
  status r = StatusOK /\ body r = BodyBytes payload /\
  effs = [EffScan; EffAbs "/music2/secret.mp3"; EffStat "/music2/secret.mp3";
          EffOpen "/music2/secret.mp3"]%string.
Proof. evaluated. Qed.

(** C5 as stated fails: the range [bytes=-10-20], with a negative start,
    is answered 400 and not 416. *)
Lemma negative_range_is_bad_request : ~ stated.unsatisfiable_range_gives_416.
Proof.
  intros H.
  specialize (H handler os_files payload 11 (Some (-10)) (Some 20) "a.mp3"%string).
  assert (status (serveRange handler os_files blank payload 11
                    (range_header (Some (-10)) (Some 20)) "a.mp3") = 400) as E
    by (vm_compute; reflexivity).
  rewrite H in E.
  - discriminate E.
  - unfold strconv.maxInt64. lia.
  - simpl. unfold strconv.minInt64, strconv.maxInt64. lia.
  - simpl. unfold strconv.minInt64, strconv.maxInt64. lia.
  - left. simpl. lia.
Qed.

(** C6 as stated fails: after a scan of an empty directory a second scan
    within the TTL walks again, returns the song that has appeared and
    moves the time of the last scan. *)
Lemma empty_snapshot_is_rescanned : ~ stated.scan_within_ttl_is_idempotent.
Proof.
  intros H.
  pose (e1 := mkScanEnv 90 95 walk_empty).
  pose (e2 := mkScanEnv 120 121 walk_a).
  pose (r1 := Scan e1 (fst fresh) (snd fresh)).
  specialize (H e1 e2 (fst fresh) (snd fresh) 2%nat (snd (fst r1)) (snd r1)).
  destruct H as (a2 & s2 & st2 & E & Hsame & Hlast).
  - vm_compute. reflexivity.
  - vm_compute. reflexivity.
  - vm_compute. reflexivity.
  - vm_compute in E. injection E as <- <- <-. vm_compute in Hlast. discriminate Hlast.
Qed.

End evidence.

(** ** The theorems at work on sample inputs *)

Module witnesses.

Import store services handlers index_props samples.

Lemma StreamAudio_malformed_id_witness :
  ~ spec.is_id_format "abc" /\
  status (fst (fst (fst (StreamAudio handler os_files
                           (mkRequest "abc" EmptyString (mkScanEnv 90 95 walk_ab))
                           (snd fresh))))) = StatusBadRequest.
Proof.
  assert (~ spec.is_id_format "abc") as Hbad.
  { intros [Hlen _]. discriminate Hlen. }
  split; [exact Hbad|].
  rewrite (range_facts.StreamAudio_malformed_id handler os_files
             (mkRequest "abc" EmptyString (mkScanEnv 90 95 walk_ab)) (snd fresh) Hbad).
  reflexivity.
Defined.

Lemma serveRange_partial_content_witness :
  body (serveRange handler os_files blank payload 11
          (range_header (Some 0) (Some 4)) "a.mp3") =
  BodyBytes [Byte.x68; Byte.x65; Byte.x6c; Byte.x6c; Byte.x6f].
Proof.
  assert (Z.of_nat (length payload) = 11) as H1 by reflexivity.
  assert (11 <= strconv.maxInt64) as H2 by (unfold strconv.maxInt64; lia).
  assert (0 <= bound_or (Some 0) 0 <= bound_or (Some 4) (11 - 1)) as H3 by (simpl; lia).
  assert (bound_or (Some 4) (11 - 1) < 11) as H4 by (simpl; lia).
  assert (bound_or (Some 4) (11 - 1) - bound_or (Some 0) 0 + 1 <= maxRangeSize handler)
    as H5 by (simpl; lia).
  rewrite (proj1 (range_facts.serveRange_partial_content handler os_files payload 11
                    (Some 0) (Some 4) "a.mp3" H1 H2 H3 H4 H5)).
  reflexivity.
Defined.

Lemma serveRange_out_of_bounds_witness :
  status (serveRange handler os_files blank payload 11
            (range_header (Some 5) (Some 20)) "a.mp3") =
    StatusRequestedRangeNotSatisfiable /\
  serveRange handler os_files blank payload 11
    (range_header (Some 0) (Some 100000000000000000000)) "a.mp3" =
    mkResponse StatusBadRequest
      [("Content-Type", "application/json; charset=utf-8")%string]
      (BodyJSON (NewBadRequestError "无效的 Range 结束值")).
Proof.
  assert (0 <= 11 <= strconv.maxInt64) as H1 by (unfold strconv.maxInt64; lia).
  assert (bound_or (Some 5) 0 < 0 \/ bound_or (Some 20) (11 - 1) >= 11 \/
          bound_or (Some 5) 0 > bound_or (Some 20) (11 - 1)) as H2
    by (right; left; simpl; lia).
  assert (bound_or (Some 0) 0 < 0 \/
          bound_or (Some 100000000000000000000) (11 - 1) >= 11 \/
          bound_or (Some 0) 0 > bound_or (Some 100000000000000000000) (11 - 1)) as H3
    by (right; left; simpl; lia).
  rewrite (range_facts.serveRange_out_of_bounds handler os_files payload 11
             (Some 5) (Some 20) "a.mp3" H1 H2).
  rewrite (range_facts.serveRange_out_of_bounds handler os_files payload 11
             (Some 0) (Some 100000000000000000000) "a.mp3" H1 H3).
  split; reflexivity.
Defined.

Lemma scan_within_ttl_is_cached_witness :
  exists a2 st2,
    Scan (mkScanEnv 110 111 walk_missing) (fst populated) (snd populated) =
      (Ok a2, fst populated, st2) /\
    elems st2 a2 = elems (snd populated) 2%nat.
Proof.
  assert (Scan (mkScanEnv 90 95 walk_ab) (fst fresh) (snd fresh) =
          (Ok 2%nat, fst populated, snd populated)) as H1 by (vm_compute; reflexivity).
  assert (elems (snd populated) 2%nat <> []) as H2 by (vm_compute; discriminate).
  assert (gotime.Since (now_rlock (mkScanEnv 110 111 walk_missing))
            (lastScan (fst populated)) < cacheTTL (fst populated)) as H3
    by (vm_compute; reflexivity).
  destruct (index_facts.scan_within_ttl_is_cached _ _ _ _ _ _ _ H1 H2 H3)
    as (a2 & st2 & E & Hel & _).
  exists a2, st2. split; [exact E | exact Hel].
Defined.

Lemma consistent_after_every_operation_witness :
  Forall (unique_ids (effective_formats [])) ops_example /\
  consistent (fst after_run) (snd after_run).
Proof.
  assert (Forall (unique_ids (effective_formats [])) ops_example) as Hall.
  { unfold ops_example.
    repeat (apply List.Forall_cons;
            [unfold unique_ids; apply (bool_decide_eq_true_1 (NoDup _));
             vm_compute; reflexivity|]).
    apply List.Forall_nil. }
  split; [exact Hall|].
  exact (index_facts.consistent_after_every_operation "/music" [] 5 store.empty
           ops_example Hall).
Defined.

Lemma empty_formats_index_mp3_witness :
  paths_at (snd rescan) rescan_slice = ["/music/a.mp3"; "/music/b.MP3"]%string.
Proof.
  assert (scanInternal walk_ab
            (fst (run ops_example (NewMusicScanner "/music" [] 5 store.empty)))
            (snd (run ops_example (NewMusicScanner "/music" [] 5 store.empty))) =
          (Ok rescan_slice, snd (fst rescan), snd rescan)) as H
    by (vm_compute; reflexivity).
  rewrite (proj2 (index_facts.empty_formats_index_mp3 "/music" 5 store.empty ops_example
                    walk_ab rescan_slice (snd (fst rescan)) (snd rescan) H)).
  vm_compute. reflexivity.
Defined.

End witnesses.

(** ** The range streaming engine: refusals, responses and file access *)

Module stream_facts.

Import gostrings strconv spec lib_facts store services handlers index_props stream_props.

(** *** Headers *)

Lemma get_set_header k v hs : get_header k (set_header k v hs) = Some v.
Proof.
  induction hs as [|[k' v'] hs IH]; cbn [set_header get_header].
  - now rewrite String.eqb_refl.
  - destruct (String.eqb k' k) eqn:E; cbn [get_header].
    + now rewrite String.eqb_refl.
    + now rewrite E.
Qed.

Lemma get_set_header_ne k k' v hs :
  String.eqb k' k = false -> get_header k (set_header k' v hs) = get_header k hs.
Proof.
  intros Hne. induction hs as [|[k0 v0] hs IH]; cbn [set_header get_header].
  - now rewrite Hne.
  - destruct (String.eqb k0 k') eqn:E; cbn [get_header].
    + apply String.eqb_eq in E. subst k0. now rewrite Hne.
    + now rewrite IH.
Qed.

(** *** The fields of a range header *)

Lemma Split_length s : length (Split s "-") = S (dashes s).
Proof.
  induction s as [|c cs IH]; [reflexivity|]. cbn [Split dashes].
  destruct (Ascii.eqb c "-"); cbn [length]; [now rewrite IH|].
  destruct (Split cs "-") as [|p ps]; [discriminate IH|]. cbn [length] in *. lia.
Qed.

Lemma parse_digits_junk s : forall acc,
  existsb junk (list_ascii_of_string s) = true -> parse_digits s acc = None.
Proof.
  induction s as [|c cs IH]; intros acc; cbn [list_ascii_of_string existsb parse_digits];
    [discriminate|].
  unfold junk at 1. destruct (digit_val c) as [d|]; [|reflexivity].
  cbn [orb]. apply IH.
Qed.

Lemma ParseInt_junk s : has_junk s = true -> ParseInt s = None.
Proof.
  unfold has_junk. destruct s as [|c cs]; [discriminate|]. intros Hj.
  unfold ParseInt.
  assert (ParseUint (if Ascii.eqb c "+" || Ascii.eqb c "-" then cs else String c cs) = None)
    as ->; [|reflexivity].
  cbn [list_ascii_of_string existsb] in Hj.
  destruct (Ascii.eqb c "+" || Ascii.eqb c "-") eqn:Es.
  - assert (junk c = false) as Hc.
    { unfold junk. destruct (digit_val c); [reflexivity|].
      apply orb_true_iff in Es as [-> | ->]; [reflexivity | apply andb_false_r]. }
    rewrite Hc in Hj. cbn [orb] in Hj.
    unfold ParseUint. destruct cs as [|c' cs']; [reflexivity|].
    now rewrite parse_digits_junk.
  - unfold ParseUint. rewrite parse_digits_junk; [reflexivity|].
    cbn [list_ascii_of_string existsb]. exact Hj.
Qed.

Lemma parse_bound_junk p dflt : has_junk p = true -> parse_bound p dflt = None.
Proof.
  intros Hj. unfold parse_bound. rewrite (ParseInt_junk p Hj).
  destruct p; [discriminate Hj | reflexivity].
Qed.

Lemma Split_two p0 p1 :
  no_sep "-" p0 = true -> no_sep "-" p1 = true ->
  Split (p0 ++ String "-" p1) "-" = [p0; p1].
Proof. intros H0 H1. rewrite Split_app by assumption. now rewrite Split_no_sep. Qed.

(** *** [serveRange] *)

Ltac bad_request := left; split; [reflexivity | eexists; reflexivity].

(** The answers of [serveRange], with the headers of a partial
    content. *)
Lemma serveRange_cases {T : Type} (h : StreamHandler T) (os : OS) (c : Response)
    (file : list Byte.byte) (fileSize : Z) (rangeHeader filename : string) :
  minInt64 <= fileSize <= maxInt64 ->
  let r := serveRange h os c file fileSize rangeHeader filename in
  (status r = StatusBadRequest /\ exists e, body r = BodyJSON e) \/
  (status r = StatusRequestedRangeNotSatisfiable /\ body r = body c /\
   get_header "Content-Range" (headers r) = Some ("bytes */" ++ FormatInt fileSize)%string) \/
  (status r = StatusPartialContent /\
   exists start end_,
     0 <= start <= end_ /\ end_ < fileSize /\ end_ - start + 1 <= maxRangeSize h /\
     body r = BodyBytes (byte_range file start end_) /\
     get_header "Content-Range" (headers r) =
       Some ("bytes " ++ FormatInt start ++ "-" ++ FormatInt end_ ++ "/" ++
             FormatInt fileSize)%string /\
     get_header "Content-Length" (headers r) = Some (FormatInt (end_ - start + 1)) /\
     get_header "Content-Type" (headers r) = Some (getMimeType os filename) /\
     get_header "Accept-Ranges" (headers r) = Some "bytes"%string).
Proof.
  intros Hsz r. subst r. unfold serveRange.
  destruct (Split (TrimPrefix rangeHeader "bytes=") "-") as [|p0 [|p1 [|p2 rest]]];
    try bad_request.
  destruct (parse_bound p0 0) as [start|]; [|bad_request].
  destruct (parse_bound p1 (wrap64 (fileSize - 1))) as [end_|]; [|bad_request].
  destruct ((start <? 0) || (fileSize <=? end_) || (end_ <? start)) eqn:Ec.
  - right. left. cbn [status body headers Status Header].
    split; [reflexivity|]. split; [reflexivity | apply get_set_header].
  - apply orb_false_iff in Ec as [Ec E3]. apply orb_false_iff in Ec as [E1 E2].
    apply Z.ltb_ge in E1, E3. apply Z.leb_gt in E2.
    rewrite (wrap64_small (end_ - start)) by (unfold minInt64, maxInt64 in *; lia).
    rewrite (wrap64_small (end_ - start + 1)) by (unfold minInt64, maxInt64 in *; lia).
    destruct (maxRangeSize h <? end_ - start + 1) eqn:Em; [bad_request|].
    apply Z.ltb_ge in Em. right. right.
    unfold Seek. rewrite (proj2 (Z.ltb_ge start 0)) by lia.
    cbn [status body headers Status Header Write].
    split; [reflexivity|]. exists start, end_.
    split; [lia|]. split; [lia|]. split; [lia|]. split; [reflexivity|].
    repeat split; rewrite ?get_set_header_ne by reflexivity; apply get_set_header.
Qed.

(** X10.  Whatever the range header is, [serveRange] answers 400, 416 or
    206 and nothing else.  With 416 the size of the file is named and
    nothing is written; with 206 there are bounds
    [0 <= start <= end < size] whose length is within the configured
    maximum, and the body, [Content-Range] and [Content-Length] are those
    of the bytes [start] through [end] of the file. *)
Theorem serveRange_responses {T : Type} (h : StreamHandler T) (os : OS) (c : Response)
    (file : list Byte.byte) (fileSize : Z) (rangeHeader filename : string) :
  minInt64 <= fileSize <= maxInt64 ->
  let r := serveRange h os c file fileSize rangeHeader filename in
  (status r = StatusBadRequest /\ exists e, body r = BodyJSON e) \/
  (status r = StatusRequestedRangeNotSatisfiable /\ body r = body c /\
   get_header "Content-Range" (headers r) = Some ("bytes */" ++ FormatInt fileSize)%string) \/
  (status r = StatusPartialContent /\
   exists start end_,
     0 <= start <= end_ /\ end_ < fileSize /\ end_ - start + 1 <= maxRangeSize h /\
     body r = BodyBytes (byte_range file start end_) /\
     get_header "Content-Range" (headers r) =
       Some ("bytes " ++ FormatInt start ++ "-" ++ FormatInt end_ ++ "/" ++
             FormatInt fileSize)%string /\
     get_header "Content-Length" (headers r) = Some (FormatInt (end_ - start + 1))).
Proof.
  intros Hsz r.
  destruct (serveRange_cases h os c file fileSize rangeHeader filename Hsz)
    as [H | [H | (Hs & start & end_ & Hb & He & Hm & Hbody & Hcr & Hcl & _)]].
  - left. exact H.
  - right. left. exact H.
  - right. right. split; [exact Hs|]. exists start, end_. now repeat split.
Qed.

(** X11.  A range [bytes=<start>-<end>] that the file satisfies but that
    is longer than the configured maximum is refused with 400 and the
    maximum is named; nothing of the file is sent. *)
Theorem serveRange_range_too_large {T : Type} (h : StreamHandler T) (os : OS) (c : Response)
    (file : list Byte.byte) (fileSize : Z) (a b : option Z) (filename : string) :
  fileSize <= maxInt64 ->
  0 <= bound_or a 0 <= bound_or b (fileSize - 1) ->
  bound_or b (fileSize - 1) < fileSize ->
  maxRangeSize h < bound_or b (fileSize - 1) - bound_or a 0 + 1 ->
  serveRange h os c file fileSize (range_header a b) filename =
    JSON StatusBadRequest
      (NewBadRequestError
         ("请求范围过大 (最大 " ++ FormatInt (maxRangeSize h) ++ " 字节)")%string) c.
Proof.
  intros Hsize Hse Hend Hmax.
  set (start := bound_or a 0) in *. set (end_ := bound_or b (fileSize - 1)) in *.
  assert (negative a = false) as Hna.
  { destruct a as [n|]; [|reflexivity]. simpl in *. apply Z.ltb_ge. subst start. lia. }
  assert (negative b = false) as Hnb.
  { destruct b as [n|]; [|reflexivity]. simpl in *. apply Z.ltb_ge. subst end_. lia. }
  assert (fits_int64 a) as Hfa.
  { destruct a as [n|]; [|exact I]. simpl in *. unfold minInt64, maxInt64 in *.
    subst start. lia. }
  assert (fits_int64 b) as Hfb.
  { destruct b as [n|]; [|exact I]. simpl in *. unfold minInt64, maxInt64 in *.
    subst end_. lia. }
  unfold serveRange. rewrite range_facts.range_header_parts by assumption.
  rewrite (range_facts.parse_bound_text a 0 Hna Hfa).
  rewrite (wrap64_small (fileSize - 1)) by (unfold minInt64, maxInt64 in *; lia).
  rewrite (range_facts.parse_bound_text b (fileSize - 1) Hnb Hfb).
  fold start end_.
  rewrite (proj2 (Z.ltb_ge start 0)) by lia.
  rewrite (proj2 (Z.leb_gt fileSize end_)) by lia.
  rewrite (proj2 (Z.ltb_ge end_ start)) by lia.
  cbn [orb].
  rewrite (wrap64_small (end_ - start)) by (unfold minInt64, maxInt64 in *; lia).
  rewrite (wrap64_small (end_ - start + 1)) by (unfold minInt64, maxInt64 in *; lia).
  rewrite (proj2 (Z.ltb_lt (maxRangeSize h) (end_ - start + 1))) by lia.
  reflexivity.
Qed.

(** X12.  A range header that, once the prefix [bytes=] is removed, has
    no dash or more than one (a list of ranges, a negative number) is
    refused with 400 whatever else it holds. *)
Theorem serveRange_dash_count {T : Type} (h : StreamHandler T) (os : OS) (c : Response)
    (file : list Byte.byte) (fileSize : Z) (rangeHeader filename : string) :
  dashes (TrimPrefix rangeHeader "bytes=") <> 1%nat ->
  serveRange h os c file fileSize rangeHeader filename =
    JSON StatusBadRequest (NewBadRequestError "无效的 Range 请求头格式") c.
Proof.
  intros Hd. unfold serveRange.
  pose proof (Split_length (TrimPrefix rangeHeader "bytes=")) as Hl.
  destruct (Split (TrimPrefix rangeHeader "bytes=") "-") as [|p0 [|p1 [|p2 rest]]];
    try reflexivity.
  cbn [length] in Hl. exfalso. apply Hd. lia.
Qed.

(** X13.  In a header of two fields, a start that holds a character
    which is neither a digit nor a sign is refused with 400 as an invalid
    start, whatever the end is; with a start that is missing or a decimal
    number that fits 64 signed bits, such an end is refused with 400 as an
    invalid end.  The unit
    is not looked at: without the prefix [bytes=] the fields are read all
    the same. *)
Theorem serveRange_invalid_bound {T : Type} (h : StreamHandler T) (os : OS) (c : Response)
    (file : list Byte.byte) (fileSize : Z) (rangeHeader filename : string)
    (p0 p1 : string) :
  TrimPrefix rangeHeader "bytes=" = (p0 ++ String "-" p1)%string ->
  no_sep "-" p0 = true -> no_sep "-" p1 = true ->
  (has_junk p0 = true ->
   serveRange h os c file fileSize rangeHeader filename =
     JSON StatusBadRequest (NewBadRequestError "无效的 Range 起始值") c) /\
  (forall a, p0 = bound_text a -> negative a = false -> fits_int64 a ->
   has_junk p1 = true ->
   serveRange h os c file fileSize rangeHeader filename =
     JSON StatusBadRequest (NewBadRequestError "无效的 Range 结束值") c).
Proof.
  intros E H0 H1. unfold serveRange. rewrite E, (Split_two p0 p1 H0 H1). split.
  - intros Hj. now rewrite (parse_bound_junk p0 0 Hj).
  - intros a -> Hna Hfa Hj. rewrite (range_facts.parse_bound_text a 0 Hna Hfa).
    now rewrite (parse_bound_junk p1 _ Hj).
Qed.

(** *** [StreamAudio] *)

Lemma search_missing st id ps :
  (forall p, In p ps -> exists v, deref st p = Some v /\ models.ID v <> id) ->
  search st id ps = Missing.
Proof.
  induction ps as [|p ps IH]; intros Hall; [reflexivity|]. cbn [search].
  destruct (Hall p ltac:(now left)) as (v & -> & Hv).
  apply String.eqb_neq in Hv. rewrite Hv.
  apply IH. intros q Hq. apply Hall. now right.
Qed.

Lemma search_found st id ps path :
  search st id ps = Found path ->
  exists p v, In p ps /\ deref st p = Some v /\ models.ID v = id /\ models.FilePath v = path.
Proof.
  induction ps as [|p ps IH]; [discriminate|]. cbn [search].
  destruct (deref st p) as [v|] eqn:Ed; [|discriminate].
  destruct (String.eqb (models.ID v) id) eqn:Ei.
  - intros [= <-]. apply String.eqb_eq in Ei. exists p, v.
    split; [now left|]. now repeat split.
  - intros Hf. destruct (IH Hf) as (q & w & Hq & Hrest). exists q, w.
    split; [now right | exact Hrest].
Qed.

Lemma find_song_found st id ps path :
  find_song st id ps = Some path -> search st id ps = Found path.
Proof. unfold find_song. destruct (search st id ps); congruence. Qed.

Lemma find_song_some st id ps path :
  find_song st id ps = Some path ->
  exists p v, In p ps /\ deref st p = Some v /\ models.ID v = id /\ models.FilePath v = path.
Proof. intros Hf. now apply search_found, find_song_found. Qed.

(** In a slice without [nil] entries, a search that finds nothing has
    seen every song. *)
Lemma find_song_none_inv st id ps :
  (forall p, In p ps -> exists v, deref st p = Some v) ->
  find_song st id ps = None ->
  forall p v, In p ps -> deref st p = Some v -> models.ID v <> id.
Proof.
  unfold find_song.
  induction ps as [|q qs IH]; intros Hall Hf p v Hp Hv; [destruct Hp|].
  cbn [search] in Hf. destruct (Hall q ltac:(now left)) as [w Hw]. rewrite Hw in Hf.
  destruct (String.eqb (models.ID w) id) eqn:Ei; [discriminate|].
  destruct Hp as [-> | Hp].
  - rewrite Hv in Hw. injection Hw as <-. now apply String.eqb_neq.
  - apply (IH ltac:(intros r Hr; apply Hall; now right) Hf p v Hp Hv).
Qed.

Lemma serveRange_sent {T : Type} (h : StreamHandler T) os file fileSize rangeHeader filename
    data :
  sent (serveRange h os blank file fileSize rangeHeader filename) = Some data ->
  exists start n, data = firstn n (skipn start file).
Proof.
  unfold serveRange.
  destruct (Split (TrimPrefix rangeHeader "bytes=") "-") as [|p0 [|p1 [|p2 rest]]];
    try discriminate.
  destruct (parse_bound p0 0) as [start|]; [|discriminate].
  destruct (parse_bound p1 (wrap64 (fileSize - 1))) as [end_|]; [|discriminate].
  destruct ((start <? 0) || (fileSize <=? end_) || (end_ <? start)); [discriminate|].
  destruct (maxRangeSize h <? _); [discriminate|].
  unfold Seek. destruct (start <? 0); [discriminate|].
  unfold sent, Write, CopyN. cbn [body]. intros [= <-]. now eexists _, _.
Qed.

Ltac scanned Hid Hscan :=
  unfold StreamAudio;
  rewrite (proj2 (id_facts.MatchString_id_format _) Hid); cbn [negb];
  rewrite Hscan; cbv beta iota zeta.

(** X14.  A well-formed identifier that none of the songs the scan
    returned carries, no entry of the slice being [nil], is answered 404,
    and the operating system is not asked anything. *)
Theorem StreamAudio_unknown_id {T : Type} `{Scanner T}
    (h : StreamHandler T) (os : OS) (req : Request) (st : Store)
    (songs : nat) (sc : T) (st' : Store) :
  is_id_format (param_id req) ->
  Scanner_Scan (ctx req) (scanner h) st = (Ok songs, sc, st') ->
  (forall p, In p (elems st' songs) ->
             exists v, deref st' p = Some v /\ models.ID v <> param_id req) ->
  StreamAudio h os req st =
    (JSON StatusNotFound (NewNotFoundError "歌曲") blank, [EffScan], with_scanner h sc, st').
Proof.
  intros Hid Hscan Hnone. scanned Hid Hscan.
  now rewrite (search_missing _ _ _ Hnone).
Qed.

(** X15.  When the path of the song, made absolute, does not start with
    the root of the handler, the answer is 403 and the file is neither
    examined nor opened. *)
Theorem StreamAudio_forbidden_outside_prefix {T : Type} `{Scanner T}
    (h : StreamHandler T) (os : OS) (req : Request) (st : Store)
    (songs : nat) (sc : T) (st' : Store) (songPath cleanPath : string) :
  is_id_format (param_id req) ->
  Scanner_Scan (ctx req) (scanner h) st = (Ok songs, sc, st') ->
  find_song st' (param_id req) (elems st' songs) = Some songPath ->
  Abs os songPath = Some cleanPath ->
  HasPrefix cleanPath (musicDirAbs h) = false ->
  StreamAudio h os req st =
    (JSON StatusForbidden (NewForbiddenError "拒绝访问") blank,
     [EffScan; EffAbs songPath], with_scanner h sc, st').
Proof.
  intros Hid Hscan Hfind Habs Hpre. scanned Hid Hscan.
  rewrite (find_song_found _ _ _ _ Hfind), Habs. cbn [musicDirAbs]. now rewrite Hpre.
Qed.

(** X16.  When the path of the song is a directory the answer is 403
    and nothing is opened. *)
Theorem StreamAudio_forbidden_directory {T : Type} `{Scanner T}
    (h : StreamHandler T) (os : OS) (req : Request) (st : Store)
    (songs : nat) (sc : T) (st' : Store) (songPath cleanPath : string) (size : Z) :
  is_id_format (param_id req) ->
  Scanner_Scan (ctx req) (scanner h) st = (Ok songs, sc, st') ->
  find_song st' (param_id req) (elems st' songs) = Some songPath ->
  Abs os songPath = Some cleanPath ->
  HasPrefix cleanPath (musicDirAbs h) = true ->
  Stat os cleanPath = StatOk true size ->
  StreamAudio h os req st =
    (JSON StatusForbidden (NewForbiddenError "无法流式传输目录") blank,
     [EffScan; EffAbs songPath; EffStat cleanPath], with_scanner h sc, st').
Proof.
  intros Hid Hscan Hfind Habs Hpre Hstat. scanned Hid Hscan.
  rewrite (find_song_found _ _ _ _ Hfind), Habs. cbn [musicDirAbs]. now rewrite Hpre, Hstat.
Qed.

(** X17.  A regular file under the root that opens is served: without a
    [Range] header the answer is 200 with the whole content, the size
    [os.Stat] reported as [Content-Length], the type, the file name and
    [Accept-Ranges: bytes]; with a [Range] header the answer is that of
    [serveRange] for this file. *)
Theorem StreamAudio_serves_file {T : Type} `{Scanner T}
    (h : StreamHandler T) (os : OS) (req : Request) (st : Store)
    (songs : nat) (sc : T) (st' : Store) (songPath cleanPath : string) (size : Z)
    (file : list Byte.byte) :
  is_id_format (param_id req) ->
  Scanner_Scan (ctx req) (scanner h) st = (Ok songs, sc, st') ->
  find_song st' (param_id req) (elems st' songs) = Some songPath ->
  Abs os songPath = Some cleanPath ->
  HasPrefix cleanPath (musicDirAbs h) = true ->
  Stat os cleanPath = StatOk false size ->
  Open os cleanPath = Some file ->
  StreamAudio h os req st =
    (match header_Range req with
     | EmptyString =>
         mkResponse StatusOK
           [("Content-Type", getMimeType os cleanPath);
            ("Content-Length", FormatInt size);
            ("Content-Disposition", "inline; filename=" ++ quoted (filepath.Base cleanPath));
            ("Accept-Ranges", "bytes")]%string
           (BodyBytes file)
     | _ =>
         serveRange (with_scanner h sc) os blank file size (header_Range req)
           (filepath.Base cleanPath)
     end,
     [EffScan; EffAbs songPath; EffStat cleanPath; EffOpen cleanPath],
     with_scanner h sc, st').
Proof.
  intros Hid Hscan Hfind Habs Hpre Hstat Hopen. scanned Hid Hscan.
  rewrite (find_song_found _ _ _ _ Hfind), Habs. cbn [musicDirAbs]. rewrite Hpre, Hstat, Hopen. cbn [negb].
  destruct (header_Range req); reflexivity.
Qed.

(** X18.  What [StreamAudio] never does.  A file is opened only after
    every check has passed: the identifier is well formed, a song the scan
    returned carries it, the absolute path of that song starts with the
    root of the handler and is a regular file.  Bytes are sent only from
    a file that was opened, and they are a segment of its content. *)
Theorem StreamAudio_opens_only_checked_files {T : Type} `{Scanner T}
    (h : StreamHandler T) (os : OS) (req : Request) (st : Store) :
  (forall path, In (EffOpen path) (effects_of (StreamAudio h os req st)) ->
     is_id_format (param_id req) /\
     HasPrefix path (musicDirAbs h) = true /\
     (exists size, Stat os path = StatOk false size) /\
     exists songs p v,
       fst (fst (Scanner_Scan (ctx req) (scanner h) st)) = Ok songs /\
       In p (elems (store_of (StreamAudio h os req st)) songs) /\
       deref (store_of (StreamAudio h os req st)) p = Some v /\
       models.ID v = param_id req /\
       Abs os (models.FilePath v) = Some path) /\
  (forall data, sent (response_of (StreamAudio h os req st)) = Some data ->
     exists path file start n,
       In (EffOpen path) (effects_of (StreamAudio h os req st)) /\
       Open os path = Some file /\
       data = firstn n (skipn start file)).
Proof.
  unfold StreamAudio, effects_of, response_of, store_of.
  destruct (regexp.MatchString models.ValidIDPattern (param_id req)) eqn:Em; cbn [negb].
  2:{ split; [intros path [] | discriminate]. }
  apply id_facts.MatchString_id_format in Em.
  destruct (Scanner_Scan (ctx req) (scanner h) st) as [[[songs|e] sc] st'] eqn:Es;
    cbv beta iota zeta; cbn [fst snd].
  2:{ split; [intros path [[=]|[]] | discriminate]. }
  destruct (search st' (param_id req) (elems st' songs)) as [songPath| |] eqn:Ef;
    cbn [fst snd].
  2:{ split; [intros path [[=]|[]] | discriminate]. }
  2:{ split; [intros path [[=]|[[=]|[]]] | discriminate]. }
  destruct (search_found _ _ _ _ Ef) as (p & v & Hp & Hv & Hi & Hf).
  destruct (Abs os songPath) as [cleanPath|] eqn:Ea; cbn [fst snd].
  2:{ split; [intros path [[=]|[[=]|[]]] | discriminate]. }
  cbn [musicDirAbs].
  destruct (HasPrefix cleanPath (musicDirAbs h)) eqn:Ep; cbn [negb fst snd].
  2:{ split; [intros path [[=]|[[=]|[]]] | discriminate]. }
  destruct (Stat os cleanPath) as [|msg|isDir size] eqn:Et; cbn [fst snd].
  1,2: split; [intros path [[=]|[[=]|[[=]|[]]]] | discriminate].
  destruct isDir; cbn [fst snd].
  1: split; [intros path [[=]|[[=]|[[=]|[]]]] | discriminate].
  assert (forall (r : Response) effs,
            effs = [EffScan; EffAbs songPath; EffStat cleanPath; EffOpen cleanPath] ->
            forall path, In (EffOpen path) effs ->
              is_id_format (param_id req) /\
              HasPrefix path (musicDirAbs h) = true /\
              (exists size, Stat os path = StatOk false size) /\
              exists songs0 p v,
                Ok songs = Ok songs0 /\ In p (elems st' songs0) /\
                deref st' p = Some v /\ models.ID v = param_id req /\
                Abs os (models.FilePath v) = Some path) as Hopens.
  { intros _ effs -> path [[=]|[[=]|[[=]|[[= <-]|[]]]]].
    split; [exact Em|]. split; [exact Ep|]. split; [now exists size|].
    exists songs, p, v. rewrite Hf. now repeat split. }
  destruct (Open os cleanPath) as [file|] eqn:Eo; cbn [fst snd].
  2:{ split; [now apply (Hopens blank) | discriminate]. }
  destruct (header_Range req) as [|c0 rest] eqn:Er; cbn [fst snd].
  - split; [now apply (Hopens blank)|].
    unfold sent, Write. cbn [body]. intros data [= <-].
    exists cleanPath, file, 0%nat, (length file).
    split; [right; right; right; now left|]. split; [exact Eo|].
    cbn [skipn]. now rewrite firstn_all.
  - split; [now apply (Hopens blank)|].
    intros data Hs. destruct (serveRange_sent _ _ _ _ _ _ _ Hs) as (start & n & ->).
    exists cleanPath, file, start, n.
    split; [right; right; right; now left|]. split; [exact Eo | reflexivity].
Qed.

(** *** [StreamAudio] over the library index *)

Import caller.

Lemma run_snoc ops op w : run (ops ++ [op]) w = step op (run ops w).
Proof. unfold run. now rewrite fold_left_app. Qed.

(** X19.  The search of [StreamAudio] through the songs a scan returned
    and the lookup of the index by identifier find the same file: after
    any run of the index in which no two files indexed together share an
    identifier, the path the handler streams for an identifier is the path
    of the song [GetSongByID] returns for it, and the handler finds
    nothing exactly when the lookup returns [nil]. *)
Theorem stream_search_agrees_with_index
    (dir : string) (formats : list string) (ttl : Z) (st0 : Store) (ops : list Op)
    (e : ScanEnv) (a : nat) (s' : MusicScanner) (st' : Store) (id : string) :
  Forall (unique_ids (effective_formats formats)) (ops ++ [OpScan e]) ->
  Scan e (fst (run ops (NewMusicScanner dir formats ttl st0)))
         (snd (run ops (NewMusicScanner dir formats ttl st0))) = (Ok a, s', st') ->
  find_song st' id (elems st' a) = models.FilePath <$> lookup_view id s' st'.
Proof.
  intros Hall Hscan.
  pose proof (index_facts.run_inv (effective_formats formats) (ops ++ [OpScan e])
                (NewMusicScanner dir formats ttl st0)
                (index_facts.NewMusicScanner_inv dir formats ttl st0) Hall) as Hinv.
  rewrite run_snoc in Hinv.
  destruct (run ops (NewMusicScanner dir formats ttl st0)) as [s st].
  cbn [fst snd step] in *. rewrite Hscan in Hinv.
  destruct Hinv as (_ & Hwf & Hidx & _). cbn [fst snd] in *.
  rewrite (index_facts.lookup_view_eq id s' st' Hwf).
  rewrite (index_facts.Scan_ok_returns_sequence _ _ _ _ _ _ Hscan).
  destruct (find_song st' id (elems st' (songs s'))) as [path|] eqn:Ef.
  - destruct (find_song_some _ _ _ _ Ef) as (p & v & Hp & Hv & Hi & Hf).
    assert (songIndex s' !! id = Some p) as ->.
    { apply Hidx. split; [now apply list_elem_of_In|]. rewrite Hv. simpl. now rewrite Hi. }
    cbn. rewrite Hv. cbn. now rewrite Hf.
  - destruct (songIndex s' !! id) as [p|] eqn:El; [|reflexivity]. exfalso.
    apply Hidx in El as [Hp Hid]. apply list_elem_of_In in Hp.
    destruct (deref st' p) as [v|] eqn:Ev; [|discriminate Hid].
    injection Hid as Hid.
    refine (find_song_none_inv _ _ _ _ Ef p v Hp Ev Hid).
    intros q Hq. destruct Hwf as [_ Hsongs].
    destruct (Hsongs q ltac:(now apply list_elem_of_In)) as [_ Hq']. exact Hq'.
Qed.

(** X20.  When the cache of the index is stale and the walk fails (the
    root is gone, the context is cancelled, or the walk is handed an
    error), every request with a well-formed identifier is answered 500
    without touching a file; the error is part of the answer except in
    production. *)
Theorem StreamAudio_scan_failure
    (h : StreamHandler MusicScanner) (os : OS) (req : Request) (st : Store)
    (e : ScanError) :
  is_id_format (param_id req) ->
  cacheTTL (scanner h) <= gotime.Since (now_rlock (ctx req)) (lastScan (scanner h)) ->
  cacheTTL (scanner h) <= gotime.Since (now_lock (ctx req)) (lastScan (scanner h)) ->
  (if dir_missing (fs (ctx req)) then Some (DirectoryNotFound (directory (scanner h)))
   else option_map WalkFailed (first_failure (visits (fs (ctx req))))) = Some e ->
  response_of (StreamAudio h os req st) =
    mkResponse StatusInternalServerError
      [("Content-Type", "application/json; charset=utf-8")%string]
      (BodyJSON (mkAPIError "INTERNAL_ERROR" "内部服务器错误"
                   (if production os then None else Some (ScanErr e)))) /\
  effects_of (StreamAudio h os req st) = [EffScan].
Proof.
  intros Hid H1 H2 He.
  assert (Scan (ctx req) (scanner h) st = scanInternal (fs (ctx req)) (scanner h) st) as E.
  { unfold Scan, Scan_rlocked, Scan_locked, cache_valid.
    rewrite (proj2 (Z.ltb_ge _ _) H1), (proj2 (Z.ltb_ge _ _) H2). reflexivity. }
  pose proof (index_facts.scanInternal_result (fs (ctx req)) (scanner h) st) as Hr.
  assert (fst (fst (scanInternal (fs (ctx req)) (scanner h) st)) = Err e) as Herr.
  { rewrite Hr. destruct (dir_missing (fs (ctx req))); [now injection He as ->|].
    destruct (first_failure (visits (fs (ctx req)))); [now injection He as -> | discriminate]. }
  unfold StreamAudio, response_of, effects_of.
  rewrite (proj2 (id_facts.MatchString_id_format _) Hid). cbn [negb].
  cbn [Scanner_Scan MusicScanner_Scanner]. rewrite E.
  destruct (scanInternal (fs (ctx req)) (scanner h) st) as [[r s1] st1].
  cbn [fst] in Herr. subst r. cbn [fst snd]. split; reflexivity.
Qed.

(** *** The identifier check of the older handler *)

Lemma Contains_other_char s sub p :
  Forall (fun c => is_lower_hex c = true) (list_ascii_of_string s) ->
  is_lower_hex p = false ->
  Contains s (String p sub) = false.
Proof.
  intros Hall Hp. induction s as [|c cs IH]; [reflexivity|].
  cbn [list_ascii_of_string] in Hall. inversion Hall as [|? ? Hc Hcs]; subst.
  cbn [Contains HasPrefix].
  assert (Ascii.eqb c p = false) as ->.
  { apply Ascii.eqb_neq. intros ->. congruence. }
  cbn [andb orb]. now apply IH.
Qed.

(** X21.  The pattern check only narrows the check of the older handler:
    every identifier of the 32-character format passes the older check
    (it is not empty and holds no [".."], no ["/"] and no backslash). *)
Theorem valid_id_passes_legacy_check (id : string) :
  is_id_format id -> legacy_id_rejected id = false.
Proof.
  intros [Hlen Hall]. unfold legacy_id_rejected.
  rewrite !(Contains_other_char id _ _ Hall) by reflexivity.
  destruct id; [discriminate Hlen | reflexivity].
Qed.

(** *** The headers of a response that carries bytes *)

Lemma getMimeType_nonempty os filename : getMimeType os filename <> EmptyString.
Proof.
  unfold getMimeType.
  destruct (TypeByExtension os (ToLower (filepath.Ext filename))) eqn:E; [|discriminate].
  repeat match goal with
         | |- context [if ?b then _ else _] => destruct b
         end; discriminate.
Qed.

(** X29.  When the size [os.Stat] reports for a regular file is the
    length of the content [os.Open] gives, every response of
    [StreamAudio] that carries bytes has status 200 or 206, a
    [Content-Length] that is the number of bytes carried, a
    [Content-Type] that is not empty and [Accept-Ranges: bytes]. *)
Theorem sent_bytes_match_headers {T : Type} `{Scanner T}
    (h : StreamHandler T) (os : OS) (req : Request) (st : Store) (data : list Byte.byte) :
  (forall path size file,
     Stat os path = StatOk false size -> Open os path = Some file ->
     size = Z.of_nat (length file) /\ size <= maxInt64) ->
  sent (response_of (StreamAudio h os req st)) = Some data ->
  (status (response_of (StreamAudio h os req st)) = StatusOK \/
   status (response_of (StreamAudio h os req st)) = StatusPartialContent) /\
  get_header "Content-Length" (headers (response_of (StreamAudio h os req st))) =
    Some (FormatInt (Z.of_nat (length data))) /\
  (exists mimeType,
     get_header "Content-Type" (headers (response_of (StreamAudio h os req st))) =
       Some mimeType /\ mimeType <> EmptyString) /\
  get_header "Accept-Ranges" (headers (response_of (StreamAudio h os req st))) =
    Some "bytes"%string.
Proof.
  intros Hos. unfold StreamAudio, response_of.
  destruct (regexp.MatchString models.ValidIDPattern (param_id req)); cbn [negb];
    [|discriminate].
  destruct (Scanner_Scan (ctx req) (scanner h) st) as [[[songs|e] sc] st'];
    cbv beta iota zeta; cbn [fst snd]; [|discriminate].
  destruct (search st' (param_id req) (elems st' songs)) as [songPath| |];
    cbn [fst snd]; [|discriminate|discriminate].
  destruct (Abs os songPath) as [cleanPath|]; cbn [fst snd]; [|discriminate].
  cbn [musicDirAbs maxRangeSize].
  destruct (HasPrefix cleanPath (musicDirAbs h)); cbn [negb fst snd]; [|discriminate].
  destruct (Stat os cleanPath) as [|msg|isDir size] eqn:Et; cbn [fst snd];
    try discriminate.
  destruct isDir; cbn [fst snd]; [discriminate|].
  destruct (Open os cleanPath) as [file|] eqn:Eo; cbn [fst snd]; [|discriminate].
  destruct (Hos _ _ _ Et Eo) as [Hsize Hmax].
  destruct (header_Range req) as [|c0 rest]; cbn [fst snd].
  - unfold sent, Write. cbn [body status headers Status Header Write blank set_header].
    intros [= <-]. split; [now left|].
    split; [cbn; now rewrite Hsize|].
    split; [|reflexivity].
    exists (getMimeType os cleanPath). split; [reflexivity | apply getMimeType_nonempty].
  - intros Hs.
    match type of Hs with
    | sent (serveRange ?h' _ _ _ _ ?rh ?fn) = _ =>
        destruct (serveRange_cases h' os blank file size rh fn
                    ltac:(unfold minInt64, maxInt64 in *; lia))
          as [[_ [e He]] | [(_ & Hb & _) |
              (Hst & start & end_ & Hb & He & _ & Hbody & _ & Hcl & Hct & Har)]]
    end.
    + unfold sent in Hs. rewrite He in Hs. discriminate Hs.
    + unfold sent in Hs. rewrite Hb in Hs. discriminate Hs.
    + unfold sent in Hs. rewrite Hbody in Hs. injection Hs as <-.
      split; [now right|]. split.
      * rewrite Hcl. now rewrite range_facts.byte_range_length by lia.
      * split; [|exact Har]. eexists. split; [exact Hct | apply getMimeType_nonempty].
Qed.

(** X30.  The fallback table of [getMimeType] covers the default formats
    of the configuration: for a file with one of these extensions, in any
    case of letters, the type is an audio type even when the system knows
    no type for the extension, never [application/octet-stream]. *)
Theorem default_formats_have_audio_types (os : OS) (filename : string) :
  TypeByExtension os (ToLower (filepath.Ext filename)) = EmptyString ->
  is_supported configfile.default_formats filename = true ->
  HasPrefix (getMimeType os filename) "audio/" = true.
Proof.
  intros Hnone Hs. unfold getMimeType. rewrite Hnone.
  unfold is_supported, configfile.default_formats in Hs. cbn [existsb] in Hs.
  change (ToLower ".mp3") with ".mp3"%string in Hs.
  change (ToLower ".flac") with ".flac"%string in Hs.
  change (ToLower ".wav") with ".wav"%string in Hs.
  change (ToLower ".m4a") with ".m4a"%string in Hs.
  change (ToLower ".ogg") with ".ogg"%string in Hs.
  destruct (String.eqb (ToLower (filepath.Ext filename)) ".mp3"); [reflexivity|].
  destruct (String.eqb (ToLower (filepath.Ext filename)) ".flac"); [reflexivity|].
  destruct (String.eqb (ToLower (filepath.Ext filename)) ".wav"); [reflexivity|].
  destruct (String.eqb (ToLower (filepath.Ext filename)) ".m4a"); [reflexivity|].
  destruct (String.eqb (ToLower (filepath.Ext filename)) ".ogg"); [reflexivity|].
  discriminate Hs.
Qed.

End stream_facts.

(** ** Package [models]: the song built for a file *)

Module song_facts.

Import gostrings lib_facts services song_props.

Lemma drop_length s : forall n, String.length (drop n s) = (String.length s - n)%nat.
Proof.
  induction s as [|c cs IH]; intros [|n]; cbn [drop String.length]; try reflexivity.
  apply IH.
Qed.

Lemma take_drop s : forall n, (take n s ++ drop n s)%string = s.
Proof.
  induction s as [|c cs IH]; intros [|n]; cbn [take drop]; rewrite ?app_nil, ?app_cons;
    try reflexivity.
  now rewrite IH.
Qed.

Lemma take_all s : forall n, (String.length s <= n)%nat -> take n s = s.
Proof.
  induction s as [|c cs IH]; intros [|n] Hn; cbn [take String.length] in *;
    try reflexivity; try lia.
  rewrite IH by lia. reflexivity.
Qed.

Lemma drop_all s : forall n, (String.length s <= n)%nat -> drop n s = EmptyString.
Proof.
  induction s as [|c cs IH]; intros [|n] Hn; cbn [drop String.length] in *;
    try reflexivity; try lia.
  apply IH. lia.
Qed.

Lemma drop_drop s : forall k i, drop i (drop k s) = drop (k + i) s.
Proof.
  induction s as [|c cs IH]; intros [|k] i; cbn [drop Nat.add]; try reflexivity.
  - now destruct i.
  - apply IH.
Qed.

Lemma get_drop s : forall k i, String.get i (drop k s) = String.get (k + i) s.
Proof.
  induction s as [|c cs IH]; intros [|k] i; cbn [drop Nat.add String.get]; try reflexivity.
  apply IH.
Qed.

Lemma get_lt s : forall i, (i < String.length s)%nat -> exists c, String.get i s = Some c.
Proof.
  induction s as [|c cs IH]; intros i Hi; cbn [String.length] in Hi; [lia|].
  destruct i as [|i]; cbn [String.get]; [now exists c|]. apply IH. lia.
Qed.

Lemma get_ge s : forall i, (String.length s <= i)%nat -> String.get i s = None.
Proof.
  induction s as [|c cs IH]; intros i Hi; cbn [String.length] in Hi; [now destruct i|].
  destruct i as [|i]; [lia|]. cbn [String.get]. apply IH. lia.
Qed.

(** The extension is a suffix of the path. *)
Lemma ext_scan_suffix path : forall i,
  exists j, (j <= String.length path)%nat /\ filepath.ext_scan i path = drop j path.
Proof.
  assert (exists j, (j <= String.length path)%nat /\ EmptyString = drop j path) as Hnil.
  { exists (String.length path). split; [lia|]. symmetry. now apply drop_all. }
  induction i as [|i IH]; cbn [filepath.ext_scan]; [exact Hnil|].
  destruct (String.get i path) as [c|] eqn:Eg; [|exact Hnil].
  destruct (filepath.IsPathSeparator c); [exact Hnil|].
  destruct (Ascii.eqb c "."); [|exact IH].
  exists i. split; [|reflexivity].
  destruct (Nat.le_gt_cases (String.length path) i) as [Hge|Hlt]; [|lia].
  rewrite (get_ge _ _ Hge) in Eg. discriminate.
Qed.

Lemma TrimSuffix_drop s j :
  (j <= String.length s)%nat -> TrimSuffix s (drop j s) = take j s.
Proof.
  intros Hj. unfold TrimSuffix, HasSuffix. rewrite drop_length.
  rewrite (proj2 (Nat.leb_le _ _)) by lia.
  replace (String.length s - (String.length s - j))%nat with j by lia.
  now rewrite String.eqb_refl.
Qed.

(** X22.  When no title tag was read, the title of a song is its file
    name without the extension: title and extension together give the file
    name back; its duration is 0.  A song built without tags has artist
    and album ["Unknown"]. *)
Theorem NewSong_title_extension (env : models.FileMeta) (path : string) (size : Z) :
  no_title_tag env = true ->
  (models.Title (models.NewSong env path size) ++
   filepath.Ext (models.FileName (models.NewSong env path size)))%string =
    models.FileName (models.NewSong env path size) /\
  models.Duration (models.NewSong env path size) = 0 /\
  (models.read_tags env = None ->
   models.Artist (models.NewSong env path size) = "Unknown"%string /\
   models.Album (models.NewSong env path size) = "Unknown"%string).
Proof.
  intros Hno. unfold models.NewSong, no_title_tag in *.
  set (fileName := filepath.Base path).
  destruct (ext_scan_suffix fileName (String.length fileName)) as (j & Hj & Hext).
  fold (filepath.Ext fileName) in Hext.
  assert ((TrimSuffix fileName (filepath.Ext fileName) ++ filepath.Ext fileName)%string =
          fileName) as Ht.
  { rewrite Hext, (TrimSuffix_drop _ _ Hj). apply take_drop. }
  destruct (models.read_tags env) as [m|].
  - destruct (models.tag_title m); [|discriminate Hno]. cbn.
    split; [exact Ht|]. split; [reflexivity | discriminate].
  - cbn. split; [exact Ht|]. split; [reflexivity|]. now split.
Qed.

(** *** The extension of a path and of its last element *)

Lemma last_elem_start_spec path : forall i,
  (i <= String.length path)%nat ->
  (filepath.last_elem_start i path <= i)%nat /\
  (forall j, (filepath.last_elem_start i path <= j < i)%nat ->
     exists c, String.get j path = Some c /\ filepath.IsPathSeparator c = false) /\
  (filepath.last_elem_start i path = 0%nat \/
   exists c, String.get (filepath.last_elem_start i path - 1) path = Some c /\
             filepath.IsPathSeparator c = true).
Proof.
  induction i as [|i IH]; intros Hi; cbn [filepath.last_elem_start].
  - split; [lia|]. split; [intros j Hj; lia | now left].
  - destruct (get_lt path i ltac:(lia)) as [c Ec]. rewrite Ec.
    destruct (filepath.IsPathSeparator c) eqn:Es.
    + split; [lia|]. split; [intros j Hj; lia|]. right. exists c.
      replace (S i - 1)%nat with i by lia. now split.
    + destruct (IH ltac:(lia)) as (Hle & Hrange & Hstart).
      split; [lia|]. split; [|exact Hstart].
      intros j Hj. destruct (Nat.eq_dec j i) as [-> | Hne]; [now exists c|].
      apply Hrange. lia.
Qed.

Lemma ext_scan_drop path k : forall m,
  (forall j, (k <= j < k + m)%nat ->
     exists c, String.get j path = Some c /\ filepath.IsPathSeparator c = false) ->
  (k = 0%nat \/
   exists c, String.get (k - 1) path = Some c /\ filepath.IsPathSeparator c = true) ->
  filepath.ext_scan (k + m) path = filepath.ext_scan m (drop k path).
Proof.
  intros m Hrange Hstart. induction m as [|m IH].
  - rewrite Nat.add_0_r. cbn [filepath.ext_scan].
    destruct Hstart as [-> | (c & Ec & Es)]; [reflexivity|].
    destruct k as [|k]; [reflexivity|]. cbn [filepath.ext_scan].
    replace (S k - 1)%nat with k in Ec by lia. now rewrite Ec, Es.
  - rewrite Nat.add_succ_r. cbn [filepath.ext_scan]. rewrite get_drop.
    destruct (Hrange (k + m)%nat ltac:(lia)) as (c & Ec & Es). rewrite Ec, Es.
    rewrite drop_drop. destruct (Ascii.eqb c "."); [reflexivity|].
    apply IH. intros j Hj. apply Hrange. lia.
Qed.

(** The last element of a path that names a file has the extension of
    the path. *)
Lemma Ext_Base path :
  names_file path = true -> filepath.Ext (filepath.Base path) = filepath.Ext path.
Proof.
  unfold names_file. intros Hn.
  destruct (String.get (String.length path - 1) path) as [c|] eqn:Ec; [|discriminate].
  apply negb_true_iff in Hn.
  destruct path as [|c0 cs] eqn:Ep; [discriminate Ec|]. rewrite <- Ep in *.
  assert (String.length path = S (String.length cs)) as Hlen by (now rewrite Ep).
  unfold filepath.Base. rewrite Ep. rewrite <- Ep.
  assert (filepath.stripped_len (String.length path) path = String.length path) as ->.
  { rewrite Hlen. cbn [filepath.stripped_len].
    replace (String.length path - 1)%nat with (String.length cs) in Ec by lia.
    now rewrite Ec, Hn. }
  rewrite (take_all path) by lia. cbv zeta.
  destruct (last_elem_start_spec path (String.length path) ltac:(lia))
    as (Hle & Hrange & Hstart).
  set (k := filepath.last_elem_start (String.length path) path) in *.
  assert (k < String.length path)%nat as Hk.
  { subst k. rewrite Hlen. cbn [filepath.last_elem_start].
    replace (String.length path - 1)%nat with (String.length cs) in Ec by lia.
    rewrite Ec, Hn.
    destruct (last_elem_start_spec path (String.length cs) ltac:(lia)) as (H & _). lia. }
  assert (drop k path <> EmptyString) as Hne.
  { intros E. apply (f_equal String.length) in E. rewrite drop_length in E.
    cbn [String.length] in E. lia. }
  destruct (drop k path) as [|d ds] eqn:Ed; [contradiction|]. rewrite <- Ed.
  unfold filepath.Ext. rewrite drop_length.
  rewrite <- (ext_scan_drop path k (String.length path - k)).
  - now replace (k + (String.length path - k))%nat with (String.length path) by lia.
  - intros j Hj. apply Hrange. lia.
  - exact Hstart.
Qed.

(** X23.  For a path that names a file, the format of the song is the
    lower-cased extension of the path, the text the walk compares with
    the configured formats: the format of every file the walk takes as
    supported is the lower-cased form of one of those formats. *)
Theorem indexed_song_format (env : models.FileMeta) (path : string) (size : Z) :
  names_file path = true ->
  models.Format (models.NewSong env path size) = ToLower (filepath.Ext path) /\
  forall formats,
    is_supported formats path = true ->
    In (models.Format (models.NewSong env path size)) (map ToLower formats).
Proof.
  intros Hn.
  assert (models.Format (models.NewSong env path size) = ToLower (filepath.Ext path)) as Hf.
  { unfold models.NewSong. destruct (models.read_tags env); cbn; now rewrite Ext_Base. }
  split; [exact Hf|]. intros formats Hs. rewrite Hf.
  unfold is_supported in Hs. apply existsb_exists in Hs as (f & Hin & He).
  apply String.eqb_eq in He. rewrite He. now apply in_map.
Qed.

End song_facts.

(** ** Package [handlers]: the playlist handler over the library index *)

Module playlist_facts.

Import spec store services handlers index_props caller.

Lemma wf_songs_at s st : wf s st -> exists l, songs_at st (songs s) = map Some l.
Proof.
  intros [_ Hp]. unfold songs_at.
  induction (elems st (songs s)) as [|p ps IH]; [now exists []|].
  destruct (Hp p ltac:(now left)) as [_ [v Hv]].
  destruct IH as [l Hl]; [intros q Hq; apply Hp; now right|].
  exists (v :: l). cbn [map]. now rewrite Hv, Hl.
Qed.

Lemma scanned_wf dir formats ttl st0 ops e r s' st' :
  Scan e (fst (run ops (NewMusicScanner dir formats ttl st0)))
         (snd (run ops (NewMusicScanner dir formats ttl st0))) = (r, s', st') ->
  wf s' st'.
Proof.
  intros E. destruct (index_facts.reachable_sound dir formats ttl st0 ops) as [Hwf Hs].
  destruct (run ops (NewMusicScanner dir formats ttl st0)) as [s st]. cbn [fst snd] in *.
  destruct (index_facts.step_sound (OpScan e) s st Hwf Hs) as [Hwf' _].
  cbn [step] in Hwf'. now rewrite E in Hwf'.
Qed.

(** X24.  [GetAllSongs] on an index after any run answers 500 with the
    error of the scan, or 200 with the songs of the index: the list has
    no [null] entry, [total] is its length, and it is what [GetSongs] and
    [GetSongCount] of the index show afterwards. *)
Theorem GetAllSongs_lists_the_index
    (dir : string) (formats : list string) (ttl : Z) (st0 : Store) (ops : list Op)
    (os : OS) (ctx : ScanEnv) :
  let s := fst (run ops (NewMusicScanner dir formats ttl st0)) in
  let st := snd (run ops (NewMusicScanner dir formats ttl st0)) in
  let out := playlist.GetAllSongs (playlist.NewPlaylistHandler s) os ctx st in
  let reply := fst (fst out) in
  let s' := playlist.scanner (snd (fst out)) in
  let st' := snd out in
  (playlist.code reply = StatusInternalServerError /\
   exists e, fst (fst (Scan ctx s st)) = Err e /\
             playlist.payload reply =
               playlist.PayloadError (NewInternalError (production os) (ScanErr e))) \/
  (playlist.code reply = StatusOK /\
   exists l, playlist.payload reply = playlist.PayloadList (Z.of_nat (length l)) (map Some l) /\
             list_view s' st' = map Some l /\
             count_view s' st' = Z.of_nat (length l)).
Proof.
  intros s st out reply s' st'. subst out reply s' st'.
  unfold playlist.GetAllSongs, playlist.NewPlaylistHandler.
  cbn [playlist.scanner Scanner_Scan MusicScanner_Scanner].
  destruct (Scan ctx s st) as [[[a|e] s1] st1] eqn:E; cbn [fst snd playlist.scanner].
  - right. cbn [playlist.code playlist.payload]. split; [reflexivity|].
    pose proof (scanned_wf _ _ _ _ _ _ _ _ _ E) as Hwf.
    pose proof (index_facts.Scan_ok_returns_sequence _ _ _ _ _ _ E) as Hel.
    destruct (wf_songs_at _ _ Hwf) as [l Hl]. exists l.
    assert (length (elems st1 (songs s1)) = length l) as Hlen.
    { unfold songs_at in Hl. apply (f_equal (@length _)) in Hl.
      now rewrite !length_map in Hl. }
    split; [|split].
    + unfold len, songs_at. rewrite Hel, Hlen. unfold songs_at in Hl. now rewrite Hl.
    + now rewrite index_facts.list_view_eq.
    + unfold count_view, GetSongCount, len. now rewrite Hlen.
  - left. cbn [playlist.code playlist.payload]. split; [reflexivity|]. now exists e.
Qed.

(** X25.  [GetSongByID] of the playlist handler, on an index after any
    run in which no two files indexed together share an identifier,
    answers a well-formed identifier with the song of the index that
    carries it (200; the song is one of those the scan returned and its
    identifier is the requested one), or with 404 when no song the scan
    returned carries it. *)
Theorem playlist_GetSongByID_finds_requested_song
    (dir : string) (formats : list string) (ttl : Z) (st0 : Store) (ops : list Op)
    (os : OS) (id : string) (e : ScanEnv) (a : nat) (s' : MusicScanner) (st' : Store) :
  is_id_format id ->
  Forall (unique_ids (effective_formats formats)) (ops ++ [OpScan e]) ->
  Scan e (fst (run ops (NewMusicScanner dir formats ttl st0)))
         (snd (run ops (NewMusicScanner dir formats ttl st0))) = (Ok a, s', st') ->
  let reply :=
    fst (fst (playlist.GetSongByID
                (playlist.NewPlaylistHandler
                   (fst (run ops (NewMusicScanner dir formats ttl st0))))
                os id e (snd (run ops (NewMusicScanner dir formats ttl st0))))) in
  match lookup_view id s' st' with
  | Some v =>
      reply = playlist.mkReply StatusOK (playlist.PayloadSong (Some v)) /\
      models.ID v = id /\ In (Some v) (songs_at st' a)
  | None =>
      reply = playlist.mkReply StatusNotFound
                (playlist.PayloadError (NewNotFoundError "歌曲")) /\
      forall v, In (Some v) (songs_at st' a) -> models.ID v <> id
  end.
Proof.
  intros Hid Hall Hscan reply. subst reply.
  pose proof (index_facts.run_inv (effective_formats formats) (ops ++ [OpScan e])
                (NewMusicScanner dir formats ttl st0)
                (index_facts.NewMusicScanner_inv dir formats ttl st0) Hall) as Hinv.
  unfold run in Hinv. rewrite fold_left_app in Hinv. cbn [fold_left] in Hinv.
  fold (run ops (NewMusicScanner dir formats ttl st0)) in Hinv.
  destruct (run ops (NewMusicScanner dir formats ttl st0)) as [s st].
  cbn [fst snd step] in *. rewrite Hscan in Hinv.
  destruct Hinv as (_ & Hwf & Hidx & _). cbn [fst snd] in *.
  pose proof (index_facts.Scan_ok_returns_sequence _ _ _ _ _ _ Hscan) as Hel.
  unfold playlist.GetSongByID, playlist.NewPlaylistHandler.
  rewrite (proj2 (id_facts.MatchString_id_format _) Hid). cbn [negb].
  cbn [playlist.scanner Scanner_Scan Scanner_GetSongByID MusicScanner_Scanner].
  rewrite Hscan. cbv beta iota zeta. cbn [playlist.scanner].
  unfold lookup_view, GetSongByID.
  destruct (songIndex s' !! id) as [p|] eqn:El.
  - apply Hidx in El as [Hp Hv].
    destruct (deref st' p) as [v|] eqn:Ev; [|discriminate Hv].
    injection Hv as Hv.
    assert (next st' <> 0%nat) as Hn by (destruct Hwf as [Hlt _]; lia).
    pose proof (index_facts.deref_new_song st' v Hn) as Hd.
    unfold new_song in *. cbn [fst snd] in *. rewrite Hd.
    destruct (Nat.eqb_spec (next st') nilptr) as [E0|_]; [contradiction|].
    cbn [fst]. split; [reflexivity|]. split; [exact Hv|].
    unfold songs_at. rewrite Hel, <- Ev. apply in_map. now apply list_elem_of_In.
  - cbn [fst snd]. unfold deref at 1. cbn [Nat.eqb nilptr fst].
    split; [reflexivity|]. intros v Hin Hv.
    unfold songs_at in Hin. rewrite Hel in Hin.
    apply in_map_iff in Hin as (p & Hp & Hin).
    assert (songIndex s' !! id = Some p) as Hl.
    { apply Hidx. split; [now apply list_elem_of_In|]. rewrite Hp. simpl. now rewrite Hv. }
    congruence.
Qed.

End playlist_facts.

(** ** Package [config]: what the application is configured with *)

Module config_facts.

Import configfile.

Lemma GetDefaultConfig_within_limits env : within_limits (GetDefaultConfig env).
Proof.
  unfold within_limits, GetDefaultConfig.
  cbn [Server_Port Server_MaxRangeSize Music_CacheTTLMinutes Music_SupportedFormats].
  repeat split; vm_compute; discriminate.
Qed.

Lemma applyEnvOverrides_within_limits env cfg :
  within_limits cfg -> within_limits (applyEnvOverrides env cfg).
Proof.
  unfold within_limits, applyEnvOverrides. intros (Hp & Hm & Ht & Hf).
  destruct (Getenv env "ZERO_MUSIC_SERVER_HOST") as [|h0 h];
    (destruct (Getenv env "ZERO_MUSIC_SERVER_PORT") as [|p0 p];
     [|destruct (Atoi (String p0 p)) as [port|];
       [destruct ((0 <? port) && (port <=? 65535)) eqn:Ep;
        [apply andb_true_iff in Ep as [Ep1 Ep2];
         apply Z.ltb_lt in Ep1; apply Z.leb_le in Ep2|]|]]);
    (destruct (Getenv env "ZERO_MUSIC_MAX_RANGE_SIZE") as [|m0 m];
     [|destruct (strconv.ParseInt (String m0 m)) as [size|];
       [destruct ((0 <? size) && (size <=? MaxAllowedRangeSize)) eqn:Em;
        [apply andb_true_iff in Em as [Em1 Em2];
         apply Z.ltb_lt in Em1; apply Z.leb_le in Em2|]|]]);
    (destruct (Getenv env "ZERO_MUSIC_MUSIC_DIRECTORY") as [|d0 d]);
    (destruct (Getenv env "ZERO_MUSIC_CACHE_TTL_MINUTES") as [|t0 t];
     [|destruct (Atoi (String t0 t)) as [ttl|];
       [destruct ((0 <? ttl) && (ttl <=? MaxAllowedCacheTTL)) eqn:Et;
        [apply andb_true_iff in Et as [Et1 Et2];
         apply Z.ltb_lt in Et1; apply Z.leb_le in Et2|]|]]);
    cbn; repeat split; try lia; try exact Hf.
Qed.

Lemma Load_within_limits env configPath cfg :
  Load env configPath = Loaded cfg -> within_limits cfg.
Proof.
  unfold Load. destruct configPath as [|c0 cs].
  - intros [= <-]. apply GetDefaultConfig_within_limits.
  - destruct (ReadFile env (String c0 cs)) as [data|]; [|discriminate].
    destruct (Unmarshal env data) as [raw|]; [|discriminate].
    cbv zeta.
    set (c1 := if (length (Music_SupportedFormats raw) =? 0)%nat
               then set_SupportedFormats raw default_formats else raw).
    set (c2 := if Music_CacheTTLMinutes c1 =? 0
               then set_CacheTTLMinutes c1 DefaultCacheTTLMinutes else c1).
    set (c3 := if Server_MaxRangeSize c2 =? 0
               then set_MaxRangeSize c2 DefaultMaxRangeSize else c2).
    assert (Music_SupportedFormats c3 <> []) as Hf.
    { subst c3 c2 c1.
      destruct (Nat.eqb_spec (length (Music_SupportedFormats raw)) 0) as [E|E];
        destruct (Music_CacheTTLMinutes _ =? 0); destruct (Server_MaxRangeSize _ =? 0);
        cbn; try discriminate; intros H; rewrite H in E; now apply E. }
    assert (Music_CacheTTLMinutes c3 <> 0) as Ht.
    { subst c3 c2.
      destruct (Z.eqb_spec (Music_CacheTTLMinutes c1) 0) as [E|E];
        destruct (Server_MaxRangeSize _ =? 0); cbn; try discriminate; exact E. }
    assert (Server_MaxRangeSize c3 <> 0) as Hm.
    { subst c3. destruct (Z.eqb_spec (Server_MaxRangeSize c2) 0) as [E|E];
        cbn; [discriminate | exact E]. }
    clearbody c3. clear c1 c2. unfold validateConfig.
    destruct ((Server_Port c3 <? 1) || (65535 <? Server_Port c3)) eqn:Ep; [discriminate|].
    destruct ((Server_MaxRangeSize c3 <? 0) ||
              (MaxAllowedRangeSize <? Server_MaxRangeSize c3)) eqn:Er; [discriminate|].
    destruct ((Music_CacheTTLMinutes c3 <? 0) ||
              (MaxAllowedCacheTTL <? Music_CacheTTLMinutes c3)) eqn:Ec; [discriminate|].
    destruct (Stat env (Music_Directory c3)); try discriminate.
    intros [= <-]. apply applyEnvOverrides_within_limits.
    apply orb_false_iff in Ep as [Ep1 Ep2]. apply orb_false_iff in Er as [Er1 Er2].
    apply orb_false_iff in Ec as [Ec1 Ec2].
    apply Z.ltb_ge in Ep1, Ep2, Er1, Er2, Ec1, Ec2.
    unfold within_limits. cbn. repeat split; try lia. exact Hf.
Qed.

(** X26.  Whatever the configuration file and the environment hold, the
    configuration the application runs with is within limits: the port
    is between 1 and 65535, the largest range between 1 byte and 500 MiB,
    the cache TTL between 1 and 1440 minutes, and there is a format.  The
    scanner built from it therefore works with the configured formats and
    a TTL of that many minutes, never with its fallbacks, and the stream
    handler with that largest range. *)
Theorem provided_config_within_limits
    (env : Env) (configPath : string) (st : store.Store)
    (os : handlers.OS) :
  let cfg := ProvideConfig env configPath in
  let scanner := fst (ProvideScanner cfg st) in
  within_limits cfg /\
  services.supportedFormats scanner = Music_SupportedFormats cfg /\
  services.cacheTTL scanner = Music_CacheTTLMinutes cfg * gotime.Minute /\
  gotime.Minute <= services.cacheTTL scanner <= 24 * 60 * gotime.Minute /\
  handlers.maxRangeSize (ProvideStreamHandler os scanner cfg) = Server_MaxRangeSize cfg.
Proof.
  intros cfg scanner.
  assert (within_limits cfg) as Hw.
  { subst cfg. unfold ProvideConfig.
    destruct (Load env configPath) as [c|e] eqn:E.
    - exact (Load_within_limits _ _ _ E).
    - apply GetDefaultConfig_within_limits. }
  split; [exact Hw|]. destruct Hw as (_ & _ & Ht & Hf).
  unfold MaxAllowedCacheTTL in Ht.
  assert (services.cacheTTL scanner = Music_CacheTTLMinutes cfg * gotime.Minute) as Httl.
  { subst scanner. unfold ProvideScanner, services.NewMusicScanner.
    cbn [store.make_slice fst services.cacheTTL].
    rewrite (proj2 (Z.leb_gt _ 0)) by lia.
    apply lib_facts.wrap64_small.
    unfold strconv.minInt64, strconv.maxInt64, gotime.Minute. lia. }
  split.
  { subst scanner. unfold ProvideScanner, services.NewMusicScanner.
    cbn [store.make_slice fst services.supportedFormats].
    destruct (Music_SupportedFormats cfg); [contradiction | reflexivity]. }
  split; [exact Httl|]. split; [|reflexivity].
  rewrite Httl. unfold gotime.Minute. lia.
Qed.

(** X27.  An override from the environment is taken only when it is
    within limits: whatever the environment holds, [applyEnvOverrides]
    keeps a configuration that is within limits within limits, and it
    never changes the formats. *)
Theorem overrides_keep_limits (env : Env) (cfg : Config) :
  within_limits cfg ->
  within_limits (applyEnvOverrides env cfg) /\
  Music_SupportedFormats (applyEnvOverrides env cfg) = Music_SupportedFormats cfg.
Proof.
  intros Hw. split; [now apply applyEnvOverrides_within_limits|].
  unfold applyEnvOverrides.
  destruct (Getenv env "ZERO_MUSIC_SERVER_HOST") as [|h0 h];
    (destruct (Getenv env "ZERO_MUSIC_SERVER_PORT") as [|p0 p];
     [|destruct (Atoi (String p0 p)) as [port|];
       [destruct ((0 <? port) && (port <=? 65535))|]]);
    (destruct (Getenv env "ZERO_MUSIC_MAX_RANGE_SIZE") as [|m0 m];
     [|destruct (strconv.ParseInt (String m0 m)) as [size|];
       [destruct ((0 <? size) && (size <=? MaxAllowedRangeSize))|]]);
    (destruct (Getenv env "ZERO_MUSIC_MUSIC_DIRECTORY") as [|d0 d]);
    (destruct (Getenv env "ZERO_MUSIC_CACHE_TTL_MINUTES") as [|t0 t];
     [|destruct (Atoi (String t0 t)) as [ttl|];
       [destruct ((0 <? ttl) && (ttl <=? MaxAllowedCacheTTL))|]]);
    reflexivity.
Qed.

End config_facts.

(** ** Package [middleware]: the request identifier *)

Module middleware_facts.

Import spec lib_facts middleware.

Lemma take_length s : forall n,
  (n <= String.length s)%nat -> String.length (gostrings.take n s) = n.
Proof.
  induction s as [|c cs IH]; intros [|n] Hn; cbn [gostrings.take String.length] in *;
    try reflexivity; try lia.
  rewrite IH by lia. reflexivity.
Qed.

Lemma take_lower s : forall n,
  Forall (fun c => is_lower_hex c = true) (list_ascii_of_string s) ->
  Forall (fun c => is_lower_hex c = true) (list_ascii_of_string (gostrings.take n s)).
Proof.
  induction s as [|c cs IH]; intros [|n] Hall; cbn [gostrings.take list_ascii_of_string];
    try constructor.
  - cbn [list_ascii_of_string] in Hall. now inversion Hall.
  - apply IH. cbn [list_ascii_of_string] in Hall. now inversion Hall.
Qed.

Lemma bytes_of_string_length s : length (bytes_of_string s) = String.length s.
Proof. induction s as [|c cs IH]; cbn; [reflexivity | now rewrite IH]. Qed.

Lemma generateRequestID_format src id :
  generateRequestID src = Some id -> is_id_format id.
Proof.
  unfold generateRequestID, slice_to. destruct (rand_Read src) as [b|].
  - set (l := map _ _). intros Hid.
    assert (id = hex.EncodeToString l) as -> by congruence.
    split; [|apply id_facts.EncodeToString_lower].
    rewrite id_facts.EncodeToString_length. subst l.
    rewrite length_map, length_seq. reflexivity.
  - destruct (Nat.leb_spec 32 (String.length
                (hex.EncodeToString (bytes_of_string (now_String src))))) as [Hle|Hgt];
      [|discriminate].
    set (t := hex.EncodeToString _) in *. intros Hid.
    assert (id = gostrings.take 32 t) as -> by congruence.
    split; [now apply take_length|].
    apply take_lower, id_facts.EncodeToString_lower.
Qed.

Lemma generateRequestID_returns src :
  rand_Read src <> None \/ (16 <= String.length (now_String src))%nat ->
  exists id, generateRequestID src = Some id.
Proof.
  unfold generateRequestID, slice_to. destruct (rand_Read src) as [b|]; [now eexists|].
  intros [Hr | Hlen]; [contradiction|].
  rewrite id_facts.EncodeToString_length, bytes_of_string_length.
  rewrite (proj2 (Nat.leb_le _ _)) by lia. now eexists.
Qed.

(** X28.  Every request is tagged before the rest of the chain runs:
    with the identifier the client sent when it sent one, otherwise with
    a new one of 32 lowercase hexadecimal characters (from sixteen random
    bytes or, when the random source fails, from the text of the clock,
    which has to be at least sixteen bytes long).  The handlers that follow
    read this identifier with [GetRequestID], the response carries it in
    [X-Request-ID], and both log entries carry it. *)
Theorem RequestID_tags_request (src : Sources) (next : Context -> Context) (c : Context) :
  GetHeader c RequestIDHeader <> EmptyString \/ rand_Read src <> None \/
    (16 <= String.length (now_String src))%nat ->
  exists id tagged logs,
    RequestID src next c = Some (next tagged, logs) /\
    id <> EmptyString /\
    GetRequestID tagged = id /\
    handlers.get_header RequestIDHeader (handlers.headers (writer tagged)) = Some id /\
    request_headers tagged = request_headers c /\
    Forall (fun entry => request_id entry = id) logs /\
    (GetHeader c RequestIDHeader <> EmptyString -> id = GetHeader c RequestIDHeader) /\
    (GetHeader c RequestIDHeader = EmptyString -> is_id_format id).
Proof.
  intros Hsrc. unfold RequestID.
  assert (exists id,
            match GetHeader c RequestIDHeader with
            | EmptyString => generateRequestID src
            | String _ _ => Some (GetHeader c RequestIDHeader)
            end = Some id /\
            id <> EmptyString /\
            (GetHeader c RequestIDHeader <> EmptyString -> id = GetHeader c RequestIDHeader) /\
            (GetHeader c RequestIDHeader = EmptyString -> is_id_format id))
    as (id & -> & Hne & Hsent & Hnew).
  { destruct (GetHeader c RequestIDHeader) as [|c0 cs] eqn:Eh.
    - destruct (generateRequestID_returns src) as [id Hid].
      { destruct Hsrc as [H | H]; [contradiction | exact H]. }
      exists id. pose proof (generateRequestID_format _ _ Hid) as Hf.
      split; [exact Hid|]. split; [|split; [contradiction | now intros _]].
      intros ->. destruct Hf as [Hlen _]. discriminate Hlen.
    - exists (String c0 cs). split; [reflexivity|]. split; [discriminate|].
      split; [reflexivity | discriminate]. }
  cbv zeta.
  exists id, (Header RequestIDHeader id (Set_key RequestIDKey (VString id) c)).
  eexists. split; [reflexivity|]. split; [exact Hne|].
  split; [unfold GetRequestID, Header, Set_key; cbn [keys]; now rewrite lookup_insert_eq|].
  split; [unfold Header, Set_key, handlers.Header; cbn [writer handlers.headers];
          apply stream_facts.get_set_header|].
  split; [reflexivity|]. split; [|split; assumption].
  constructor; [reflexivity|]. constructor; [|constructor].
  destruct (500 <=? _); [reflexivity|]. destruct (400 <=? _); reflexivity.
Qed.

End middleware_facts.

(** ** The further properties at work on sample inputs *)

Module more_witnesses.

Import store services handlers index_props stream_props samples cases.

Ltac by_evaluation := vm_compute; first [reflexivity | discriminate].

Lemma id_a_format : spec.is_id_format id_a.
Proof. apply id_facts.MatchString_id_format. vm_compute. reflexivity. Defined.

Lemma first_scan_ok :
  scanInternal walk_ab (fst fresh) (snd fresh) =
    (Ok 2%nat, snd (fst first_scan), snd first_scan).
Proof. vm_compute. reflexivity. Defined.

Lemma scan_ab_ok :
  Scan scan_ab (fst fresh) (snd fresh) = (Ok 2%nat, fst populated, snd populated).
Proof. vm_compute. reflexivity. Defined.

Lemma scan_indexes_supported_files_witness :
  paths_at (snd first_scan) 2%nat = ["/music/a.mp3"; "/music/b.MP3"]%string /\
  count_view (snd (fst first_scan)) (snd first_scan) = 2.
Proof.
  destruct (index_facts.scan_indexes_supported_files _ _ _ _ _ _ first_scan_ok)
    as (_ & _ & Hp & Hc).
  rewrite Hp, Hc. split; vm_compute; reflexivity.
Defined.

Lemma lookup_after_scan_witness :
  models.FilePath <$> lookup_view id_b (snd (fst first_scan)) (snd first_scan) =
    Some "/music/b.MP3"%string.
Proof.
  assert (NoDup (map models.generateID
                   (indexed_paths (supportedFormats (fst fresh)) (visits walk_ab)))) as Hnd
    by (apply (bool_decide_eq_true_1 (NoDup _)); vm_compute; reflexivity).
  rewrite (index_facts.lookup_after_scan _ _ _ _ _ _ id_b first_scan_ok Hnd).
  vm_compute. reflexivity.
Defined.

Lemma stale_cache_is_rescanned_witness :
  count_view (fst populated) (snd populated) = 2 /\
  lastScan (fst populated) = Some 100 /\
  Scan scan_later (fst populated) (snd populated) =
    scanInternal walk_a (fst populated) (snd populated) /\
  songs_at (snd rescanned) rescanned_slice =
    map Some (indexed_songs [".mp3"%string] (visits walk_a)) /\
  lastScan (snd (fst rescanned)) = Some 150.
Proof.
  assert (cacheTTL (fst populated) <=
          gotime.Since (now_rlock scan_later) (lastScan (fst populated)))
    as H1 by by_evaluation.
  assert (cacheTTL (fst populated) <=
          gotime.Since (now_lock scan_later) (lastScan (fst populated)))
    as H2 by by_evaluation.
  assert (Scan scan_later (fst populated) (snd populated) =
          (Ok rescanned_slice, snd (fst rescanned), snd rescanned)) as Hok
    by (vm_compute; reflexivity).
  destruct (index_facts.stale_cache_is_rescanned scan_later (fst populated)
              (snd populated) H1 H2) as [E Hres].
  destruct (Hres _ _ _ Hok) as [Hs Ht].
  split; [vm_compute; reflexivity|]. split; [vm_compute; reflexivity|].
  split; [exact E|]. split; [exact Hs | exact Ht].
Defined.

Lemma refresh_ignores_ttl_witness :
  lastScan (snd (fst refreshed)) = Some 150 /\
  list_view (snd (fst refreshed)) (snd refreshed) =
    map Some (indexed_songs [".mp3"%string] (visits walk_a)).
Proof.
  assert (Refresh walk_a (fst populated) (snd populated) =
          (None, snd (fst refreshed), snd refreshed)) as H by (vm_compute; reflexivity).
  destruct (index_facts.refresh_ignores_ttl _ _ _ _ _ H) as (_ & Hl & Ht).
  split; [exact Ht | exact Hl].
Defined.

Lemma serveRange_responses_witness :
  status (serveRange handler os_files blank payload 11 "bytes=0-4" "a.mp3") =
    StatusPartialContent.
Proof.
  assert (strconv.minInt64 <= 11 <= strconv.maxInt64) as H
    by (unfold strconv.minInt64, strconv.maxInt64; lia).
  destruct (stream_facts.serveRange_responses handler os_files blank payload 11
              "bytes=0-4" "a.mp3" H) as [[Hs _] | [[Hs _] | [Hs _]]].
  - vm_compute in Hs. discriminate Hs.
  - vm_compute in Hs. discriminate Hs.
  - exact Hs.
Defined.

Lemma serveRange_range_too_large_witness :
  status (serveRange handler os_files blank payload large_size
            (range_header (Some 0) None) "a.mp3") = StatusBadRequest.
Proof.
  assert (large_size <= strconv.maxInt64) as H1 by by_evaluation.
  assert (0 <= bound_or (Some 0) 0 <= bound_or None (large_size - 1)) as H2
    by (split; by_evaluation).
  assert (bound_or None (large_size - 1) < large_size) as H3 by by_evaluation.
  assert (maxRangeSize handler < bound_or None (large_size - 1) - bound_or (Some 0) 0 + 1)
    as H4 by by_evaluation.
  rewrite (stream_facts.serveRange_range_too_large handler os_files blank payload
             large_size (Some 0) None "a.mp3" H1 H2 H3 H4).
  reflexivity.
Defined.

Lemma serveRange_dash_count_witness :
  status (serveRange handler os_files blank payload 11 "bytes=0-1,3-4" "a.mp3") =
    StatusBadRequest.
Proof.
  assert (dashes (gostrings.TrimPrefix "bytes=0-1,3-4" "bytes=") <> 1%nat) as H
    by by_evaluation.
  rewrite (stream_facts.serveRange_dash_count handler os_files blank payload 11
             "bytes=0-1,3-4" "a.mp3" H).
  reflexivity.
Defined.

Lemma serveRange_invalid_bound_witness :
  serveRange handler os_files blank payload 11 "bytes=abc-10" "a.mp3" =
    JSON StatusBadRequest (NewBadRequestError "无效的 Range 起始值") blank.
Proof.
  assert (gostrings.TrimPrefix "bytes=abc-10" "bytes=" = ("abc" ++ String "-" "10")%string)
    as H by (vm_compute; reflexivity).
  exact (proj1 (stream_facts.serveRange_invalid_bound handler os_files blank payload 11
                  "bytes=abc-10" "a.mp3" "abc" "10" H eq_refl eq_refl) eq_refl).
Defined.

Lemma StreamAudio_unknown_id_witness :
  status (response_of (StreamAudio handler os_files (request id_none EmptyString)
                         (snd fresh))) = StatusNotFound.
Proof.
  assert (spec.is_id_format (param_id (request id_none EmptyString))) as Hid
    by (apply id_facts.MatchString_id_format; vm_compute; reflexivity).
  assert (forall p, In p (elems (snd populated) 2%nat) ->
                    exists v, deref (snd populated) p = Some v /\
                              models.ID v <> param_id (request id_none EmptyString))
    as Hnone.
  { intros p Hin. vm_compute in Hin.
    destruct Hin as [<- | [<- | []]];
      (match goal with
       | |- exists v, deref ?st ?q = Some v /\ _ =>
           destruct (deref st q) as [v|] eqn:E; [|vm_compute in E; discriminate E]
       end;
       exists v; split; [reflexivity|];
       vm_compute in E; injection E as <-; vm_compute; discriminate). }
  rewrite (@stream_facts.StreamAudio_unknown_id MusicScanner MusicScanner_Scanner
             handler os_files
             (request id_none EmptyString) (snd fresh) 2%nat (fst populated)
             (snd populated) Hid scan_ab_ok Hnone).
  reflexivity.
Defined.

Lemma outside_scanned_ok :
  Scan (mkScanEnv 90 95 walk_outside) (fst outside) (snd outside) =
    (Ok 2%nat, snd (fst outside_scanned), snd outside_scanned).
Proof. vm_compute. reflexivity. Defined.

Lemma StreamAudio_forbidden_outside_prefix_witness :
  status (response_of (StreamAudio outside_handler os_files
                         (mkRequest id_x EmptyString (mkScanEnv 90 95 walk_outside))
                         (snd outside))) = StatusForbidden.
Proof.
  assert (spec.is_id_format id_x) as Hid
    by (apply id_facts.MatchString_id_format; vm_compute; reflexivity).
  assert (find_song (snd outside_scanned) id_x (elems (snd outside_scanned) 2%nat) =
          Some "/srv/media/x.mp3"%string) as Hf by (vm_compute; reflexivity).
  rewrite (@stream_facts.StreamAudio_forbidden_outside_prefix MusicScanner MusicScanner_Scanner
             outside_handler os_files
             (mkRequest id_x EmptyString (mkScanEnv 90 95 walk_outside)) (snd outside)
             2%nat (snd (fst outside_scanned)) (snd outside_scanned)
             "/srv/media/x.mp3" "/srv/media/x.mp3" Hid outside_scanned_ok Hf
             eq_refl eq_refl).
  reflexivity.
Defined.

Lemma StreamAudio_forbidden_directory_witness :
  effects_of (StreamAudio dir_handler os_dirs (request id_a EmptyString) (snd fresh)) =
    [EffScan; EffAbs "/music/a.mp3"; EffStat "/music/a.mp3"] /\
  status (response_of (StreamAudio dir_handler os_dirs (request id_a EmptyString)
                         (snd fresh))) = StatusForbidden.
Proof.
  assert (find_song (snd populated) id_a (elems (snd populated) 2%nat) =
          Some "/music/a.mp3"%string) as Hf by (vm_compute; reflexivity).
  rewrite (@stream_facts.StreamAudio_forbidden_directory MusicScanner MusicScanner_Scanner
             dir_handler os_dirs
             (request id_a EmptyString) (snd fresh) 2%nat (fst populated) (snd populated)
             "/music/a.mp3" "/music/a.mp3" 0 id_a_format scan_ab_ok Hf
             eq_refl eq_refl eq_refl).
  split; reflexivity.
Defined.

Lemma StreamAudio_serves_file_witness :
  sent (response_of (StreamAudio handler os_files (request id_a EmptyString)
                       (snd fresh))) = Some payload /\
  status (response_of (StreamAudio handler os_files (request id_a "bytes=6-")
                         (snd fresh))) = StatusPartialContent.
Proof.
  assert (find_song (snd populated) id_a (elems (snd populated) 2%nat) =
          Some "/music/a.mp3"%string) as Hf by (vm_compute; reflexivity).
  rewrite (@stream_facts.StreamAudio_serves_file MusicScanner MusicScanner_Scanner
             handler os_files
             (request id_a EmptyString) (snd fresh) 2%nat (fst populated) (snd populated)
             "/music/a.mp3" "/music/a.mp3" 11 payload id_a_format scan_ab_ok Hf
             eq_refl eq_refl eq_refl eq_refl).
  rewrite (@stream_facts.StreamAudio_serves_file MusicScanner MusicScanner_Scanner
             handler os_files
             (request id_a "bytes=6-") (snd fresh) 2%nat (fst populated) (snd populated)
             "/music/a.mp3" "/music/a.mp3" 11 payload id_a_format scan_ab_ok Hf
             eq_refl eq_refl eq_refl eq_refl).
  split; vm_compute; reflexivity.
Defined.

Lemma sent_bytes_match_headers_witness :
  get_header "Content-Length"
    (headers (response_of (StreamAudio handler os_files (request id_a "bytes=6-")
                             (snd fresh)))) = Some "5"%string.
Proof.
  assert (forall path size file,
            Stat os_files path = StatOk false size -> Open os_files path = Some file ->
            size = Z.of_nat (length file) /\ size <= strconv.maxInt64) as Hos.
  { intros path size file Hs Ho. injection Hs as <-. injection Ho as <-.
    split; by_evaluation. }
  assert (sent (response_of (StreamAudio handler os_files (request id_a "bytes=6-")
                               (snd fresh))) =
          Some [Byte.x77; Byte.x6f; Byte.x72; Byte.x6c; Byte.x64]) as Hsent
    by (vm_compute; reflexivity).
  destruct (@stream_facts.sent_bytes_match_headers MusicScanner MusicScanner_Scanner
              handler os_files (request id_a "bytes=6-") (snd fresh) _ Hos Hsent)
    as (_ & Hcl & _).
  exact Hcl.
Defined.

Lemma default_formats_have_audio_types_witness :
  gostrings.HasPrefix (getMimeType os_files "/music/Track.FLAC") "audio/" = true.
Proof.
  exact (stream_facts.default_formats_have_audio_types os_files "/music/Track.FLAC"
           eq_refl eq_refl).
Defined.

Lemma unique_scan_ab :
  Forall (unique_ids (effective_formats [".mp3"%string])) ([] ++ [OpScan scan_ab]).
Proof.
  apply List.Forall_cons; [|apply List.Forall_nil].
  unfold unique_ids. apply (bool_decide_eq_true_1 (NoDup _)). vm_compute. reflexivity.
Defined.

Lemma stream_search_agrees_with_index_witness :
  find_song (snd populated) id_b (elems (snd populated) 2%nat) =
    models.FilePath <$> lookup_view id_b (fst populated) (snd populated).
Proof.
  exact (stream_facts.stream_search_agrees_with_index "/music" [".mp3"%string] 5
           store.empty [] scan_ab 2%nat (fst populated) (snd populated) id_b
           unique_scan_ab scan_ab_ok).
Defined.

Lemma StreamAudio_scan_failure_witness :
  status (response_of (StreamAudio handler os_files
                         (mkRequest id_a EmptyString (mkScanEnv 90 95 walk_missing))
                         (snd fresh))) = StatusInternalServerError /\
  effects_of (StreamAudio handler os_files
                (mkRequest id_a EmptyString (mkScanEnv 90 95 walk_missing))
                (snd fresh)) = [EffScan] /\
  count_view (scanner populated_handler) (snd populated) = 2 /\
  status (response_of (StreamAudio populated_handler os_files
                         (mkRequest id_a EmptyString scan_later_missing)
                         (snd populated))) = StatusInternalServerError /\
  effects_of (StreamAudio populated_handler os_files
                (mkRequest id_a EmptyString scan_later_missing)
                (snd populated)) = [EffScan].
Proof.
  assert (cacheTTL (scanner handler) <=
          gotime.Since 90 (lastScan (scanner handler))) as H1 by by_evaluation.
  assert (cacheTTL (scanner handler) <=
          gotime.Since 95 (lastScan (scanner handler))) as H2 by by_evaluation.
  destruct (stream_facts.StreamAudio_scan_failure handler os_files
              (mkRequest id_a EmptyString (mkScanEnv 90 95 walk_missing)) (snd fresh)
              (DirectoryNotFound "/music") id_a_format H1 H2 eq_refl) as [Hr He].
  assert (cacheTTL (scanner populated_handler) <=
          gotime.Since 400000000000 (lastScan (scanner populated_handler))) as H3
    by by_evaluation.
  assert (cacheTTL (scanner populated_handler) <=
          gotime.Since 400000000001 (lastScan (scanner populated_handler))) as H4
    by by_evaluation.
  destruct (stream_facts.StreamAudio_scan_failure populated_handler os_files
              (mkRequest id_a EmptyString scan_later_missing) (snd populated)
              (DirectoryNotFound "/music") id_a_format H3 H4 eq_refl) as [Hr' He'].
  rewrite Hr, He, Hr', He'.
  split; [reflexivity|]. split; [reflexivity|]. split; [vm_compute; reflexivity|].
  split; reflexivity.
Defined.

Lemma valid_id_passes_legacy_check_witness : legacy_id_rejected id_a = false.
Proof. exact (stream_facts.valid_id_passes_legacy_check id_a id_a_format). Defined.

Lemma NewSong_title_extension_witness :
  (models.Title (models.NewSong meta "/music/a.mp3" 11) ++
   filepath.Ext (models.FileName (models.NewSong meta "/music/a.mp3" 11)))%string =
    models.FileName (models.NewSong meta "/music/a.mp3" 11).
Proof.
  exact (proj1 (song_facts.NewSong_title_extension meta "/music/a.mp3" 11 eq_refl)).
Defined.

Lemma indexed_song_format_witness :
  models.Format (models.NewSong meta "/music/b.MP3" 7) = ".mp3"%string.
Proof.
  rewrite (proj1 (song_facts.indexed_song_format meta "/music/b.MP3" 7 eq_refl)).
  vm_compute. reflexivity.
Defined.

Lemma playlist_GetSongByID_finds_requested_song_witness :
  playlist.code
    (fst (fst (playlist.GetSongByID
                 (playlist.NewPlaylistHandler
                    (fst (run [] (NewMusicScanner "/music" [".mp3"%string] 5 store.empty))))
                 os_files id_a scan_ab
                 (snd (run [] (NewMusicScanner "/music" [".mp3"%string] 5 store.empty))))))
    = StatusOK.
Proof.
  pose proof (playlist_facts.playlist_GetSongByID_finds_requested_song
                "/music" [".mp3"%string] 5 store.empty [] os_files id_a scan_ab 2%nat
                (fst populated) (snd populated) id_a_format unique_scan_ab scan_ab_ok) as H.
  cbv zeta in H.
  destruct (lookup_view id_a (fst populated) (snd populated)) as [v|] eqn:E.
  - destruct H as (Hr & _). rewrite Hr. reflexivity.
  - vm_compute in E. discriminate E.
Defined.

Lemma overrides_keep_limits_witness :
  configfile.within_limits (configfile.applyEnvOverrides env_port cfg_file) /\
  configfile.Server_Port (configfile.applyEnvOverrides env_port cfg_file) = 9090 /\
  configfile.Server_MaxRangeSize (configfile.applyEnvOverrides env_port cfg_file) = 1024.
Proof.
  assert (configfile.within_limits cfg_file) as H.
  { unfold configfile.within_limits. repeat split; by_evaluation. }
  split; [exact (proj1 (config_facts.overrides_keep_limits env_port cfg_file H))|].
  split; vm_compute; reflexivity.
Defined.

Lemma RequestID_tags_request_witness :
  exists id tagged logs,
    middleware.RequestID random_source not_found incoming = Some (not_found tagged, logs) /\
    id <> EmptyString /\
    middleware.GetRequestID tagged = id /\
    get_header middleware.RequestIDHeader (headers (middleware.writer tagged)) = Some id /\
    middleware.request_headers tagged = middleware.request_headers incoming /\
    Forall (fun entry => middleware.request_id entry = id) logs /\
    (middleware.GetHeader incoming middleware.RequestIDHeader <> EmptyString ->
     id = middleware.GetHeader incoming middleware.RequestIDHeader) /\
    (middleware.GetHeader incoming middleware.RequestIDHeader = EmptyString ->
     spec.is_id_format id).
Proof.
  assert (middleware.rand_Read random_source <> None) as H by discriminate.
  exact (middleware_facts.RequestID_tags_request random_source not_found incoming
           (or_intror (or_introl H))).
Defined.

End more_witnesses.
